(** * mokapot: PSM collections, fold partitioning and the cross-validation
      orchestrator

    A shallow embedding of [mokapot/dataset.py] (class [PsmDataset], and
    the parsing of a pin file in [_read_pin]) and [mokapot/brew.py]
    (functions [brew], [_make_train_sets], [_predict], [_fit_model]), with
    the properties of their specification stated and proved over it.

    Conventions of the embedding
    - a pandas [DataFrame] is a list of column names and a list of rows;
      rows are addressed by position only (the constructor resets the index
      and [brew.py] uses [iloc] everywhere);
    - numbers are rationals ([Q]); NaN and infinities are outside the model;
    - column names are ASCII strings, [str.lower] maps [A-Z] to [a-z];
    - numpy's global random generator is an explicit state: an arbitrary
      stream of draws with a read position;
    - a Python exception is the left injection of [result], the state
      reached when it is raised is kept;
    - the files are a parameter: the lines a file object hands out. The
      table that [_read_pin] builds from the header and the rows
      ([pd.DataFrame], [pd.to_numeric]) is outside the model. *)

From Stdlib Require Import String Ascii Bool Arith Lia ZArith QArith List
  Permutation Sorted.
Import ListNotations.

Local Open Scope string_scope.
Local Open Scope list_scope.
Local Open Scope nat_scope.

(** ** Exceptions and the state-and-error monad *)

Inductive Exn : Type :=
| ValueError (msg : string)
| TypeError (msg : string)
| IndexError (msg : string)
| AttributeError (msg : string)
| ZeroDivisionError
| OtherError (msg : string).

Definition result (A : Type) : Type := (Exn + A)%type.

Definition ok {A} (a : A) : result A := inr a.
Definition raise {A} (e : Exn) : result A := inl e.

Definition is_ok {A} (r : result A) : bool :=
  match r with inr _ => true | inl _ => false end.

Definition is_ValueError {A} (r : result A) : bool :=
  match r with inl (ValueError _) => true | _ => false end.

(** Pure, fallible computations. *)
Definition rbind {A B} (r : result A) (k : A -> result B) : result B :=
  match r with
  | inl e => inl e
  | inr a => k a
  end.

Fixpoint rmap {A B} (f : A -> result B) (l : list A) : result (list B) :=
  match l with
  | [] => ok []
  | x :: t =>
      rbind (f x) (fun y => rbind (rmap f t) (fun ys => ok (y :: ys)))
  end.

(** Computations over a state [S] that may raise. *)
Definition M (S A : Type) : Type := S -> result A * S.

Definition ret {S A} (a : A) : M S A := fun s => (inr a, s).
Definition throw {S A} (e : Exn) : M S A := fun s => (inl e, s).
Definition bind {S A B} (m : M S A) (k : A -> M S B) : M S B :=
  fun s =>
    match m s with
    | (inl e, s') => (inl e, s')
    | (inr a, s') => k a s'
    end.
Definition lift {S A} (r : result A) : M S A := fun s => (r, s).

Declare Scope monad_scope.
Delimit Scope monad_scope with monad.
Notation "x <- m ;; k" := (bind m (fun x => k))
  (at level 61, m at next level, right associativity) : monad_scope.
Notation "' p <- m ;; k" := (bind m (fun x => match x with p => k end))
  (at level 61, p pattern, m at next level, right associativity)
  : monad_scope.
Local Open Scope monad_scope.

(** ** Generic list operations used by the Python code *)

(** [l.index(x)] on a list of strings: position of the first occurrence. *)
Fixpoint list_index (x : string) (l : list string) : option nat :=
  match l with
  | [] => None
  | y :: t =>
      if String.eqb x y then Some 0
      else match list_index x t with
           | Some i => Some (S i)
           | None => None
           end
  end.

Definition mem_str (x : string) (l : list string) : bool :=
  existsb (String.eqb x) l.

(** [l[i] = v] for an index in range (nothing is done out of range; the
    callers below only assign at an index returned by [list_index]). *)
Fixpoint set_nth {A} (l : list A) (i : nat) (v : A) : list A :=
  match l, i with
  | [], _ => []
  | _ :: t, 0 => v :: t
  | x :: t, S j => x :: set_nth t j v
  end.

(** The Python slice [l[a:b]] for non-negative bounds. *)
Definition slice {A} (a b : nat) (l : list A) : list A :=
  firstn (b - a) (skipn a l).

(** [str.lower] on ASCII. *)
Definition lower_ascii (c : ascii) : ascii :=
  let n := nat_of_ascii c in
  if (65 <=? n) && (n <=? 90) then ascii_of_nat (n + 32) else c.

Fixpoint lower (s : string) : string :=
  match s with
  | EmptyString => EmptyString
  | String c s' => String (lower_ascii c) (lower s')
  end.

(** ** Data frames *)

Inductive Cell : Type :=
| Num (q : Q)
| Str (s : string).

Definition Row : Type := list Cell.

Record DataFrame : Type := mkDF
  { df_columns : list string;
    df_rows : list Row }.

Definition nrows (df : DataFrame) : nat := length (df_rows df).

(** The values of the column at position [j]; a short row contributes a
    missing value, written [Str ""]. *)
Definition column_at (j : nat) (df : DataFrame) : list Cell :=
  map (fun r => nth j r (Str "")) (df_rows df).

(** [df.iloc[:, a:b]] *)
Definition iloc_cols (a b : nat) (df : DataFrame) : DataFrame :=
  mkDF (slice a b (df_columns df)) (map (slice a b) (df_rows df)).

(** [pd.concat(frames)] for frames of one schema: the rows are appended in
    order, the columns are those of the first frame. An empty list of
    frames is an error ("No objects to concatenate"). *)
Definition pd_concat (frames : list DataFrame) : result DataFrame :=
  match frames with
  | [] => raise (ValueError "No objects to concatenate")
  | f :: _ => ok (mkDF (df_columns f) (concat (map df_rows frames)))
  end.

(** ** The random generator and [DataFrame.sample(frac=1)] *)

Record Rng : Type := mkRng
  { draws : nat -> nat;
    pos : nat }.

Definition next_draw (g : Rng) : nat * Rng :=
  (draws g (pos g), mkRng (draws g) (S (pos g))).

(** Remove the element at position [i]. *)
Fixpoint extract {A} (i : nat) (l : list A) {struct l}
  : option (A * list A) :=
  match l with
  | [] => None
  | x :: t =>
      match i with
      | 0 => Some (x, t)
      | S j =>
          match extract j t with
          | Some (y, t') => Some (y, x :: t')
          | None => None
          end
      end
  end.

(** A shuffle by repeated selection: each draw picks one of the elements
    that are left. *)
Fixpoint shuffle {A} (fuel : nat) (l : list A) : M Rng (list A) :=
  fun g =>
    match fuel with
    | 0 => (ok [], g)
    | S fuel' =>
        let (d, g1) := next_draw g in
        match extract (d mod length l) l with
        | None => (ok [], g1)
        | Some (x, rest) =>
            match shuffle fuel' rest g1 with
            | (inr out, g2) => (ok (x :: out), g2)
            | (inl e, g2) => (inl e, g2)
            end
        end
    end.

(** [df.sample(frac=1).reset_index(drop=True)]: all rows, in a random
    order, renumbered from 0. *)
Definition sample_all (df : DataFrame) : M Rng DataFrame :=
  rows <- shuffle (nrows df) (df_rows df) ;;
  ret (mkDF (df_columns df) rows).

(** ** [class PsmDataset] of dataset.py *)

Record PsmDataset : Type := mkPsm { data : DataFrame }.

(** [PsmDataset.columns]: the column names in lower case. *)
Definition columns (d : DataFrame) : list string :=
  map lower (df_columns d).

Definition required_cols : list string :=
  ["label"; "scannr"; "peptide"; "proteins"].

Definition missing_msg : string :=
  "Required columns are missing from the pin file.".

(** The loop [for col_name in required_cols: df_cols[cols.index(col_name)]
    = col_name]. *)
Fixpoint rename_required (cols : list string) (names : list string)
    (df_cols : list string) : result (list string) :=
  match names with
  | [] => ok df_cols
  | c :: rest =>
      match list_index c cols with
      | None => raise (ValueError "is not in list")
      | Some i => rename_required cols rest (set_nth df_cols i c)
      end
  end.

(** [PsmDataset.__init__] *)
Definition PsmDataset_init (psm_data : DataFrame) : M Rng PsmDataset :=
  d <- sample_all psm_data ;;
  let cols := columns d in
  if negb (forallb (fun c => mem_str c cols) required_cols) then
    throw (ValueError missing_msg)
  else
    df_cols <- lift (rename_required cols required_cols (df_columns d)) ;;
    ret (mkPsm (mkDF df_cols (df_rows d))).

(** [PsmDataset.dual]: whether the table has no more rows than columns
    (the property also logs a warning then). *)
Definition dual (ds : PsmDataset) : bool :=
  nrows (data ds) <=? length (df_columns (data ds)).

(** [PsmDataset.features]: the columns between [scannr] (or [calcmass],
    when present) and [peptide]. *)
Definition index_or_raise (x : string) (l : list string) : result nat :=
  match list_index x l with
  | Some i => ok i
  | None => raise (ValueError "is not in list")
  end.

Definition features (ds : PsmDataset) : result DataFrame :=
  let cols := columns (data ds) in
  rbind (index_or_raise "peptide" cols) (fun feat_end =>
  rbind (if mem_str "calcmass" cols
         then rbind (index_or_raise "calcmass" cols) (fun i => ok (S i))
         else rbind (index_or_raise "scannr" cols) (fun i => ok (S i)))
        (fun feat_start => ok (iloc_cols feat_start feat_end (data ds)))).

(** [PsmDataset.label]: [self.data.label.values]. *)
Definition label (ds : PsmDataset) : result (list Cell) :=
  match list_index "label" (df_columns (data ds)) with
  | Some j => ok (column_at j (data ds))
  | None => raise (AttributeError "label")
  end.

(** [self.label == 1], elementwise. *)
Definition is_target (c : Cell) : bool :=
  match c with
  | Num q => Qeq_bool q 1
  | Str _ => false
  end.

(** [(self.label + 1) / 2], elementwise. *)
Definition to_target (lab : list Cell) : result (list Q) :=
  rmap (fun c =>
          match c with
          | Num q => ok ((q + 1) / 2)%Q
          | Str _ => raise (TypeError "can only concatenate str to str")
          end) lab.

(** [frame[mask]] on one column: the entries where the mask holds. *)
Definition boolean_mask {A} (mask : list bool) (col : list A) : list A :=
  map snd (filter fst (combine mask col)).

(** [(col <= fdr).sum()] *)
Definition count_le (fdr : Q) (col : list Q) : nat :=
  length (filter (fun v => Qle_bool v fdr) col).

(** [Series.idxmax()]: the label of the first maximum; [None] stands for
    the error raised on an empty series. *)
Fixpoint idxmax (l : list (string * nat)) : option (string * nat) :=
  match l with
  | [] => None
  | (n, c) :: t =>
      match idxmax t with
      | Some (n', c') => if c <? c' then Some (n', c') else Some (n, c)
      | None => Some (n, c)
      end
  end.

(** [frame[name]]: the column of that name ([None]: a [KeyError]). *)
Fixpoint lookup_col {A} (name : string) (l : list (string * A)) : option A :=
  match l with
  | [] => None
  | (n, v) :: t => if String.eqb name n then Some v else lookup_col name t
  end.

Section BestFeature.

  (** [mokapot.qvalues.tdc] is imported by dataset.py and is not part of
      the sources at hand: it is a parameter, from a score column and the
      target vector to the q-values, or an exception. *)
  Variable tdc : list Cell -> list Q -> result (list Q).

  (** [self.features.apply(tdc, target=...)]: one call per column. *)
Definition apply_tdc (feats : DataFrame) (target : list Q)
    : result (list (string * list Q)) :=
    rmap (fun jn : nat * string =>
            rbind (tdc (column_at (fst jn) feats) target)
                  (fun q => ok (snd jn, q)))
         (combine (seq 0 (length (df_columns feats))) (df_columns feats)).

  (** [PsmDataset.find_best_feature] *)
Definition find_best_feature (ds : PsmDataset) (fdr : Q)
    : result (string * nat * list Cell) :=
    rbind (features ds) (fun feats =>
    rbind (label ds) (fun lab =>
    rbind (to_target lab) (fun target01 =>
    rbind (apply_tdc feats target01) (fun qvals =>
    let mask := map is_target lab in
    let targ_qvals :=
      map (fun nq : string * list Q => (fst nq, boolean_mask mask (snd nq)))
          qvals in
    let num_passing :=
      map (fun nq : string * list Q => (fst nq, count_le fdr (snd nq)))
          targ_qvals in
    match idxmax num_passing with
    | None => raise (ValueError "attempt to get argmax of an empty sequence")
    | Some (best_feat, _) =>
        match lookup_col best_feat qvals, lookup_col best_feat num_passing with
        | Some qbest, Some cnt =>
            let unlabeled :=
              map (fun qm : Q * bool => negb (Qle_bool (fst qm) fdr) && snd qm)
                  (combine qbest mask) in
            let target :=
              map (fun ul : bool * Cell => if fst ul then Num 0 else snd ul)
                  (combine unlabeled lab) in
            ok (best_feat, cnt, target)
        | _, _ => raise (OtherError "KeyError")
        end
    end)))).

End BestFeature.

(** *** [PsmDataset.split] *)

(** [np.array_split]: the first [n mod k] sections have [n / k + 1] rows,
    the others [n / k]. *)
Definition section_sizes (n k : nat) : list nat :=
  repeat (S (n / k)) (n mod k) ++ repeat (n / k) (k - n mod k).

Fixpoint chunks_by {A} (sizes : list nat) (l : list A) : list (list A) :=
  match sizes with
  | [] => []
  | s :: t => firstn s l :: chunks_by t (skipn s l)
  end.

Definition array_split (df : DataFrame) (k : nat) : result (list DataFrame) :=
  if k =? 0 then raise (ValueError "number sections must be larger than 0.")
  else ok (map (mkDF (df_columns df))
               (chunks_by (section_sizes (nrows df) k) (df_rows df))).

(** Lines 95-97: a trailing chunk shorter than [num] is appended to the
    chunk before it. *)
Definition merge_tail (num : nat) (splits : list DataFrame)
  : result (list DataFrame) :=
  match rev splits with
  | [] => raise (IndexError "list index out of range")
  | lst :: before =>
      if nrows lst <? num then
        match before with
        | [] => raise (IndexError "list assignment index out of range")
        | prev :: init =>
            rbind (pd_concat [prev; lst]) (fun m => ok (rev init ++ [m]))
        end
      else ok splits
  end.

(** The loop of lines 102-105; [idx] is the position of the head of
    [todo] in [splits]. *)
Fixpoint split_loop (splits : list DataFrame) (idx : nat)
    (todo : list DataFrame) : M Rng (list PsmDataset * list PsmDataset) :=
  match todo with
  | [] => ret ([], [])
  | test_split :: rest =>
      train_split <-
        lift (pd_concat (firstn idx splits ++ skipn (S idx) splits)) ;;
      tr <- PsmDataset_init train_split ;;
      te <- PsmDataset_init test_split ;;
      tt <- split_loop splits (S idx) rest ;;
      ret (tr :: fst tt, te :: snd tt)
  end.

Definition split (ds : PsmDataset) (folds : nat)
  : M Rng (list PsmDataset * list PsmDataset) :=
  lab <- lift (label ds) ;;
  if folds =? 0 then throw ZeroDivisionError
  else
    let num := length lab / folds in
    splits0 <- lift (array_split (data ds) folds) ;;
    splits <- lift (merge_tail num splits0) ;;
    split_loop splits 0 splits.

(** *** [_read_pin]: the header and the rows (lines 126-134) *)

(** [s.replace("\n", "")] on a [str]. *)
Fixpoint remove_newlines (s : string) : string :=
  match s with
  | EmptyString => EmptyString
  | String c t =>
      if Ascii.eqb c "010"%char then remove_newlines t
      else String c (remove_newlines t)
  end.

(** [s.split("\t", maxsplit)]: at most [maxsplit] splits, from the left;
    [None] is the default, no limit. *)
Fixpoint split_tab (maxsplit : option nat) (s : string) : list string :=
  match s with
  | EmptyString => [EmptyString]
  | String c t =>
      if Ascii.eqb c "009"%char &&
         negb (match maxsplit with Some 0 => true | _ => false end)
      then EmptyString :: split_tab (option_map pred maxsplit) t
      else match split_tab maxsplit t with
           | f :: fs => String c f :: fs
           | [] => [String c EmptyString]
           end
  end.

(** [s.endswith(suffix)] *)
Definition endswith (s suffix : string) : bool :=
  let n := String.length s in
  let m := String.length suffix in
  (m <=? n) && String.eqb (substring (n - m) m s) suffix.

(** An open file: its lines, handed out as [str] in text mode and as
    [bytes] (written here as the string of the octets) in binary mode. *)
Record FileObj : Type := mkFile
  { binary : bool;
    file_lines : list string }.

Inductive PyLine : Type :=
| TextLine (s : string)
| BytesLine (b : string).

Definition line_of (f : FileObj) (l : string) : PyLine :=
  if binary f then BytesLine l else TextLine l.

(** [pin.readline()]: the next line, or the empty line at the end of the
    file. *)
Definition readline (f : FileObj) : PyLine * FileObj :=
  match file_lines f with
  | [] => (line_of f "", f)
  | l :: t => (line_of f l, mkFile (binary f) t)
  end.

(** [line.replace("\n", "")], the arguments being [str]: on [bytes] this
    is a [TypeError]. *)
Definition replace_newline (l : PyLine) : result string :=
  match l with
  | TextLine s => ok (remove_newlines s)
  | BytesLine _ =>
      raise (TypeError "a bytes-like object is required, not 'str'")
  end.

Section ReadPin.

  (** The files: the lines of the named file as the builtin [open] reads
      them in text mode, and the lines of the decompressed file as
      [gzip.open] reads them; [inl] is the error of a file that cannot be
      opened or read. *)
  Variable open_lines : string -> result (list string).
  Variable gzip_lines : string -> result (list string).

  (** [fopen(pin_file, "r")]: the mode ["r"] is text mode for [open] and
      binary mode for [gzip.open]. *)
Definition fopen (pin_file : string) : result FileObj :=
    if endswith pin_file ".gz"
    then rbind (gzip_lines pin_file) (fun ls => ok (mkFile true ls))
    else rbind (open_lines pin_file) (fun ls => ok (mkFile false ls)).

  (** Lines 126-134: the [header] and the [rows] that are passed to
      [pd.DataFrame(columns=header, data=rows)]. *)
Definition _read_pin_rows (pin_file : string)
    : result (list string * list (list string)) :=
    rbind (fopen pin_file) (fun pin =>
    let (first, pin) := readline pin in
    rbind (replace_newline first) (fun header =>
    let header := split_tab None header in
    rbind (rmap (fun l =>
                   rbind (replace_newline (line_of pin l)) (fun l' =>
                   ok (split_tab (Some (length header - 1)) l')))
                (file_lines pin)) (fun rows =>
    ok (header, rows)))).

End ReadPin.

(** ** brew.py *)

(** *** numpy and list helpers *)

Fixpoint mapM {S A B} (f : A -> M S B) (l : list A) : M S (list B) :=
  match l with
  | [] => ret []
  | x :: t =>
      y <- f x ;;
      ys <- mapM f t ;;
      ret (y :: ys)
  end.

(** [frame.iloc[idx, :]] for a list of positions. *)
Definition iloc_rows (idx : list nat) (df : DataFrame) : result DataFrame :=
  rbind (rmap (fun i =>
                 match nth_error (df_rows df) i with
                 | Some r => ok r
                 | None =>
                     raise (IndexError "positional indexers are out-of-bounds")
                 end) idx)
        (fun rows => ok (mkDF (df_columns df) rows)).

(** [list(j - set(i))]; the members are listed in increasing order (the
    order in which Python iterates over a set is not specified, and no
    property below depends on it). *)
Definition set_diff (j i : list nat) : list nat :=
  filter (fun r => negb (existsb (Nat.eqb r) i)) j.

(** [zip] over the unpacked list [ls]: the tuples of the i-th elements, as long as every list has
    one. *)
Fixpoint heads_tails {A} (ls : list (list A))
  : option (list A * list (list A)) :=
  match ls with
  | [] => Some ([], [])
  | [] :: _ => None
  | (x :: t) :: rest =>
      match heads_tails rest with
      | Some (hs, ts) => Some (x :: hs, t :: ts)
      | None => None
      end
  end.

Fixpoint zip_star_fuel {A} (fuel : nat) (ls : list (list A))
  : list (list A) :=
  match fuel with
  | 0 => []
  | S f =>
      match heads_tails ls with
      | Some (hs, ts) => hs :: zip_star_fuel f ts
      | None => []
      end
  end.

Definition zip_star {A} (ls : list (list A)) : list (list A) :=
  match ls with
  | [] => []
  | l :: _ => zip_star_fuel (length l) ls
  end.

(** [np.argsort]: the positions of [l], ordered by the value they hold.
    Positions of equal values keep their order (numpy's default sort
    leaves that open). *)
Fixpoint insert_pos (l : list nat) (i : nat) (sorted : list nat) : list nat :=
  match sorted with
  | [] => [i]
  | j :: t =>
      if nth i l 0 <=? nth j l 0 then i :: j :: t
      else j :: insert_pos l i t
  end.

Definition argsort (l : list nat) : list nat :=
  fold_right (insert_pos l) [] (seq 0 (length l)).

(** [np.concatenate(arrays)]; an empty list of arrays is an error. *)
Definition np_concatenate (arrays : list (list Q)) : result (list Q) :=
  match arrays with
  | [] => raise (ValueError "need at least one array to concatenate")
  | _ => ok (concat arrays)
  end.

(** [a[idx]] for a list of positions. *)
Definition take (a : list Q) (idx : list nat) : result (list Q) :=
  rmap (fun i =>
          match nth_error a i with
          | Some v => ok v
          | None => raise (IndexError "index is out of bounds")
          end) idx.

Definition loc : Type := nat.

Section Brew.

  (** brew.py works on [PsmDataset] objects that keep their table in the
      attribute [_data] (read through [data]) and have the methods
      [_split], [_calibrate_scores] and [assign_confidence].
      The collaborators of brew.py that are not part of the sources at
      hand are parameters: the state of a [Model] and the model built by
      [Model()], [PsmDataset._split], [Model.fit], [Model.predict],
      [PsmDataset._calibrate_scores] and [PsmDataset.assign_confidence]
      with the type of its result. [fit] changes the model it is called
      on and nothing else; the other four only read. *)
  Variable ModelState : Type.
  Variable Conf : Type.
  Variable default_model : ModelState.
  Variable _split : DataFrame -> nat -> M Rng (list (list nat)).
  Variable fit :
    ModelState -> option DataFrame -> Q -> nat -> option string ->
    result ModelState.
  Variable predict : ModelState -> DataFrame -> result (list Q).
  Variable _calibrate_scores : DataFrame -> list Q -> Q -> result (list Q).
  Variable assign_confidence : DataFrame -> list Q -> result Conf.

  (** What the worker process of job [i] receives as training table when
      the jobs are sent to a process pool: the one object yielded by
      [_make_train_sets] is serialised some time after the job was
      submitted, while the generator goes on rebinding its [_data]. The
      argument is the list of tables the generator has bound in turn. *)
  Variable pool_view : nat -> list DataFrame -> option DataFrame.

  (** *** The store *)

Inductive Obj : Type :=
  | PsmObj (_data : option DataFrame)
  | ModelObj (st : ModelState).

Record World : Type := mkWorld
    { heap : list Obj;
      rng : Rng }.

Definition alloc (o : Obj) : M World loc :=
    fun w => (ok (length (heap w)), mkWorld (heap w ++ [o]) (rng w)).

Definition read (l : loc) : M World Obj :=
    fun w =>
      match nth_error (heap w) l with
      | Some o => (ok o, w)
      | None => (raise (OtherError "no such object"), w)
      end.

Definition write (l : loc) (o : Obj) : M World unit :=
    fun w => (ok tt, mkWorld (set_nth (heap w) l o) (rng w)).

Definition with_rng {A} (m : M Rng A) : M World A :=
    fun w => let (r, g) := m (rng w) in (r, mkWorld (heap w) g).

  (** [copy.copy(o)] and [copy.deepcopy(o)]: a new object with the same
      attribute values (the values held by an object are immutable here, so
      the two coincide). *)
Definition copy_copy (l : loc) : M World loc :=
    o <- read l ;; alloc o.

Definition deepcopy (l : loc) : M World loc :=
    o <- read l ;; alloc o.

  (** [o._data] *)
Definition read_data (l : loc) : M World (option DataFrame) :=
    o <- read l ;;
    match o with
    | PsmObj d => ret d
    | ModelObj _ => throw (AttributeError "_data")
    end.

  (** [o.data], used as a table. *)
Definition get_data (l : loc) : M World DataFrame :=
    d <- read_data l ;;
    match d with
    | Some df => ret df
    | None => throw (TypeError "'NoneType' object")
    end.

Definition read_model (l : loc) : M World ModelState :=
    o <- read l ;;
    match o with
    | ModelObj st => ret st
    | PsmObj _ => throw (AttributeError "fit")
    end.

  (** *** [_make_train_sets], a generator *)

Inductive GenState : Type :=
  | GenStart (psms : list loc) (test_idx : list (list (list nat)))
  | GenLoop (train_set : loc) (psms : list loc) (all_idx : list (list nat))
            (pending : list (list (list nat)))
  | GenDone.

  (** One turn of the loop of lines 135-142, up to the [yield]. *)
Definition gen_loop (train_set : loc) (psms : list loc)
      (all_idx : list (list nat)) (pending : list (list (list nat)))
    : M World (option loc * GenState) :=
    match pending with
    | [] => ret (None, GenDone)
    | idx :: rest =>
        _ <- write train_set (PsmObj None) ;;
        data <- mapM (fun ijd : list nat * list nat * loc =>
                        let '(i, j, dset) := ijd in
                        d <- get_data dset ;;
                        lift (iloc_rows (set_diff j i) d))
                     (combine (combine idx all_idx) psms) ;;
        tr <- lift (pd_concat data) ;;
        _ <- write train_set (PsmObj (Some tr)) ;;
        ret (Some train_set, GenLoop train_set psms all_idx rest)
    end.

  (** [next(train_sets)]; [None] is [StopIteration]. *)
Definition gen_next (g : GenState) : M World (option loc * GenState) :=
    match g with
    | GenStart psms test_idx =>
        match psms with
        | [] => throw (IndexError "list index out of range")
        | p0 :: _ =>
            train_set <- copy_copy p0 ;;
            all_idx <- mapM (fun p => d <- get_data p ;;
                                      ret (seq 0 (nrows d))) psms ;;
            gen_loop train_set psms all_idx (zip_star test_idx)
        end
    | GenLoop train_set psms all_idx pending =>
        gen_loop train_set psms all_idx pending
    | GenDone => ret (None, GenDone)
    end.

  (** *** [_fit_model] *)
Definition _fit_model (train_set model : loc) (train_fdr : Q)
      (max_iter : nat) (direction : option string) (fold : nat)
    : M World loc :=
    st <- read_model model ;;
    d <- read_data train_set ;;
    st' <- lift (fit st d train_fdr max_iter direction) ;;
    _ <- write model (ModelObj st') ;;
    ret model.

  (** *** The iterator [models] *)

  (** [map(_fit_model, train_sets, copies, ...)] is lazy: it holds the
      generator and what is left of the list of model copies (the other
      argument lists have the same length). The results of
      [prc.map(...)] were computed by the workers and are handed out one
      by one. Both can be traversed once. *)
Inductive ModelsIter : Type :=
  | LazyMap (gen : GenState) (copies : list loc) (fold : nat)
  | PoolResults (results : list (result ModelState)).

  Section Iterating.

    Variables (train_fdr : Q) (max_iter : nat) (direction : option string).

    (** [next(models)]; [None] is [StopIteration]. *)
Definition next_model (it : ModelsIter)
      : M World (option loc * ModelsIter) :=
      match it with
      | LazyMap gen copies fold =>
          ng <- gen_next gen ;;
          match fst ng with
          | None => ret (None, LazyMap (snd ng) copies fold)
          | Some train_set =>
              match copies with
              | [] => ret (None, LazyMap (snd ng) [] fold)
              | m :: rest =>
                  m' <- _fit_model train_set m train_fdr max_iter
                                   direction fold ;;
                  ret (Some m', LazyMap (snd ng) rest (S fold))
              end
          end
      | PoolResults results =>
          match results with
          | [] => ret (None, PoolResults [])
          | inl e :: _ => throw e
          | inr st :: rest =>
              m <- alloc (ModelObj st) ;;
              ret (Some m, PoolResults rest)
          end
      end.

    (** [prc.map] collects the zip of its iterables at once: the generator is
        run to its end in the calling process, one job per tuple. *)
Fixpoint pool_collect (copies : list loc) (gen : GenState)
      : M World (list loc * list DataFrame) :=
      ng <- gen_next gen ;;
      match fst ng with
      | None => ret ([], [])
      | Some train_set =>
          match copies with
          | [] => ret ([], [])
          | m :: rest =>
              d <- get_data train_set ;;
              r <- pool_collect rest (snd ng) ;;
              ret (m :: fst r, d :: snd r)
          end
      end.

    (** The jobs run in the workers, each on its own serialised copy of
        its arguments; the caller's store is not touched. *)
Definition pool_map (gen : GenState) (copies : list loc)
      : M World ModelsIter :=
      jobs <- pool_collect copies gen ;;
      states <- mapM read_model (fst jobs) ;;
      ret (PoolResults
             (map (fun ist : nat * ModelState =>
                     fit (snd ist) (pool_view (fst ist) (snd jobs))
                         train_fdr max_iter direction)
                  (combine (seq 0 (length states)) states))).

  End Iterating.

  (** *** [_predict] *)

  Section Predict.

    Variables (train_fdr : Q) (max_iter : nat) (direction : option string).

    (** The loop [for fold, mod in zip(test_idx, models)]: [zip] asks
        [test_idx] first, then [models], and stops as soon as one of them
        is exhausted. *)
Fixpoint predict_loop (dset test_set : loc) (test_idx : list (list nat))
        (models : ModelsIter) (test_fdr : Q)
      : M World (list (list Q) * ModelsIter) :=
      match test_idx with
      | [] => ret ([], models)
      | fold :: rest =>
          nm <- next_model train_fdr max_iter direction models ;;
          match fst nm with
          | None => ret ([], snd nm)
          | Some mod_ =>
              d <- get_data dset ;;
              sub <- lift (iloc_rows fold d) ;;
              _ <- write test_set (PsmObj (Some sub)) ;;
              st <- read_model mod_ ;;
              t <- get_data test_set ;;
              raw <- lift (predict st t) ;;
              s <- lift (_calibrate_scores t raw test_fdr) ;;
              r <- predict_loop dset test_set rest (snd nm) test_fdr ;;
              ret (s :: fst r, snd r)
          end
      end.

Definition _predict (dset : loc) (test_idx : list (list nat))
        (models : ModelsIter) (test_fdr : Q)
      : M World (list Q * ModelsIter) :=
      test_set <- copy_copy dset ;;
      sm <- predict_loop dset test_set test_idx models test_fdr ;;
      let rev_idx := argsort (concat test_idx) in
      all <- lift (np_concatenate (fst sm)) ;;
      out <- lift (take all rev_idx) ;;
      ret (out, snd sm).

    (** [[_predict(p, i, models, test_fdr) for p, i in zip(psms,
        test_idx)]]: every call is given the same iterator. *)
Fixpoint predict_each (pairs : list (loc * list (list nat)))
        (models : ModelsIter) (test_fdr : Q) : M World (list (list Q)) :=
      match pairs with
      | [] => ret []
      | pi :: rest =>
          sm <- _predict (fst pi) (snd pi) models test_fdr ;;
          ss <- predict_each rest (snd sm) test_fdr ;;
          ret (fst sm :: ss)
      end.

  End Predict.

  (** *** [brew] *)

  (** [psms] is one collection or a sequence of collections. *)
Inductive PsmsArg : Type :=
  | One (p : loc)
  | Many (ps : list loc).

Inductive BrewResult : Type :=
  | Single (c : Conf)
  | Results (cs : list Conf).

Definition brew (psms : PsmsArg) (model : option loc) (train_fdr : Q)
      (test_fdr : Q) (max_iter : nat) (direction : option string)
      (folds : nat) (max_workers : nat) : M World BrewResult :=
    model <- match model with
             | None => alloc (ModelObj default_model)
             | Some m => ret m
             end ;;
    let psms := match psms with One p => [p] | Many ps => ps end in
    test_idx <- mapM (fun p => d <- get_data p ;;
                               with_rng (_split d folds)) psms ;;
    let train_sets := GenStart psms test_idx in
    copies <- mapM (fun _ : nat => deepcopy model) (seq 0 folds) ;;
    if max_workers =? 0 then
      throw (ValueError "max_workers must be greater than 0")
    else
      models <- (if max_workers =? 1
                 then ret (LazyMap train_sets copies 0)
                 else pool_map train_fdr max_iter direction
                               train_sets copies) ;;
      scores <- predict_each train_fdr max_iter direction
                             (combine psms test_idx) models test_fdr ;;
      res <- mapM (fun ps : loc * list Q =>
                     d <- get_data (fst ps) ;;
                     lift (assign_confidence d (snd ps)))
                  (combine psms scores) ;;
      match res with
      | [r] => ret (Single r)
      | _ => ret (Results res)
      end.

End Brew.

Arguments PsmObj {ModelState}.
Arguments ModelObj {ModelState}.
Arguments mkWorld {ModelState}.
Arguments heap {ModelState}.
Arguments rng {ModelState}.
Arguments alloc {ModelState}.
Arguments read {ModelState}.
Arguments write {ModelState}.
Arguments with_rng {ModelState A}.
Arguments copy_copy {ModelState}.
Arguments deepcopy {ModelState}.
Arguments read_data {ModelState}.
Arguments get_data {ModelState}.
Arguments read_model {ModelState}.
Arguments gen_loop {ModelState}.
Arguments gen_next {ModelState}.
Arguments _fit_model {ModelState}.
Arguments LazyMap {ModelState}.
Arguments PoolResults {ModelState}.
Arguments next_model {ModelState}.
Arguments pool_collect {ModelState}.
Arguments pool_map {ModelState}.
Arguments predict_loop {ModelState}.
Arguments _predict {ModelState}.
Arguments predict_each {ModelState}.
Arguments Single {Conf}.
Arguments Results {Conf}.
Arguments brew {ModelState Conf}.

(** ** Instances of the parameters, for running the model *)

(** The helpers of [tdc_spec] below. *)
Definition cell_num (c : Cell) : result Q :=
  match c with
  | Num q => ok q
  | Str _ => raise (TypeError "could not convert string to float")
  end.

Fixpoint insert_desc (s : list Q) (i : nat) (sorted : list nat) : list nat :=
  match sorted with
  | [] => [i]
  | j :: t =>
      if Qle_bool (nth j s 0%Q) (nth i s 0%Q) then i :: j :: t
      else j :: insert_desc s i t
  end.

Definition argsort_desc (s : list Q) : list nat :=
  fold_right (insert_desc s) [] (seq 0 (length s)).

Definition Qmin_b (a b : Q) : Q := if Qle_bool a b then a else b.

Fixpoint running_fdr (targets decoys : nat) (sorted_target : list Q)
  : list Q :=
  match sorted_target with
  | [] => []
  | t :: rest =>
      let targets' := if Qeq_bool t 1 then S targets else targets in
      let decoys' := if Qeq_bool t 1 then decoys else S decoys in
      (if targets' =? 0 then 1%Q
       else if decoys' =? 0 then 0%Q
       else Qmin_b 1 (inject_Z (Z.of_nat (S decoys')) /
                      inject_Z (Z.of_nat targets'))%Q)
        :: running_fdr targets' decoys' rest
  end.

Fixpoint suffix_min (l : list Q) : list Q :=
  match l with
  | [] => []
  | x :: t =>
      match suffix_min t with
      | [] => [x]
      | m :: r => Qmin_b x m :: m :: r
      end
  end.

Fixpoint position_of (i : nat) (l : list nat) : nat :=
  match l with
  | [] => 0
  | j :: t => if i =? j then 0 else S (position_of i t)
  end.

(** Modelled from the spec: [mokapot.qvalues.tdc], which dataset.py imports
    and the sources at hand do not contain. "Sort indices by descending
    score; at each rank compute the running ratio of decoys to targets seen
    so far (plus a small-sample correction), take this as the local FDR;
    convert local FDR to q-value by a suffix-minimum; scatter results back
    to original row order"; "zero targets present: must fail with an
    explicit error"; "zero decoys present: q-values degenerate to zero";
    a q-value is "in [0,1]". The correction is the usual [+ 1] on the
    decoys, applied from the first decoy on (so that without a decoy every
    q-value is zero); the ratio is capped at 1, and a rank with no target so
    far has local FDR 1. *)
Definition tdc_spec (scores : list Cell) (target : list Q)
  : result (list Q) :=
  rbind (rmap cell_num scores) (fun s =>
  if negb (existsb (fun t => Qeq_bool t 1) target) then
    raise (ValueError "no targets")
  else
    let order := argsort_desc s in
    let qs :=
      suffix_min (running_fdr 0 0 (map (fun i => nth i target 0%Q) order)) in
    ok (map (fun i => nth (position_of i order) qs 1%Q)
            (seq 0 (length scores)))).

(** The merge of a short trailing chunk, for [split_spec] below. *)
Definition merge_short {A} (num : nat) (chunks : list (list A))
  : list (list A) :=
  match rev chunks with
  | lst :: prev :: init =>
      if length lst <? num then rev init ++ [prev ++ lst] else chunks
  | _ => chunks
  end.

(** Modelled from the spec: [PsmDataset._split], which brew.py calls and
    the sources at hand do not contain. "Rows are first randomly shuffled,
    then split as evenly as possible into k contiguous chunks. If the
    trailing chunk is smaller than the even-split size, it is merged into
    the second-to-last chunk". The result is the list of the chunks of row
    positions. *)
Definition split_spec (d : DataFrame) (folds : nat)
  : M Rng (list (list nat)) :=
  if folds =? 0 then throw ZeroDivisionError
  else
    idx <- shuffle (nrows d) (seq 0 (nrows d)) ;;
    ret (merge_short (nrows d / folds)
           (chunks_by (section_sizes (nrows d) folds) idx)).

(** A toy classifier: its state is the number of rows it was last fitted
    on; the score of a row is its cell in the fourth column plus that
    number. *)
Definition toy_fit (st : nat) (d : option DataFrame) (train_fdr : Q)
    (max_iter : nat) (direction : option string) : result nat :=
  match d with
  | Some df => ok (nrows df)
  | None => raise (TypeError "'NoneType' object")
  end.

Definition row_feature (r : Row) : Q :=
  match nth_error r 3 with
  | Some (Num q) => q
  | _ => 0%Q
  end.

Definition toy_predict (st : nat) (t : DataFrame) : result (list Q) :=
  ok (map (fun r => (row_feature r + inject_Z (Z.of_nat st))%Q) (df_rows t)).

Definition toy_calibrate (t : DataFrame) (raw : list Q) (test_fdr : Q)
  : result (list Q) := ok raw.

Definition toy_confidence (d : DataFrame) (scores : list Q)
  : result (list Q) := ok scores.

(** The generator that always draws [0] (every shuffle is the identity)
    and the one that always draws [1]. *)
Definition rng0 : Rng := mkRng (fun _ => 0) 0.
Definition rng1 : Rng := mkRng (fun _ => 1) 0.

(** * The vocabulary of the properties, and data to run the model on *)

(** The table has, up to case, each of the four required columns. *)
Definition has_required (df : DataFrame) : Prop :=
  forall c, In c required_cols ->
            exists name, In name (df_columns df) /\ lower name = c.

(** What the constructor does to the column names: the first column that
    matches a required name up to case now carries that name, and every
    other column keeps its own. *)
Definition canonical_names (before after : list string) : Prop :=
  length after = length before /\
  (forall c, In c required_cols ->
     exists i, list_index c (map lower before) = Some i /\
               nth_error after i = Some c) /\
  (forall i, (forall c, In c required_cols ->
                        list_index c (map lower before) <> Some i) ->
             nth_error after i = nth_error before i).

(** The rows at the given positions. *)
Definition rows_at (rows : list Row) (ix : list nat) : list Row :=
  map (fun i => nth i rows []) ix.

(** [p] is an object returned by the constructor on the table [d]. *)
Definition built_by_init (d : DataFrame) (p : PsmDataset) : Prop :=
  exists g g', PsmDataset_init d g = (inr p, g').

(** The frames passed to the constructor for fold [i]. *)
Definition train_rows (splits : list DataFrame) (i : nat) : list Row :=
  concat (map df_rows (firstn i splits ++ skipn (S i) splits)).

(** The number of target rows (label 1) whose q-value is at most [fdr]. *)
Definition passing_targets (lab : list Cell) (q : list Q) (fdr : Q) : nat :=
  length (filter (fun lq : Cell * Q =>
                    is_target (fst lq) && Qle_bool (snd lq) fdr)
                 (combine lab q)).

(** The label vector after the demotion: a target whose q-value exceeds
    [fdr] becomes 0, every other entry is kept. *)
Definition demoted (lab : list Cell) (q : list Q) (fdr : Q) : list Cell :=
  map (fun lq : Cell * Q =>
         if is_target (fst lq) && negb (Qle_bool (snd lq) fdr)
         then Num 0 else fst lq)
      (combine lab q).

Definition demo_columns : list string :=
  ["SpecId"; "Label"; "ScanNr"; "score"; "Peptide"; "Proteins"].

Definition canonical_columns : list string :=
  ["SpecId"; "label"; "scannr"; "score"; "peptide"; "proteins"].

Definition demo_row (id : string) (lab scan score : Z) : Row :=
  [Str id; Num (inject_Z lab); Num (inject_Z scan); Num (inject_Z score);
   Str "PEPTIDEK"; Str "sp|P1"].

(** Three PSMs; the first two come from the same spectrum (scan 7). *)
Definition demo_table : DataFrame :=
  mkDF demo_columns
       [demo_row "a" 1 7 5; demo_row "b" (-1) 7 9; demo_row "c" 1 8 3].

Definition demo_ds : PsmDataset :=
  mkPsm (mkDF canonical_columns (df_rows demo_table)).

(** Two PSMs of one spectrum: a target scoring below a decoy. *)
Definition pair_table : DataFrame :=
  mkDF demo_columns [demo_row "a" 1 7 5; demo_row "b" (-1) 7 9].

Definition pair_ds : PsmDataset :=
  mkPsm (mkDF canonical_columns (df_rows pair_table)).

Definition fdr_1pct : Q := (1 # 100)%Q.

Definition demo_feats : DataFrame :=
  mkDF ["score"] (map (slice 3 4) (df_rows demo_table)).

Definition demo_lab : list Cell := column_at 1 (data demo_ds).

Definition demo_target01 : list Q :=
  match to_target demo_lab with inr t => t | inl _ => [] end.

Definition pair_feats : DataFrame :=
  mkDF ["score"] (map (slice 3 4) (df_rows pair_table)).

Definition pair_lab : list Cell := column_at 1 (data pair_ds).

Definition pair_target01 : list Q :=
  match to_target pair_lab with inr t => t | inl _ => [] end.

(** Four PSMs with two feature columns; [f2] ranks two targets above the
    decoy. *)
Definition wide_ds : PsmDataset :=
  mkPsm (mkDF ["SpecId"; "label"; "scannr"; "f1"; "f2"; "peptide"; "proteins"]
           [[Str "a"; Num 1; Num 1; Num 5; Num 9; Str "PEPA"; Str "P1"];
            [Str "b"; Num (-1 # 1); Num 2; Num 9; Num 5; Str "PEPB"; Str "P2"];
            [Str "c"; Num 1; Num 3; Num 3; Num 8; Str "PEPC"; Str "P3"];
            [Str "d"; Num 1; Num 4; Num 1; Num 1; Str "PEPD"; Str "P4"]]).

Definition wide_feats : DataFrame :=
  match features wide_ds with inr f => f | inl _ => mkDF [] [] end.

Definition wide_lab : list Cell := column_at 1 (data wide_ds).

Definition wide_target01 : list Q :=
  match to_target wide_lab with inr t => t | inl _ => [] end.

(** The behaviour the specification asks for when no feature column has a
    passing target: the selection raises. *)
Definition raises_without_direction
    (tdc : list Cell -> list Q -> result (list Q)) : Prop :=
  forall ds fdr feats lab target01 qvals,
    features ds = inr feats ->
    label ds = inr lab ->
    to_target lab = inr target01 ->
    apply_tdc tdc feats target01 = inr qvals ->
    (forall nq, In nq qvals -> passing_targets lab (snd nq) fdr = 0) ->
    exists e, find_best_feature tdc ds fdr = inl e.

(** The spectrum id of a row: its cell in the column [scannr]. *)
Definition scannr_of (d : DataFrame) (r : Row) : option Cell :=
  match list_index "scannr" (df_columns d) with
  | Some j => nth_error r j
  | None => None
  end.

(** How many more train sets the generator can yield, and how many more
    models the iterator can. *)
Definition gen_capacity (g : GenState) : nat :=
  match g with
  | GenStart _ test_idx => length (zip_star test_idx)
  | GenLoop _ _ _ pending => length pending
  | GenDone => 0
  end.

Definition capacity {ModelState} (it : ModelsIter ModelState) : nat :=
  match it with
  | LazyMap gen copies _ => Nat.min (gen_capacity gen) (length copies)
  | PoolResults results => length results
  end.

(** The store [w'] has all the objects of [w], the first [n0] of them
    unchanged. *)
Definition keeps {ModelState} (n0 : nat) (w w' : World ModelState) : Prop :=
  length (heap w) <= length (heap w') /\
  firstn n0 (heap w') = firstn n0 (heap w).

(** [m], run in a store of at least [n0] objects, keeps the first [n0]
    and returns a value that satisfies [Q]. *)
Definition frames {ModelState A} (n0 : nat) (m : M (World ModelState) A)
    (Q : A -> Prop) : Prop :=
  forall w, n0 <= length (heap w) ->
            keeps n0 w (snd (m w)) /\ forall a, fst (m w) = inr a -> Q a.

(** The objects a generator or an iterator writes to were made during the
    run. *)
Definition gen_ok (n0 : nat) (g : GenState) : Prop :=
  match g with
  | GenLoop train_set _ _ _ => n0 <= train_set
  | _ => True
  end.

Definition iter_ok {ModelState} (n0 : nat) (it : ModelsIter ModelState)
  : Prop :=
  match it with
  | LazyMap gen copies _ => gen_ok n0 gen /\ Forall (fun m => n0 <= m) copies
  | PoolResults _ => True
  end.

(** Each worker sees the table that was bound when its job was submitted. *)
Definition pool_view_own (i : nat) (tables : list DataFrame)
  : option DataFrame := nth_error tables i.

(** Each worker sees the table bound last. *)
Definition pool_view_last (i : nat) (tables : list DataFrame)
  : option DataFrame :=
  match rev tables with
  | [] => None
  | t :: _ => Some t
  end.

(** A store with the two collections [demo_ds] (at 0) and [pair_ds] (at
    1), and a model template (at 2). *)
Definition toy_world : World nat :=
  mkWorld [PsmObj (Some (data demo_ds)); PsmObj (Some (data pair_ds));
           ModelObj 0] rng0.

Definition toy_brew (view : nat -> list DataFrame -> option DataFrame)
    (psms : PsmsArg) (model : option loc) (folds max_workers : nat)
  : M (World nat) (BrewResult (list Q)) :=
  brew 0 split_spec toy_fit toy_predict toy_calibrate toy_confidence view
       psms model fdr_1pct fdr_1pct 10 None folds max_workers.

(** The collections [psms] hold the tables [ds] in the store [w]. *)
Definition holds_tables {ModelState} (w : World ModelState)
    (psms : list loc) (ds : list DataFrame) : Prop :=
  Forall2 (fun p d => nth_error (heap w) p = Some (PsmObj (Some d))) psms ds.

(** The rows of the tables [ds] at the positions that are not among the
    test indices [idx] of the table, one table after the other. *)
Definition rows_outside (idx : list (list nat)) (ds : list DataFrame)
  : list Row :=
  concat (map (fun id : list nat * DataFrame =>
                 rows_at (df_rows (snd id))
                         (set_diff (seq 0 (nrows (snd id))) (fst id)))
              (combine idx ds)).

(** The generator [g] runs over collections that hold the tables [ds];
    once started, the object it rebinds is none of them and it has the
    row positions of every table. *)
Definition gen_over {ModelState} (w : World ModelState)
    (ds : list DataFrame) (g : GenState) : Prop :=
  match g with
  | GenStart psms _ => holds_tables w psms ds
  | GenLoop train_set psms all_idx _ =>
      holds_tables w psms ds /\ ~ In train_set psms /\
      train_set < length (heap w) /\
      all_idx = map (fun d => seq 0 (nrows d)) ds
  | GenDone => True
  end.

(** The tuples of test indices the generator has still to go through. *)
Definition gen_pending (g : GenState) : list (list (list nat)) :=
  match g with
  | GenStart _ test_idx => zip_star test_idx
  | GenLoop _ _ _ pending => pending
  | GenDone => []
  end.

(** ["\t".join(fields)] *)
Fixpoint join_tab (fields : list string) : string :=
  match fields with
  | [] => EmptyString
  | [f] => f
  | f :: rest => (f ++ String "009"%char (join_tab rest))%string
  end.

Fixpoint has_char (c : ascii) (s : string) : bool :=
  match s with
  | EmptyString => false
  | String c' t => Ascii.eqb c' c || has_char c t
  end.

Definition tab : string := String "009"%char EmptyString.
Definition newline : string := String "010"%char EmptyString.

(** A pin file of a header with three columns and two PSMs; the first
    PSM has two proteins, the second has none. *)
Definition pin_lines : list string :=
  [("SpecId" ++ tab ++ "Label" ++ tab ++ "Proteins" ++ newline)%string;
   ("a" ++ tab ++ "1" ++ tab ++ "P1" ++ tab ++ "P2" ++ newline)%string;
   ("b" ++ tab ++ "-1")%string].

Definition pin_files (name : string) : result (list string) :=
  if String.eqb name "toy.pin" then ok pin_lines
  else if String.eqb name "toy.pin.gz" then ok pin_lines
  else raise (OtherError "No such file or directory").

(** Every required name stands at the first position that matches it up
    to case. *)
Definition canonical_cols (cols : list string) : Prop :=
  forall c, In c required_cols ->
            exists i, list_index c (map lower cols) = Some i /\
                      nth_error cols i = Some c.

(** Four PSMs with two feature columns that hold the same values. *)
Definition tie_ds : PsmDataset :=
  mkPsm (mkDF ["SpecId"; "label"; "scannr"; "f1"; "f2"; "peptide"; "proteins"]
           [[Str "a"; Num 1; Num 1; Num 9; Num 9; Str "PEPA"; Str "P1"];
            [Str "b"; Num (-1 # 1); Num 2; Num 5; Num 5; Str "PEPB"; Str "P2"];
            [Str "c"; Num 1; Num 3; Num 8; Num 8; Str "PEPC"; Str "P3"];
            [Str "d"; Num 1; Num 4; Num 1; Num 1; Str "PEPD"; Str "P4"]]).

Definition tie_feats : DataFrame :=
  match features tie_ds with inr f => f | inl _ => mkDF [] [] end.

Definition tie_lab : list Cell := column_at 1 (data tie_ds).

Definition tie_target01 : list Q :=
  match to_target tie_lab with inr t => t | inl _ => [] end.

(** A collection whose [peptide] column comes right after [scannr]. *)
Definition bare_ds : PsmDataset :=
  mkPsm (mkDF ["SpecId"; "label"; "scannr"; "peptide"; "proteins"]
           [[Str "a"; Num 1; Num 1; Str "PEPA"; Str "P1"];
            [Str "b"; Num (-1 # 1); Num 2; Str "PEPB"; Str "P2"]]).





(** [s] is what [_predict] computes for a fold of the table [d] with a
    model in state [st]: the calibrated scores that the model predicts for
    the rows at the positions [fold]. *)
Definition fold_scores {ModelState}
    (predict : ModelState -> DataFrame -> result (list Q))
    (_calibrate_scores : DataFrame -> list Q -> Q -> result (list Q))
    (d : DataFrame) (test_fdr : Q) (fold : list nat) (st : ModelState)
    (s : list Q) : Prop :=
  exists sub raw,
    iloc_rows fold d = inr sub /\
    predict st sub = inr raw /\
    _calibrate_scores sub raw test_fdr = inr s.

(** The states of the model objects of a store, in the order in which
    the objects were made. *)
Definition model_states {ModelState} (w : World ModelState)
  : list ModelState :=
  flat_map (fun o => match o with
                     | ModelObj st => [st]
                     | PsmObj _ => []
                     end) (heap w).

(** The collections a generator runs over, and the object it rebinds
    once it has started. *)
Definition gen_psms (g : GenState) : list loc :=
  match g with
  | GenStart psms _ => psms
  | GenLoop _ psms _ _ => psms
  | GenDone => []
  end.

Definition gen_train_set (g : GenState) : option loc :=
  match g with
  | GenLoop train_set _ _ _ => Some train_set
  | _ => None
  end.

(** [st] is the state that [fit] makes of the state [st0] on a table that
    has the columns of [d] and the rows of [d] outside the fold. *)
Definition fitted_outside {ModelState}
    (fit : ModelState -> option DataFrame -> Q -> nat -> option string ->
           result ModelState)
    (train_fdr : Q) (max_iter : nat) (direction : option string)
    (d : DataFrame) (st0 : ModelState) (fold : list nat) (st : ModelState)
  : Prop :=
  exists tr,
    df_columns tr = df_columns d /\
    Permutation (df_rows tr) (rows_outside [fold] [d]) /\
    fit st0 (Some tr) train_fdr max_iter direction = inr st.

(** The state of the model that [brew] copies for every fold: the
    caller's model, or [Model()]. *)
Definition template_state {ModelState} (default_model : ModelState)
    (w : World ModelState) (model : option loc) (st0 : ModelState) : Prop :=
  match model with
  | None => st0 = default_model
  | Some m => nth_error (heap w) m = Some (ModelObj st0)
  end.

(** * Properties *)

(** ** Runs in the state-and-error monad *)

Lemma bind_inr {S A B} (m : M S A) (k : A -> M S B) (s s' : S) (b : B) :
  bind m k s = (inr b, s') ->
  exists a s1, m s = (inr a, s1) /\ k a s1 = (inr b, s').
Proof.
  unfold bind. destruct (m s) as [[e|a] s1]; intros H;
    [discriminate | eauto].
Qed.

Lemma ret_inr {S A} (a b : A) (s s' : S) :
  ret a s = (inr b, s') -> a = b /\ s = s'.
Proof. unfold ret. intros H. inversion H. auto. Qed.

Lemma lift_inr {S A} (r : result A) (b : A) (s s' : S) :
  lift r s = (inr b, s') -> r = inr b /\ s = s'.
Proof. unfold lift. intros H. inversion H. auto. Qed.

Ltac inv_bind H :=
  let a := fresh "a" in
  let s := fresh "w" in
  let H1 := fresh "H" in
  apply bind_inr in H; destruct H as (a & s & H1 & H).

Ltac inv_bind_as H a s H1 :=
  apply bind_inr in H; destruct H as (a & s & H1 & H).


(** ** The shuffle *)

Lemma extract_perm {A} (i : nat) (l : list A) x r :
  extract i l = Some (x, r) -> Permutation l (x :: r).
Proof.
  revert i x r; induction l as [|a l IH]; intros i x r H; simpl in H.
  - discriminate.
  - destruct i as [|j].
    + inversion H; subst. apply Permutation_refl.
    + destruct (extract j l) as [[y t']|] eqn:E; [|discriminate].
      inversion H; subst.
      apply IH in E.
      eapply perm_trans; [apply perm_skip, E | apply perm_swap].
Qed.

Lemma extract_some {A} (i : nat) (l : list A) :
  i < length l -> exists x r, extract i l = Some (x, r).
Proof.
  revert i; induction l as [|a l IH]; intros i H; simpl in *.
  - lia.
  - destruct i as [|j].
    + eauto.
    + destruct (IH j) as (x & r & E); [lia|].
      rewrite E. eauto.
Qed.

Lemma shuffle_perm {A} (fuel : nat) (l : list A) (g : Rng) :
  length l = fuel ->
  exists out g',
    shuffle fuel l g = (inr out, g') /\ Permutation out l /\
    draws g' = draws g /\ pos g' = pos g + fuel.
Proof.
  revert l g; induction fuel as [|f IH]; intros l g Hlen; simpl.
  - destruct l; [|discriminate].
    exists [], g. repeat split; auto.
  - destruct (@extract_some A (draws g (pos g) mod length l) l)
      as (x & r & E).
    { apply Nat.mod_upper_bound. lia. }
    rewrite E.
    assert (Hr : length r = f).
    { apply extract_perm in E. apply Permutation_length in E.
      simpl in E. lia. }
    destruct (IH r (mkRng (draws g) (S (pos g))) Hr)
      as (out & g' & Hs & Hp & Hd & Hpos).
    rewrite Hs. exists (x :: out), g'. repeat split.
    + eapply perm_trans; [apply perm_skip, Hp|].
      apply Permutation_sym, (extract_perm _ _ _ _ E).
    + exact Hd.
    + rewrite Hpos. simpl. lia.
Qed.

Lemma sample_all_spec (df : DataFrame) (g : Rng) :
  exists rows g',
    sample_all df g = (inr (mkDF (df_columns df) rows), g') /\
    Permutation rows (df_rows df).
Proof.
  destruct (shuffle_perm (nrows df) (df_rows df) g eq_refl)
    as (out & g' & Hs & Hp & _).
  exists out, g'. split; [|exact Hp].
  unfold sample_all, bind. rewrite Hs. reflexivity.
Qed.

(** ** Construction: the required columns *)

Lemma mem_str_In (x : string) (l : list string) :
  mem_str x l = true <-> In x l.
Proof.
  unfold mem_str. rewrite existsb_exists. split.
  - intros (y & Hy & E). apply String.eqb_eq in E. now subst.
  - intros H. exists x. split; [exact H | apply String.eqb_refl].
Qed.

Lemma list_index_Some (x : string) (l : list string) :
  In x l -> exists i, list_index x l = Some i.
Proof.
  induction l as [|y l IH]; simpl; intros H; [contradiction|].
  destruct (String.eqb x y) eqn:E; [eauto|].
  destruct H as [H|H].
  - subst. rewrite String.eqb_refl in E. discriminate.
  - destruct (IH H) as (i & ->). eauto.
Qed.

Lemma list_index_nth (x : string) (l : list string) (i : nat) :
  list_index x l = Some i -> nth_error l i = Some x.
Proof.
  revert i; induction l as [|y l IH]; simpl; intros i H; [discriminate|].
  destruct (String.eqb x y) eqn:E.
  - inversion H; subst. apply String.eqb_eq in E. now subst.
  - destruct (list_index x l) as [j|]; [|discriminate].
    inversion H; subst. simpl. now apply IH.
Qed.

Lemma set_nth_length {A} (l : list A) (i : nat) (v : A) :
  length (set_nth l i v) = length l.
Proof.
  revert i; induction l as [|x l IH]; intros [|i]; simpl; auto.
Qed.

Lemma set_nth_same {A} (l : list A) (i : nat) (v : A) :
  i < length l -> nth_error (set_nth l i v) i = Some v.
Proof.
  revert i; induction l as [|x l IH]; intros [|i]; simpl; intros H;
    try lia; auto.
  apply IH. lia.
Qed.

Lemma set_nth_other {A} (l : list A) (i j : nat) (v : A) :
  i <> j -> nth_error (set_nth l i v) j = nth_error l j.
Proof.
  revert i j; induction l as [|x l IH]; intros [|i] [|j]; simpl; intros H;
    auto; try congruence.
Qed.

Lemma set_nth_map {A B} (f : A -> B) (l : list A) (i : nat) (v : A) :
  map f (set_nth l i v) = set_nth (map f l) i (f v).
Proof.
  revert i; induction l as [|x l IH]; intros [|i]; simpl; auto.
  now rewrite IH.
Qed.

Lemma set_nth_id {A} (l : list A) (i : nat) (v : A) :
  nth_error l i = Some v -> set_nth l i v = l.
Proof.
  revert i; induction l as [|x l IH]; intros [|i]; simpl; intros H;
    try discriminate.
  - now inversion H.
  - now rewrite IH.
Qed.

Lemma lower_required (c : string) : In c required_cols -> lower c = c.
Proof.
  unfold required_cols; simpl.
  intros [<-|[<-|[<-|[<-|[]]]]]; reflexivity.
Qed.

(** The renaming loop, for any list of lower-case names that all occur in
    [cols]. *)
Lemma rename_required_spec (cols names : list string) :
  (forall c, In c names -> lower c = c /\ In c cols) ->
  forall acc, map lower acc = cols ->
  exists out,
    rename_required cols names acc = inr out /\
    map lower out = cols /\
    (forall c, In c names ->
       exists i, list_index c cols = Some i /\ nth_error out i = Some c) /\
    (forall i, (forall c, In c names -> list_index c cols <> Some i) ->
               nth_error out i = nth_error acc i).
Proof.
  induction names as [|c names IH]; intros Hn acc Hacc; simpl.
  - exists acc. repeat split; auto. intros c [].
  - destruct (Hn c (or_introl eq_refl)) as (Hlow & Hin).
    destruct (list_index_Some c cols Hin) as (i & Hi). rewrite Hi.
    assert (Hci : nth_error cols i = Some c) by now apply list_index_nth.
    assert (Hlt : i < length acc).
    { rewrite <- (length_map lower), Hacc.
      apply nth_error_Some. congruence. }
    destruct (IH (fun c' H' => Hn c' (or_intror H')) (set_nth acc i c))
      as (out & Hr & Hmap & Hset & Hfix).
    { rewrite set_nth_map, Hacc, Hlow. now apply set_nth_id. }
    exists out. split; [exact Hr|]. split; [exact Hmap|]. split.
    + intros c' [<-|Hc'].
      * exists i. split; [exact Hi|].
        destruct (in_dec string_dec c names) as [Hd|Hd].
        -- destruct (Hset c Hd) as (i' & Hi' & Hout). congruence.
        -- rewrite Hfix.
           ++ now apply set_nth_same.
           ++ intros c' Hc' E.
              apply list_index_nth in E. rewrite Hci in E.
              inversion E; subst. contradiction.
      * now apply Hset.
    + intros j Hj. rewrite Hfix.
      * apply set_nth_other. intros ->. now apply (Hj c (or_introl eq_refl)).
      * intros c' Hc'. apply Hj. now right.
Qed.

Lemma has_required_check (d : DataFrame) :
  forallb (fun c => mem_str c (columns d)) required_cols = true <->
  has_required d.
Proof.
  rewrite forallb_forall. unfold has_required, columns. split.
  - intros H c Hc. specialize (H c Hc). apply mem_str_In in H.
    apply in_map_iff in H. destruct H as (n & E & Hn). eauto.
  - intros H c Hc. apply mem_str_In. apply in_map_iff.
    destruct (H c Hc) as (n & Hn & E). eauto.
Qed.

(** The constructor, step by step: the rows are shuffled, then the schema
    decides. *)
Lemma PsmDataset_init_cases (df : DataFrame) (g : Rng) :
  exists rows g',
    Permutation rows (df_rows df) /\
    ((has_required df /\
      exists names,
        PsmDataset_init df g = (inr (mkPsm (mkDF names rows)), g') /\
        canonical_names (df_columns df) names /\
        map lower names = map lower (df_columns df)) \/
     (~ has_required df /\
      PsmDataset_init df g = (inl (ValueError missing_msg), g'))).
Proof.
  destruct (sample_all_spec df g) as (rows & g' & Hs & Hp).
  exists rows, g'. split; [exact Hp|].
  unfold PsmDataset_init, bind. rewrite Hs.
  destruct (forallb (fun c => mem_str c (columns (mkDF (df_columns df) rows)))
                    required_cols) eqn:E; cbn [negb].
  - assert (Hreq : has_required df).
    { apply has_required_check in E. exact E. }
    left. split; [exact Hreq|].
    destruct (rename_required_spec (map lower (df_columns df)) required_cols)
      with (acc := df_columns df) as (out & Hr & Hmap & Hset & Hfix).
    { intros c Hc. split; [now apply lower_required|].
      destruct (Hreq c Hc) as (n & Hn & <-). now apply in_map. }
    { reflexivity. }
    exists out. unfold columns, lift; cbn [df_columns df_rows]. rewrite Hr.
    split; [reflexivity|]. split; [|exact Hmap].
    split; [|split]; auto.
    rewrite <- (length_map lower out), Hmap. apply length_map.
  - right. split; [|reflexivity].
    intros Hreq. apply (has_required_check (mkDF (df_columns df) rows)) in Hreq.
    congruence.
Qed.

(** C6. Constructing a [PsmDataset] succeeds exactly when the table has,
    up to case, the columns label, scannr, peptide and proteins. When one
    is missing the constructor raises [ValueError] and returns no object;
    when it succeeds, each of the four columns carries its lower-case name
    and the other columns keep theirs. *)
Theorem PsmDataset_init_required_columns (df : DataFrame) (g : Rng) :
  (is_ok (fst (PsmDataset_init df g)) = true <-> has_required df) /\
  (~ has_required df ->
   exists g', PsmDataset_init df g = (inl (ValueError missing_msg), g')) /\
  (has_required df ->
   exists ds g',
     PsmDataset_init df g = (inr ds, g') /\
     canonical_names (df_columns df) (df_columns (data ds))).
Proof.
  destruct (PsmDataset_init_cases df g)
    as (rows & g' & _ & [(Hreq & names & Hi & Hc & _)|(Hn & Hi)]).
  - split; [|split].
    + rewrite Hi. simpl. tauto.
    + intros H. contradiction.
    + intros _. exists (mkPsm (mkDF names rows)), g'. auto.
  - split; [|split].
    + rewrite Hi. simpl. split; [discriminate | contradiction].
    + intros _. eauto.
    + intros H. contradiction.
Qed.

(** ** [np.array_split] *)

Lemma section_sizes_length (n k : nat) :
  k <> 0 -> length (section_sizes n k) = k.
Proof.
  intros Hk. unfold section_sizes.
  rewrite length_app, !repeat_length.
  pose proof (Nat.mod_upper_bound n k Hk). lia.
Qed.

Lemma list_sum_repeat (a m : nat) : list_sum (repeat a m) = m * a.
Proof. induction m as [|m IH]; simpl; [reflexivity | rewrite IH; lia]. Qed.

Lemma section_sizes_sum (n k : nat) :
  k <> 0 -> list_sum (section_sizes n k) = n.
Proof.
  intros Hk. unfold section_sizes.
  rewrite list_sum_app, !list_sum_repeat.
  pose proof (Nat.mod_upper_bound n k Hk) as Hm.
  pose proof (Nat.div_mod_eq n k) as Hd.
  nia.
Qed.

Lemma section_sizes_last (n k : nat) :
  k <> 0 -> exists init, section_sizes n k = init ++ [n / k].
Proof.
  intros Hk. unfold section_sizes.
  pose proof (Nat.mod_upper_bound n k Hk) as Hm.
  destruct (k - n mod k) as [|m] eqn:E; [lia|].
  exists (repeat (S (n / k)) (n mod k) ++ repeat (n / k) m).
  rewrite <- app_assoc. f_equal.
  change [n / k] with (repeat (n / k) 1).
  rewrite <- repeat_app. f_equal. lia.
Qed.

Lemma chunks_by_length {A} (sizes : list nat) (l : list A) :
  length (chunks_by sizes l) = length sizes.
Proof.
  revert l; induction sizes as [|s t IH]; intros l; simpl; auto.
Qed.

Lemma chunks_by_concat {A} (sizes : list nat) (l : list A) :
  list_sum sizes = length l -> concat (chunks_by sizes l) = l.
Proof.
  revert l; induction sizes as [|s t IH]; intros l H; simpl in *.
  - destruct l; [reflexivity | discriminate].
  - rewrite IH.
    + apply firstn_skipn.
    + rewrite length_skipn. lia.
Qed.

Lemma chunks_by_sizes {A} (sizes : list nat) (l : list A) :
  list_sum sizes = length l -> map (@length A) (chunks_by sizes l) = sizes.
Proof.
  revert l; induction sizes as [|s t IH]; intros l H; simpl in *; auto.
  rewrite IH.
  - f_equal. apply firstn_length_le. lia.
  - rewrite length_skipn. lia.
Qed.

Lemma chunks_by_map {A B} (f : A -> B) (sizes : list nat) (l : list A) :
  chunks_by sizes (map f l) = map (map f) (chunks_by sizes l).
Proof.
  revert l; induction sizes as [|s t IH]; intros l; simpl; auto.
  now rewrite firstn_map, skipn_map, IH.
Qed.

Lemma rows_at_all (rows : list Row) :
  rows_at rows (seq 0 (length rows)) = rows.
Proof.
  unfold rows_at. induction rows as [|r rows IH]; simpl; [reflexivity|].
  f_equal. rewrite <- seq_shift, map_map. exact IH.
Qed.

Lemma rows_at_concat (rows : list Row) (ixs : list (list nat)) :
  rows_at rows (concat ixs) = concat (map (rows_at rows) ixs).
Proof. unfold rows_at. apply concat_map. Qed.



(** ** [PsmDataset.split] *)

Lemma has_required_columns (a b : DataFrame) :
  df_columns a = df_columns b -> has_required a -> has_required b.
Proof. unfold has_required. intros <-. auto. Qed.

Lemma has_required_lower (a b : DataFrame) :
  map lower (df_columns a) = map lower (df_columns b) ->
  has_required a -> has_required b.
Proof.
  intros E H. apply has_required_check. apply has_required_check in H.
  unfold columns in *. now rewrite <- E.
Qed.

Lemma init_ok (d : DataFrame) (g : Rng) :
  has_required d -> exists p g', PsmDataset_init d g = (inr p, g').
Proof.
  intros H.
  destruct (PsmDataset_init_cases d g)
    as (rows & g' & _ & [(_ & names & Hi & _)|(Hn & _)]);
    [eauto | contradiction].
Qed.

Lemma built_by_init_spec (d : DataFrame) (p : PsmDataset) :
  built_by_init d p ->
  Permutation (df_rows (data p)) (df_rows d) /\
  canonical_names (df_columns d) (df_columns (data p)) /\
  map lower (df_columns (data p)) = map lower (df_columns d) /\
  has_required d.
Proof.
  intros (g & g' & H).
  destruct (PsmDataset_init_cases d g)
    as (rows & g1 & Hp & [(Hr & names & Hi & Hc & Hl)|(Hn & Hi)]);
    rewrite Hi in H; inversion H; subst; simpl; auto.
Qed.

Lemma pd_concat_same (cols : list string) (l : list DataFrame) :
  Forall (fun s => df_columns s = cols) l -> l <> [] ->
  pd_concat l = inr (mkDF cols (concat (map df_rows l))).
Proof.
  intros Hf Hne. destruct l as [|f l]; [congruence|].
  inversion Hf; subst. reflexivity.
Qed.

Lemma split_loop_spec (cols : list string) (splits : list DataFrame) :
  Forall (fun s => df_columns s = cols) splits ->
  has_required (mkDF cols []) ->
  2 <= length splits ->
  forall todo idx g,
    skipn idx splits = todo ->
    exists train test g',
      split_loop splits idx todo g = (inr (train, test), g') /\
      Forall2 built_by_init todo test /\
      Forall2 (fun i tr => built_by_init (mkDF cols (train_rows splits i)) tr)
              (seq idx (length todo)) train.
Proof.
  intros Hcols Hreq H2.
  induction todo as [|t rest IH]; intros idx g Hskip;
    cbn [split_loop length seq].
  - exists [], [], g. repeat split; constructor.
  - assert (Hidx : idx < length splits).
    { apply (f_equal (@length _)) in Hskip. rewrite length_skipn in Hskip.
      simpl in Hskip. lia. }
    assert (Hrest : skipn (S idx) splits = rest).
    { replace (S idx) with (1 + idx) by lia.
      rewrite <- skipn_skipn, Hskip. reflexivity. }
    assert (Ht : In t splits).
    { rewrite <- (firstn_skipn idx splits), Hskip.
      apply in_or_app. right. now left. }
    assert (Hothers :
              Forall (fun s => df_columns s = cols)
                     (firstn idx splits ++ skipn (S idx) splits)).
    { apply Forall_app. split.
      - apply Forall_forall. intros s Hs.
        eapply Forall_forall in Hcols; [exact Hcols|].
        rewrite <- (firstn_skipn idx splits). apply in_or_app. now left.
      - apply Forall_forall. intros s Hs.
        eapply Forall_forall in Hcols; [exact Hcols|].
        rewrite <- (firstn_skipn (S idx) splits). apply in_or_app.
        now right. }
    assert (Hne : firstn idx splits ++ skipn (S idx) splits <> []).
    { intros E. apply (f_equal (@length _)) in E.
      rewrite length_app, length_firstn, length_skipn in E. simpl in E.
      lia. }
    unfold bind at 1. unfold lift.
    rewrite (pd_concat_same cols _ Hothers Hne).
    fold (train_rows splits idx).
    destruct (init_ok (mkDF cols (train_rows splits idx)) g)
      as (tr & g1 & Htr).
    { eapply has_required_columns; [|exact Hreq]. reflexivity. }
    unfold bind at 1. rewrite Htr.
    destruct (init_ok t g1) as (te & g2 & Hte).
    { eapply has_required_columns; [|exact Hreq]. simpl.
      eapply Forall_forall in Hcols; [|exact Ht]. now rewrite Hcols. }
    unfold bind at 1. rewrite Hte.
    destruct (IH (S idx) g2 Hrest) as (train & test & g3 & Hl & Hte' & Htr').
    unfold bind at 1. rewrite Hl. cbn [ret fst snd].
    exists (tr :: train), (te :: test), g3.
    split; [reflexivity|]. split.
    + constructor; [|exact Hte']. now exists g1, g2.
    + constructor; [|exact Htr']. now exists g, g1.
Qed.

Lemma map_eq_snoc {A B} (f : A -> B) (l : list A) (a : list B) (b : B) :
  map f l = a ++ [b] ->
  exists l' x, l = l' ++ [x] /\ map f l' = a /\ f x = b.
Proof.
  intros H. apply map_eq_app in H. destruct H as (l1 & l2 & -> & H1 & H2).
  destruct l2 as [|x [|y l2]]; simpl in H2; try discriminate.
  inversion H2; subst. eauto.
Qed.

(** The chunks [np.array_split] makes of a table: [k] consecutive
    segments of the rows, the last one of [n / k] rows. *)
Lemma array_split_spec (df : DataFrame) (k : nat) :
  k <> 0 ->
  let idx := chunks_by (section_sizes (nrows df) k) (seq 0 (nrows df)) in
  exists init lst,
    array_split df k = inr (init ++ [lst]) /\
    init ++ [lst] =
      map (fun ix => mkDF (df_columns df) (rows_at (df_rows df) ix)) idx /\
    length idx = k /\
    concat idx = seq 0 (nrows df) /\
    nrows lst = nrows df / k.
Proof.
  intros Hk idx. unfold array_split.
  destruct (k =? 0) eqn:E; [apply Nat.eqb_eq in E; contradiction|].
  assert (Hsum : list_sum (section_sizes (nrows df) k) = length (df_rows df))
    by now apply section_sizes_sum.
  assert (Hchunks :
            chunks_by (section_sizes (nrows df) k) (df_rows df) =
            map (rows_at (df_rows df)) idx).
  { unfold idx, rows_at. rewrite <- chunks_by_map.
    fold (rows_at (df_rows df) (seq 0 (nrows df))).
    unfold nrows at 2. now rewrite rows_at_all. }
  destruct (section_sizes_last (nrows df) k Hk) as (sinit & Hs).
  pose proof (chunks_by_sizes _ (df_rows df) Hsum) as Hlen.
  pose proof (eq_trans Hlen Hs) as Hl. clear Hlen Hs.
  rename Hl into Hlen. apply map_eq_snoc in Hlen.
  destruct Hlen as (cinit & clast & Hc & _ & Hcl).
  exists (map (mkDF (df_columns df)) cinit), (mkDF (df_columns df) clast).
  repeat split.
  - rewrite Hc, map_app. reflexivity.
  - rewrite <- (map_map (rows_at (df_rows df)) (mkDF (df_columns df))).
    rewrite <- Hchunks, Hc, map_app. reflexivity.
  - unfold idx. rewrite chunks_by_length. now apply section_sizes_length.
  - unfold idx. apply chunks_by_concat.
    rewrite length_seq. now apply section_sizes_sum.
  - exact Hcl.
Qed.

(** The merge of lines 95-97 on any list of chunks: a last chunk shorter
    than [num] is appended to the one before it, and there is one chunk
    less. *)
Lemma merge_tail_short (num : nat) (init : list DataFrame)
    (prev lst : DataFrame) :
  nrows lst < num ->
  merge_tail num (init ++ [prev; lst]) =
    inr (init ++ [mkDF (df_columns prev) (df_rows prev ++ df_rows lst)]) /\
  length (init ++ [mkDF (df_columns prev) (df_rows prev ++ df_rows lst)]) =
    length (init ++ [prev; lst]) - 1.
Proof.
  intros H. split.
  - unfold merge_tail. rewrite rev_app_distr. simpl.
    apply Nat.ltb_lt in H. rewrite H. simpl.
    now rewrite rev_involutive, app_nil_r.
  - rewrite !length_app. simpl. lia.
Qed.

Lemma merge_tail_full (num : nat) (init : list DataFrame) (lst : DataFrame) :
  num <= nrows lst -> merge_tail num (init ++ [lst]) = inr (init ++ [lst]).
Proof.
  intros H. unfold merge_tail. rewrite rev_app_distr. simpl.
  apply Nat.ltb_ge in H. now rewrite H.
Qed.

Lemma built_label (df : DataFrame) (ds : PsmDataset) :
  built_by_init df ds ->
  exists j, label ds = inr (column_at j (data ds)).
Proof.
  intros H. apply built_by_init_spec in H.
  destruct H as (_ & (_ & Hc & _) & _ & _).
  destruct (Hc "label") as (i & _ & Hi); [now left|].
  apply nth_error_In in Hi.
  destruct (list_index_Some _ _ Hi) as (j & Hj).
  exists j. unfold label. now rewrite Hj.
Qed.


(** A run of [split] on a constructed collection, for [k >= 2]: the
    chunks are those of [np.array_split], the merge leaves them as they
    are, and every chunk and every concatenation of the other chunks goes
    through the constructor. *)
Lemma split_run (df : DataFrame) (ds : PsmDataset) (k : nat) (g : Rng) :
  built_by_init df ds ->
  2 <= k ->
  let n := nrows (data ds) in
  let idx := chunks_by (section_sizes n k) (seq 0 n) in
  exists init lst train test g',
    array_split (data ds) k = inr (init ++ [lst]) /\
    merge_tail (n / k) (init ++ [lst]) = inr (init ++ [lst]) /\
    nrows lst = n / k /\
    split ds k g = (inr (train, test), g') /\
    init ++ [lst] =
      map (fun ix => mkDF (df_columns (data ds))
                          (rows_at (df_rows (data ds)) ix)) idx /\
    length idx = k /\
    concat idx = seq 0 n /\
    Forall2 built_by_init (init ++ [lst]) test /\
    Forall2 (fun i tr =>
               built_by_init
                 (mkDF (df_columns (data ds)) (train_rows (init ++ [lst]) i))
                 tr)
            (seq 0 k) train.
Proof.
  intros Hb Hk n idx.
  assert (Hk0 : k <> 0) by lia.
  destruct (array_split_spec (data ds) k Hk0)
    as (init & lst & Hsplit & Hidx & Hlen & Hcat & Hlast).
  fold n in Hidx, Hlen, Hcat, Hlast. fold idx in Hidx, Hlen, Hcat.
  set (cols := df_columns (data ds)) in *.
  assert (Hreq : has_required (mkDF cols [])).
  { destruct (built_by_init_spec _ _ Hb) as (_ & _ & Hl & Hr).
    eapply has_required_lower; [|exact Hr]. symmetry. exact Hl. }
  assert (Hcols : Forall (fun s => df_columns s = cols) (init ++ [lst])).
  { rewrite Hidx. apply Forall_forall. intros s Hs.
    apply in_map_iff in Hs. destruct Hs as (ix & <- & _). reflexivity. }
  assert (Hlen2 : length (init ++ [lst]) = k).
  { rewrite Hidx, length_map. exact Hlen. }
  destruct (split_loop_spec cols (init ++ [lst]) Hcols Hreq
              ltac:(rewrite Hlen2; exact Hk) (init ++ [lst]) 0 g eq_refl)
    as (train & test & g' & Hloop & Hte & Htr).
  rewrite Hlen2 in Htr.
  assert (Hmerge : merge_tail (n / k) (init ++ [lst]) = inr (init ++ [lst])).
  { apply merge_tail_full. lia. }
  exists init, lst, train, test, g'.
  repeat split; auto.
  destruct (built_label _ _ Hb) as (j & Hj).
  unfold split, bind, lift. rewrite Hj.
  destruct (k =? 0) eqn:E; [apply Nat.eqb_eq in E; lia|].
  rewrite Hsplit.
  replace (length (column_at j (data ds))) with n
    by (unfold column_at; now rewrite length_map).
  rewrite Hmerge. exact Hloop.
Qed.

(** The bound of the merge is [n / k], and the last chunk of
    [np.array_split] has exactly [n / k] rows: [split] returns [k] train
    and [k] test partitions. *)
Lemma split_fold_count (df : DataFrame) (ds : PsmDataset) (k : nat)
    (g : Rng) :
  built_by_init df ds ->
  2 <= k ->
  exists train test g',
    split ds k g = (inr (train, test), g') /\
    length train = k /\ length test = k.
Proof.
  intros Hb Hk.
  destruct (split_run df ds k g Hb Hk)
    as (init & lst & train & test & g' & _ & _ & _ & Hrun & Hidx & Hlen &
        _ & Hte & Htr).
  exists train, test, g'. split; [exact Hrun|].
  apply Forall2_length in Hte. apply Forall2_length in Htr.
  rewrite length_seq in Htr. rewrite Hidx, length_map, Hlen in Hte.
  split; congruence.
Qed.

Example merge_tail_short_chunk :
  merge_tail 2 [mkDF ["x"] [[Num 1]; [Num 2]];
                mkDF ["x"] [[Num 3]; [Num 4]];
                mkDF ["x"] [[Num 5]]] =
  inr [mkDF ["x"] [[Num 1]; [Num 2]];
       mkDF ["x"] [[Num 3]; [Num 4]; [Num 5]]].
Proof. reflexivity. Qed.


(** ** [find_best_feature] *)

Lemma count_le_mask (lab : list Cell) (q : list Q) (fdr : Q) :
  count_le fdr (boolean_mask (map is_target lab) q) =
  passing_targets lab q fdr.
Proof.
  unfold count_le, boolean_mask, passing_targets.
  revert q; induction lab as [|l lab IH]; intros [|v q]; simpl; auto.
  destruct (is_target l); simpl.
  - destruct (Qle_bool v fdr); simpl; now rewrite IH.
  - apply IH.
Qed.

Lemma demoted_code (lab : list Cell) (q : list Q) (fdr : Q) :
  map (fun ul : bool * Cell => if fst ul then Num 0 else snd ul)
      (combine
         (map (fun qm : Q * bool => negb (Qle_bool (fst qm) fdr) && snd qm)
              (combine q (map is_target lab)))
         lab) =
  demoted lab q fdr.
Proof.
  unfold demoted.
  revert q; induction lab as [|l lab IH]; intros [|v q]; simpl; auto.
  rewrite IH. f_equal. now rewrite andb_comm.
Qed.

Lemma rmap_ok {A B} (f : A -> result B) (l : list A) :
  (forall x, In x l -> exists y, f x = inr y) ->
  exists ys, rmap f l = inr ys /\ Forall2 (fun x y => f x = inr y) l ys.
Proof.
  induction l as [|x l IH]; intros H; simpl.
  - exists []. split; [reflexivity | constructor].
  - destruct (H x (or_introl eq_refl)) as (y & Hy).
    destruct IH as (ys & Hr & Hf); [intros z Hz; apply H; now right|].
    exists (y :: ys). rewrite Hy, Hr. split; [reflexivity|].
    now constructor.
Qed.

Lemma idxmax_spec (l : list (string * nat)) :
  l <> [] ->
  exists pre n c post,
    idxmax l = Some (n, c) /\ l = pre ++ (n, c) :: post /\
    (forall x, In x pre -> snd x < c) /\
    (forall x, In x post -> snd x <= c).
Proof.
  induction l as [|[n c] t IH]; intros Hne; [congruence|]. simpl.
  destruct t as [|y t'].
  - exists [], n, c, []. simpl. repeat split; auto; intros x [].
  - destruct IH as (pre & n' & c' & post & Hi & Hl & Hpre & Hpost);
      [discriminate|].
    rewrite Hi. destruct (c <? c') eqn:E.
    + apply Nat.ltb_lt in E.
      exists ((n, c) :: pre), n', c', post. rewrite Hl. repeat split; auto.
      intros x [<-|Hx]; [exact E | now apply Hpre].
    + apply Nat.ltb_ge in E.
      exists [], n, c, (y :: t'). repeat split; auto; [intros x []|].
      intros x Hx. rewrite Hl in Hx. apply in_app_or in Hx.
      destruct Hx as [Hx|[<-|Hx]].
      * apply Hpre in Hx. lia.
      * exact E.
      * apply Hpost in Hx. lia.
Qed.

Lemma lookup_col_In {A} (name : string) (v : A) (l : list (string * A)) :
  NoDup (map fst l) -> In (name, v) l -> lookup_col name l = Some v.
Proof.
  induction l as [|[n w] l IH]; simpl; intros Hnd Hin; [contradiction|].
  inversion Hnd; subst.
  destruct Hin as [E|Hin].
  - inversion E; subst. now rewrite String.eqb_refl.
  - destruct (String.eqb name n) eqn:E.
    + apply String.eqb_eq in E. subst. exfalso. apply H1.
      apply in_map_iff. exists (n, v). auto.
    + now apply IH.
Qed.

Lemma features_nrows (ds : PsmDataset) (feats : DataFrame) :
  features ds = inr feats -> nrows feats = nrows (data ds).
Proof.
  unfold features, rbind, index_or_raise. intros H.
  repeat match type of H with
         | context [match ?x with _ => _ end] => destruct x; try discriminate
         end;
    inversion H; subst; unfold nrows, iloc_cols; simpl; apply length_map.
Qed.

Lemma label_length (ds : PsmDataset) (lab : list Cell) :
  label ds = inr lab -> length lab = nrows (data ds).
Proof.
  unfold label. destruct (list_index _ _); intros H; inversion H; subst.
  unfold column_at. apply length_map.
Qed.

Lemma map_snd_combine {A B} (a : list A) (b : list B) :
  length a = length b -> map snd (combine a b) = b.
Proof.
  revert b; induction a as [|x a IH]; intros [|y b] H; simpl in *;
    try discriminate; auto.
  f_equal. apply IH. lia.
Qed.

Section BestFeatureProofs.

Variable tdc : list Cell -> list Q -> result (list Q).

(** [tdc] returns one q-value per score. *)
Hypothesis tdc_length :
  forall s t q, tdc s t = inr q -> length q = length s.

Lemma apply_tdc_ok (feats : DataFrame) (target01 : list Q) :
  (forall j, j < length (df_columns feats) ->
             exists q, tdc (column_at j feats) target01 = inr q) ->
  exists qvals,
    apply_tdc tdc feats target01 = inr qvals /\
    map fst qvals = df_columns feats /\
    Forall (fun nq : string * list Q => length (snd nq) = nrows feats) qvals.
Proof.
  intros Hall. unfold apply_tdc.
  set (f := fun jn : nat * string =>
              rbind (tdc (column_at (fst jn) feats) target01)
                    (fun q => ok (snd jn, q))).
  destruct (rmap_ok f
              (combine (seq 0 (length (df_columns feats))) (df_columns feats)))
    as (qvals & Hr & Hf).
  { intros [j n] Hin. apply in_combine_l in Hin. apply in_seq in Hin.
    destruct (Hall j) as (q & Hq); [lia|].
    exists (n, q). unfold f. simpl. now rewrite Hq. }
  exists qvals. split; [exact Hr|].
  assert (Hgen : forall l ys,
             Forall2 (fun x y => f x = inr y) l ys ->
             map fst ys = map snd l /\
             Forall (fun nq : string * list Q => length (snd nq) = nrows feats)
                    ys).
  { induction 1 as [|x y l ys Hxy _ [IH1 IH2]]; simpl.
    - split; [reflexivity | constructor].
    - unfold f, rbind in Hxy.
      destruct (tdc (column_at (fst x) feats) target01) as [e|q] eqn:Hq;
        [discriminate|].
      inversion Hxy; subst. simpl. split; [now rewrite IH1|].
      constructor; [|exact IH2]. simpl.
      rewrite (tdc_length _ _ _ Hq). unfold column_at. apply length_map. }
  destruct (Hgen _ _ Hf) as (H1 & H2). split; [|exact H2].
  rewrite H1. apply map_snd_combine. apply length_seq.
Qed.

(** A run of [find_best_feature] on a collection whose feature columns
    have distinct names, when [tdc] accepts every column: the chosen
    feature is the first one with the largest number of passing targets. *)
Lemma find_best_feature_run (ds : PsmDataset) (fdr : Q)
    (feats : DataFrame) (lab : list Cell) (target01 : list Q) :
  features ds = inr feats ->
  label ds = inr lab ->
  to_target lab = inr target01 ->
  NoDup (df_columns feats) ->
  df_columns feats <> [] ->
  (forall j, j < length (df_columns feats) ->
             exists q, tdc (column_at j feats) target01 = inr q) ->
  exists qvals pre best qbest post,
    apply_tdc tdc feats target01 = inr qvals /\
    map fst qvals = df_columns feats /\
    Forall (fun nq : string * list Q => length (snd nq) = length lab) qvals /\
    qvals = pre ++ (best, qbest) :: post /\
    (forall x, In x pre ->
               passing_targets lab (snd x) fdr <
               passing_targets lab qbest fdr) /\
    (forall x, In x post ->
               passing_targets lab (snd x) fdr <=
               passing_targets lab qbest fdr) /\
    find_best_feature tdc ds fdr =
      inr (best, passing_targets lab qbest fdr, demoted lab qbest fdr).
Proof.
  intros Hfeat Hlab Htarget Hnd Hne Hall.
  destruct (apply_tdc_ok feats target01 Hall) as (qvals & Hq & Hnames & Hlen).
  set (np := map (fun nq : string * list Q =>
                    (fst nq, passing_targets lab (snd nq) fdr)) qvals).
  assert (Hnp :
            map (fun nq : string * list Q => (fst nq, count_le fdr (snd nq)))
                (map (fun nq : string * list Q =>
                        (fst nq, boolean_mask (map is_target lab) (snd nq)))
                     qvals) = np).
  { unfold np. rewrite map_map. apply map_ext. intros [n q]. simpl.
    now rewrite count_le_mask. }
  assert (Hnpne : np <> []).
  { unfold np. intros E. apply map_eq_nil in E. subst qvals.
    simpl in Hnames. congruence. }
  destruct (idxmax_spec np Hnpne)
    as (pre' & best & c & post' & Hi & Hsplit & Hpre & Hpost).
  unfold np in Hsplit. apply map_eq_app in Hsplit.
  destruct Hsplit as (pre & rest & Hqv & Hpre' & Hrest).
  apply map_eq_cons in Hrest.
  destruct Hrest as ([b qbest] & post & -> & Hb & Hpost').
  simpl in Hb. inversion Hb; subst best c. clear Hb.
  assert (Hndq : NoDup (map fst qvals)) by now rewrite Hnames.
  assert (Hndnp : NoDup (map fst np)).
  { unfold np. rewrite map_map. simpl. exact Hndq. }
  exists qvals, pre, b, qbest, post.
  split; [exact Hq|]. split; [exact Hnames|]. split.
  { rewrite (label_length _ _ Hlab), <- (features_nrows _ _ Hfeat).
    exact Hlen. }
  split; [exact Hqv|]. split.
  { intros x Hx. subst pre'.
    apply (Hpre (fst x, passing_targets lab (snd x) fdr)).
    apply in_map_iff. exists x. auto. }
  split.
  { intros x Hx. subst post'.
    apply (Hpost (fst x, passing_targets lab (snd x) fdr)).
    apply in_map_iff. exists x. auto. }
  unfold find_best_feature.
  rewrite Hfeat. cbn [rbind]. rewrite Hlab. cbn [rbind].
  rewrite Htarget. cbn [rbind]. rewrite Hq. cbn [rbind].
  rewrite Hnp, Hi.
  rewrite (lookup_col_In b qbest qvals Hndq)
    by (rewrite Hqv; apply in_or_app; right; now left).
  rewrite (lookup_col_In b (passing_targets lab qbest fdr) np Hndnp).
  - unfold ok. now rewrite demoted_code.
  - unfold np. apply in_map_iff. exists (b, qbest). split; [reflexivity|].
    rewrite Hqv. apply in_or_app. right. now left.
Qed.

End BestFeatureProofs.

Lemma rmap_inv {A B} (f : A -> result B) (l : list A) (ys : list B) :
  rmap f l = inr ys -> Forall2 (fun x y => f x = inr y) l ys.
Proof.
  revert ys; induction l as [|x l IH]; intros ys H; simpl in H.
  - inversion H. constructor.
  - unfold rbind in H. destruct (f x) as [e|y] eqn:Hy; [discriminate|].
    destruct (rmap f l) as [e|ys'] eqn:Hr; [discriminate|].
    inversion H; subst. constructor; auto.
Qed.

Lemma Forall2_nth_error_l {A B} (R : A -> B -> Prop) l ys j x :
  Forall2 R l ys -> nth_error l j = Some x ->
  exists y, nth_error ys j = Some y /\ R x y.
Proof.
  intros H; revert j; induction H as [|a b l ys Hab _ IH]; intros [|j] Hj;
    simpl in *; try discriminate.
  - inversion Hj; subst. eauto.
  - now apply IH.
Qed.

Lemma Forall2_nth_error_r {A B} (R : A -> B -> Prop) l ys j y :
  Forall2 R l ys -> nth_error ys j = Some y ->
  exists x, nth_error l j = Some x /\ R x y.
Proof.
  intros H; revert j; induction H as [|a b l ys Hab _ IH]; intros [|j] Hj;
    simpl in *; try discriminate.
  - inversion Hj; subst. eauto.
  - now apply IH.
Qed.

Lemma nth_error_combine_seq {A} (names : list A) (s j : nat) (n : A) :
  nth_error names j = Some n ->
  nth_error (combine (seq s (length names)) names) j = Some (s + j, n).
Proof.
  revert s j; induction names as [|a names IH]; intros s [|j] H;
    simpl in *; try discriminate.
  - inversion H; subst. f_equal. f_equal. lia.
  - rewrite (IH (S s) j H). f_equal. f_equal. lia.
Qed.

Lemma nth_error_combine_inv {A B} (a : list A) (b : list B) j x y :
  nth_error (combine a b) j = Some (x, y) ->
  nth_error a j = Some x /\ nth_error b j = Some y.
Proof.
  revert b j; induction a as [|u a IH]; intros [|v b] [|j] H; simpl in *;
    try discriminate.
  - inversion H; subst. auto.
  - now apply IH.
Qed.

Lemma nth_error_seq_inv (s m j i : nat) :
  nth_error (seq s m) j = Some i -> i = s + j.
Proof.
  revert s j; induction m as [|m IH]; intros s [|j] H; simpl in *;
    try discriminate.
  - inversion H. lia.
  - apply IH in H. lia.
Qed.

(** The q-values [apply] computes, column by column. *)
Lemma apply_tdc_columns
    (tdc : list Cell -> list Q -> result (list Q))
    (feats : DataFrame) (target01 : list Q)
    (qvals : list (string * list Q)) :
  apply_tdc tdc feats target01 = inr qvals ->
  (forall j name, nth_error (df_columns feats) j = Some name ->
     exists q, tdc (column_at j feats) target01 = inr q /\
               nth_error qvals j = Some (name, q)) /\
  (forall name q, In (name, q) qvals ->
     exists j, nth_error (df_columns feats) j = Some name /\
               tdc (column_at j feats) target01 = inr q).
Proof.
  intros H. unfold apply_tdc in H. apply rmap_inv in H. split.
  - intros j name Hj.
    pose proof (nth_error_combine_seq _ 0 _ _ Hj) as Hc.
    destruct (Forall2_nth_error_l _ _ _ _ _ H Hc) as ([n q] & Hq & Hr).
    simpl in Hr. unfold rbind in Hr.
    destruct (tdc (column_at j feats) target01) as [e|q'] eqn:E;
      [discriminate|].
    inversion Hr; subst. eauto.
  - intros name q Hin. apply In_nth_error in Hin. destruct Hin as (j & Hj).
    destruct (Forall2_nth_error_r _ _ _ _ _ H Hj) as ([i n] & Hc & Hr).
    apply nth_error_combine_inv in Hc. destruct Hc as (Hs & Hn).
    apply nth_error_seq_inv in Hs. simpl in Hs. subst i. simpl in Hr. unfold rbind in Hr.
    destruct (tdc (column_at j feats) target01) as [e|q'] eqn:E;
      [discriminate|].
    inversion Hr; subst. eauto.
Qed.

Lemma demoted_nth (lab : list Cell) (q : list Q) (fdr : Q) i l v :
  nth_error lab i = Some l -> nth_error q i = Some v ->
  nth_error (demoted lab q fdr) i =
  Some (if is_target l && negb (Qle_bool v fdr) then Num 0 else l).
Proof.
  unfold demoted.
  revert q i; induction lab as [|a lab IH]; intros [|b q] [|i] Hl Hq;
    simpl in *; try discriminate.
  - inversion Hl; inversion Hq; subst. reflexivity.
  - now apply IH.
Qed.

Lemma demoted_length (lab : list Cell) (q : list Q) (fdr : Q) :
  length q = length lab -> length (demoted lab q fdr) = length lab.
Proof.
  intros H. unfold demoted. rewrite length_map, length_combine. lia.
Qed.

(** *** The model run on small collections *)

Example demo_ds_built : built_by_init demo_table demo_ds.
Proof. exists rng0, (mkRng (fun _ => 0) 3). reflexivity. Qed.

Example pair_ds_built : built_by_init pair_table pair_ds.
Proof. exists rng0, (mkRng (fun _ => 0) 2). reflexivity. Qed.

(** A generator that draws 1 puts the second row first. *)
Example init_reorders :
  fst (PsmDataset_init pair_table rng1) =
  inr (mkPsm (mkDF canonical_columns
                   [demo_row "b" (-1) 7 9; demo_row "a" 1 7 5])).
Proof. reflexivity. Qed.

Example init_missing_proteins :
  fst (PsmDataset_init
         (mkDF ["SpecId"; "Label"; "ScanNr"; "score"; "Peptide"]
               [[Str "a"; Num 1; Num 7; Num 5; Str "PEPTIDEK"]]) rng0) =
  inl (ValueError missing_msg).
Proof. reflexivity. Qed.

Example demo_features : features demo_ds = inr demo_feats.
Proof. reflexivity. Qed.

Example demo_tdc :
  apply_tdc tdc_spec demo_feats demo_target01 =
  inr [("score", [1%Q; 1%Q; 1%Q])].
Proof. vm_compute. reflexivity. Qed.

Example wide_best_feature :
  find_best_feature tdc_spec wide_ds (1 # 2)%Q =
  inr ("f2", 2, [Num 1; Num (-1 # 1); Num 1; Num 0]).
Proof. vm_compute. reflexivity. Qed.

Lemma tdc_spec_length (s : list Cell) (t q : list Q) :
  tdc_spec s t = inr q -> length q = length s.
Proof.
  unfold tdc_spec, rbind. destruct (rmap cell_num s); [discriminate|].
  destruct (negb _); [discriminate|].
  intros H. inversion H. now rewrite length_map, length_seq.
Qed.

Lemma demoted_none_passing (lab : list Cell) (q : list Q) (fdr : Q) :
  passing_targets lab q fdr = 0 ->
  length q = length lab ->
  demoted lab q fdr = map (fun l => if is_target l then Num 0 else l) lab.
Proof.
  unfold passing_targets, demoted.
  revert q; induction lab as [|l lab IH]; intros [|v q] Hp Hl; simpl in *;
    try discriminate; auto.
  destruct (is_target l); simpl in *.
  - destruct (Qle_bool v fdr); simpl in *; [discriminate|].
    f_equal. apply IH; [exact Hp | lia].
  - f_equal. apply IH; [exact Hp | lia].
Qed.

(** C4. On a collection whose feature columns have distinct names and
    are all accepted by [tdc], [find_best_feature] returns a feature
    column whose number of target rows with q-value at most [fdr] is the
    largest among the feature columns, that number, and the label vector
    in which exactly the targets whose q-value at that feature exceeds
    [fdr] are set to 0 and every other entry is the original label. *)
Theorem find_best_feature_argmax
    (tdc : list Cell -> list Q -> result (list Q))
    (tdc_length : forall s t q, tdc s t = inr q -> length q = length s)
    (ds : PsmDataset) (fdr : Q)
    (feats : DataFrame) (lab : list Cell) (target01 : list Q) :
  features ds = inr feats ->
  label ds = inr lab ->
  to_target lab = inr target01 ->
  NoDup (df_columns feats) ->
  df_columns feats <> [] ->
  (forall j, j < length (df_columns feats) ->
             exists q, tdc (column_at j feats) target01 = inr q) ->
  exists jbest best qbest target,
    find_best_feature tdc ds fdr =
      inr (best, passing_targets lab qbest fdr, target) /\
    nth_error (df_columns feats) jbest = Some best /\
    tdc (column_at jbest feats) target01 = inr qbest /\
    (forall j q, j < length (df_columns feats) ->
                 tdc (column_at j feats) target01 = inr q ->
                 passing_targets lab q fdr <= passing_targets lab qbest fdr) /\
    length qbest = length lab /\
    length target = length lab /\
    (forall i l v,
        nth_error lab i = Some l -> nth_error qbest i = Some v ->
        nth_error target i =
        Some (if is_target l && negb (Qle_bool v fdr) then Num 0 else l)).
Proof.
  intros Hfeat Hlab Htarget Hnd Hne Hall.
  destruct (find_best_feature_run tdc tdc_length ds fdr feats lab target01
              Hfeat Hlab Htarget Hnd Hne Hall)
    as (qvals & pre & best & qbest & post & Hq & Hnames & Hlen & Hqv &
        Hpre & Hpost & Hrun).
  destruct (apply_tdc_columns tdc feats target01 qvals Hq) as (Hcol & Hin).
  assert (Hbest : In (best, qbest) qvals).
  { rewrite Hqv. apply in_or_app. right. now left. }
  destruct (Hin best qbest Hbest) as (jbest & Hj & Htdc).
  assert (Hqlen : length qbest = length lab).
  { eapply Forall_forall in Hlen; [|exact Hbest]. exact Hlen. }
  exists jbest, best, qbest, (demoted lab qbest fdr).
  repeat split; auto.
  - intros j q Hjlt Hjq.
    destruct (nth_error (df_columns feats) j) as [name|] eqn:En.
    + destruct (Hcol j name En) as (q' & Hq' & Hnth).
      assert (q' = q) by congruence. subst q'.
      apply nth_error_In in Hnth. rewrite Hqv in Hnth.
      apply in_app_or in Hnth. destruct Hnth as [Hx|[Hx|Hx]].
      * apply Hpre in Hx. simpl in Hx. lia.
      * inversion Hx; subst. lia.
      * apply Hpost in Hx. exact Hx.
    + apply nth_error_None in En. lia.
  - now apply demoted_length.
  - intros i l v Hl Hv. now apply demoted_nth.
Qed.

Lemma find_best_feature_argmax_witness :
  exists jbest best qbest target,
    find_best_feature tdc_spec wide_ds (1 # 2)%Q =
      inr (best, passing_targets wide_lab qbest (1 # 2)%Q, target) /\
    nth_error (df_columns wide_feats) jbest = Some best /\
    tdc_spec (column_at jbest wide_feats) wide_target01 = inr qbest /\
    (forall j q, j < length (df_columns wide_feats) ->
                 tdc_spec (column_at j wide_feats) wide_target01 = inr q ->
                 passing_targets wide_lab q (1 # 2)%Q <=
                 passing_targets wide_lab qbest (1 # 2)%Q) /\
    length qbest = length wide_lab /\
    length target = length wide_lab /\
    (forall i l v,
        nth_error wide_lab i = Some l -> nth_error qbest i = Some v ->
        nth_error target i =
        Some (if is_target l && negb (Qle_bool v (1 # 2)%Q)
              then Num 0 else l)).
Proof.
  apply (find_best_feature_argmax tdc_spec tdc_spec_length wide_ds
           (1 # 2)%Q wide_feats wide_lab wide_target01).
  - reflexivity.
  - reflexivity.
  - reflexivity.
  - repeat constructor; simpl; intuition discriminate.
  - discriminate.
  - intros [|[|j]] Hj.
    + eexists. vm_compute. reflexivity.
    + eexists. vm_compute. reflexivity.
    + simpl in Hj. lia.
Defined.

Example pair_best_feature :
  find_best_feature tdc_spec pair_ds fdr_1pct =
  inr ("score", 0, [Num 0; Num (-1 # 1)]).
Proof. vm_compute. reflexivity. Qed.

(** C5, as stated, fails: on the two-row collection whose only target
    scores below its decoy, no feature has a passing target at 1% and
    [find_best_feature] returns the feature [score] with a count of 0. *)
Lemma find_best_feature_no_direction_error :
  ~ raises_without_direction tdc_spec.
Proof.
  intros H.
  destruct (H pair_ds fdr_1pct pair_feats pair_lab pair_target01
              [("score", [1%Q; 1%Q])])
    as (e & He).
  - reflexivity.
  - reflexivity.
  - reflexivity.
  - vm_compute. reflexivity.
  - intros nq [<-|[]]. vm_compute. reflexivity.
  - rewrite pair_best_feature in He. discriminate.
Qed.

(** C5, amended. When no feature column has a target row with q-value at
    most [fdr] (and there is a feature column, the feature names are
    distinct and [tdc] accepts every column), [find_best_feature] raises
    nothing: it returns the first feature column, the count 0 and the label
    vector in which every target is set to 0. *)
Theorem find_best_feature_none_passing
    (tdc : list Cell -> list Q -> result (list Q))
    (tdc_length : forall s t q, tdc s t = inr q -> length q = length s)
    (ds : PsmDataset) (fdr : Q)
    (feats : DataFrame) (lab : list Cell) (target01 : list Q) :
  features ds = inr feats ->
  label ds = inr lab ->
  to_target lab = inr target01 ->
  NoDup (df_columns feats) ->
  df_columns feats <> [] ->
  (forall j, j < length (df_columns feats) ->
             exists q, tdc (column_at j feats) target01 = inr q) ->
  (forall j q, j < length (df_columns feats) ->
               tdc (column_at j feats) target01 = inr q ->
               passing_targets lab q fdr = 0) ->
  exists first,
    nth_error (df_columns feats) 0 = Some first /\
    find_best_feature tdc ds fdr =
      inr (first, 0, map (fun l => if is_target l then Num 0 else l) lab).
Proof.
  intros Hfeat Hlab Htarget Hnd Hne Hall Hzero.
  destruct (find_best_feature_run tdc tdc_length ds fdr feats lab target01
              Hfeat Hlab Htarget Hnd Hne Hall)
    as (qvals & pre & best & qbest & post & Hq & Hnames & Hlen & Hqv &
        Hpre & Hpost & Hrun).
  destruct (apply_tdc_columns tdc feats target01 qvals Hq) as (Hcol & Hin).
  assert (Hbest : In (best, qbest) qvals).
  { rewrite Hqv. apply in_or_app. right. now left. }
  assert (Hcount : passing_targets lab qbest fdr = 0).
  { destruct (Hin best qbest Hbest) as (j & Hj & Htdc).
    apply (Hzero j); [|exact Htdc].
    apply nth_error_Some. congruence. }
  assert (Hqlen : length qbest = length lab).
  { eapply Forall_forall in Hlen; [|exact Hbest]. exact Hlen. }
  destruct pre as [|x pre].
  - destruct (df_columns feats) as [|first names] eqn:En; [congruence|].
    destruct (Hcol 0 first) as (q & Hq0 & Hnth); [reflexivity|].
    rewrite Hqv in Hnth. simpl in Hnth. inversion Hnth; subst.
    exists first. split; [reflexivity|].
    rewrite Hrun, Hcount. now rewrite demoted_none_passing.
  - specialize (Hpre x (or_introl eq_refl)). lia.
Qed.

Lemma find_best_feature_none_passing_witness :
  exists first,
    nth_error (df_columns pair_feats) 0 = Some first /\
    find_best_feature tdc_spec pair_ds fdr_1pct =
      inr (first, 0,
           map (fun l => if is_target l then Num 0 else l) pair_lab).
Proof.
  apply (find_best_feature_none_passing tdc_spec tdc_spec_length pair_ds
           fdr_1pct pair_feats pair_lab pair_target01).
  - reflexivity.
  - reflexivity.
  - reflexivity.
  - repeat constructor; simpl; intuition discriminate.
  - discriminate.
  - intros [|j] Hj; [|simpl in Hj; lia].
    eexists. vm_compute. reflexivity.
  - intros [|j] q Hj Hq; [|simpl in Hj; lia].
    vm_compute in Hq. inversion Hq; subst. vm_compute. reflexivity.
Defined.

(** ** The order of the stored rows *)

Lemma extract_In {A} (x : A) (l : list A) :
  In x l -> exists i r, i < length l /\ extract i l = Some (x, r).
Proof.
  induction l as [|a l IH]; simpl; intros H; [contradiction|].
  destruct H as [->|H].
  - exists 0, l. split; [lia | reflexivity].
  - destruct (IH H) as (i & r & Hi & E).
    exists (S i), (a :: r). split; [lia|]. now rewrite E.
Qed.

(** Every order of the elements is the outcome of the shuffle for some
    draws. *)
Lemma shuffle_reaches {A} (l' l : list A) :
  Permutation l' l ->
  exists ds,
    length ds = length l /\
    forall f p,
      (forall i, i < length ds -> f (p + i) = nth i ds 0) ->
      shuffle (length l) l (mkRng f p) = (inr l', mkRng f (p + length l)).
Proof.
  revert l; induction l' as [|x l'' IH]; intros l Hp.
  - apply Permutation_nil in Hp. subst l. exists []. split; [reflexivity|].
    intros f p _. simpl. now rewrite Nat.add_0_r.
  - assert (Hin : In x l) by (eapply Permutation_in; [exact Hp | now left]).
    destruct (extract_In x l Hin) as (i & r & Hi & E).
    assert (Hr : Permutation l'' r).
    { apply Permutation_cons_inv with (a := x).
      eapply perm_trans; [exact Hp|]. now apply extract_perm with (i := i). }
    destruct (IH r Hr) as (ds & Hlen & Hds).
    assert (Hl : length l = S (length r)).
    { apply extract_perm in E. apply Permutation_length in E. exact E. }
    exists (i :: ds). split; [simpl; lia|].
    intros f p Hf.
    pose proof (Hf 0 ltac:(simpl; lia)) as H0.
    rewrite Nat.add_0_r in H0. simpl in H0.
    rewrite Hl. cbn [shuffle next_draw draws pos].
    rewrite H0, <- Hl, Nat.mod_small by exact Hi. rewrite E.
    rewrite (Hds f (S p)).
    + unfold ok. do 2 f_equal. lia.
    + intros j Hj. replace (S p + j) with (p + S j) by lia.
      rewrite (Hf (S j)) by (simpl; lia). reflexivity.
Qed.

Lemma PsmDataset_init_rows (df : DataFrame) (g g1 : Rng) (rows : list Row) :
  shuffle (nrows df) (df_rows df) g = (inr rows, g1) ->
  snd (PsmDataset_init df g) = g1 /\
  forall ds, fst (PsmDataset_init df g) = inr ds -> df_rows (data ds) = rows.
Proof.
  intros Hs. unfold PsmDataset_init, sample_all, bind. rewrite Hs.
  cbn [ret]. destruct (negb _); cbn [throw fst snd].
  - split; [reflexivity | discriminate].
  - unfold lift. destruct (rename_required _ _ _) as [e|names];
      cbn [fst snd].
    + split; [reflexivity | discriminate].
    + split; [reflexivity|]. intros ds H. inversion H. reflexivity.
Qed.

Lemma train_rows_length (splits : list DataFrame) (i : nat) :
  i < length splits ->
  length (train_rows splits i) + nrows (nth i splits (mkDF [] [])) =
  length (concat (map df_rows splits)).
Proof.
  intros Hi. unfold train_rows.
  destruct (nth_error splits i) as [x|] eqn:E;
    [|apply nth_error_None in E; lia].
  rewrite (nth_error_nth _ _ _ E).
  rewrite <- (firstn_skipn_middle _ _ E) at 3.
  rewrite !map_app, !concat_app, !length_app. simpl.
  rewrite length_app. unfold nrows. lia.
Qed.

(** The constructor leaves the generator at the position after one draw
    per row, whether it returns an object or raises. *)
Lemma init_advances (d : DataFrame) (g : Rng) :
  snd (PsmDataset_init d g) = mkRng (draws g) (pos g + nrows d).
Proof.
  destruct (shuffle_perm (nrows d) (df_rows d) g eq_refl)
    as (rows & g1 & Hs & _ & Hd & Hp).
  destruct (PsmDataset_init_rows d g g1 rows Hs) as (-> & _).
  destruct g1 as [dr ps]. simpl in Hd, Hp. now subst.
Qed.

Lemma init_run_advances (d : DataFrame) (g g' : Rng) (p : PsmDataset) :
  PsmDataset_init d g = (inr p, g') ->
  g' = mkRng (draws g) (pos g + nrows d).
Proof.
  intros H. rewrite <- init_advances. now rewrite H.
Qed.

(** The loop of [split] calls the constructor twice per fold, on the
    concatenation of the other chunks and on the chunk, each time at the
    position the generator has reached: fold [i] starts [i] times the
    number of rows after the start. *)
Lemma split_loop_generator (cols : list string) (splits : list DataFrame) :
  Forall (fun s => df_columns s = cols) splits ->
  let n := length (concat (map df_rows splits)) in
  forall todo idx g train test g',
    skipn idx splits = todo ->
    split_loop splits idx todo g = (inr (train, test), g') ->
    g' = mkRng (draws g) (pos g + length todo * n) /\
    length train = length todo /\ length test = length todo /\
    forall i s tr te,
      nth_error todo i = Some s ->
      nth_error train i = Some tr ->
      nth_error test i = Some te ->
      PsmDataset_init (mkDF cols (train_rows splits (idx + i)))
                      (mkRng (draws g) (pos g + i * n)) =
        (inr tr, mkRng (draws g) (pos g + i * n + (n - nrows s))) /\
      PsmDataset_init s (mkRng (draws g) (pos g + i * n + (n - nrows s))) =
        (inr te, mkRng (draws g) (pos g + S i * n)).
Proof.
  intros Hcols n.
  induction todo as [|t rest IH]; intros idx g train test g' Hskip Hrun;
    cbn [split_loop] in Hrun.
  - apply ret_inr in Hrun. destruct Hrun as (Hrun & <-).
    inversion Hrun; subst. destruct g as [dr ps]. simpl.
    rewrite Nat.add_0_r.
    split; [reflexivity|]. split; [reflexivity|]. split; [reflexivity|].
    intros [|i] x tr te Hx; discriminate.
  - assert (Hidx : nth_error splits idx = Some t).
    { rewrite <- (firstn_skipn idx splits) at 1. rewrite Hskip.
      assert (Hlen : idx <= length splits).
      { destruct (Nat.le_gt_cases idx (length splits)) as [|Hgt]; [assumption|].
        rewrite skipn_all2 in Hskip by lia. discriminate. }
      rewrite nth_error_app2 by (rewrite length_firstn; lia).
      rewrite length_firstn, Nat.min_l by exact Hlen.
      now rewrite Nat.sub_diag. }
    assert (Hrest : skipn (S idx) splits = rest).
    { replace (S idx) with (1 + idx) by lia.
      rewrite <- skipn_skipn, Hskip. reflexivity. }
    assert (Hlt : idx < length splits)
      by (apply nth_error_Some; congruence).
    inv_bind_as Hrun train_split g0 Hcat.
    apply lift_inr in Hcat. destruct Hcat as (Hcat & <-).
    inv_bind_as Hrun tr g1 Htr.
    inv_bind_as Hrun te g2 Hte.
    inv_bind_as Hrun rr g3 Hloop.
    apply ret_inr in Hrun. destruct Hrun as (Hrun & <-).
    inversion Hrun; subst train test. clear Hrun.
    assert (Htable : train_split = mkDF cols (train_rows splits idx)).
    { destruct (firstn idx splits ++ skipn (S idx) splits) eqn:Eo;
        [discriminate|].
      rewrite <- Eo in Hcat.
      rewrite (pd_concat_same cols) in Hcat.
      - now inversion Hcat.
      - apply Forall_app. split; apply Forall_forall; intros x Hx;
          (eapply Forall_forall in Hcols; [exact Hcols|]).
        + rewrite <- (firstn_skipn idx splits). apply in_or_app. now left.
        + rewrite <- (firstn_skipn (S idx) splits). apply in_or_app.
          now right.
      - rewrite Eo. discriminate. }
    subst train_split.
    pose proof (train_rows_length splits idx Hlt) as Hsum.
    rewrite (nth_error_nth _ _ _ Hidx) in Hsum. fold n in Hsum.
    pose proof (init_run_advances _ _ _ _ Htr) as Hg1.
    pose proof (init_run_advances _ _ _ _ Hte) as Hg2.
    assert (Hn1 : nrows (mkDF cols (train_rows splits idx)) = n - nrows t)
      by (unfold nrows at 1; simpl; lia).
    rewrite Hn1 in Hg1. subst g1. cbn [draws pos] in Hg2.
    assert (Hg2' : g2 = mkRng (draws g) (pos g + n))
      by (rewrite Hg2; f_equal; lia).
    clear Hg2. subst g2.
    destruct rr as [trs tes]. cbn [fst snd].
    destruct (IH (S idx) _ trs tes g3 Hrest Hloop)
      as (Hg3 & Hl1 & Hl2 & Hfold).
    cbn [draws pos] in Hg3, Hfold.
    split; [rewrite Hg3; f_equal; simpl; lia|].
    split; [simpl; now rewrite Hl1|]. split; [simpl; now rewrite Hl2|].
    intros [|i] x tr' te' Hs Htr' Hte'.
    + cbn [nth_error] in Hs, Htr', Hte'.
      inversion Hs; inversion Htr'; inversion Hte'; subst x tr' te'.
      rewrite Nat.add_0_r. cbn [Nat.mul]. rewrite !Nat.add_0_r.
      destruct g as [dr ps]. cbn [draws pos] in *.
      split; [exact Htr | exact Hte].
    + cbn [nth_error] in Hs, Htr', Hte'.
      destruct (Hfold i x tr' te' Hs Htr' Hte') as (H1 & H2).
      replace (idx + S i) with (S idx + i) by lia.
      replace (pos g + S i * n) with (pos g + n + i * n) by (simpl; lia).
      replace (pos g + S (S i) * n) with (pos g + n + S i * n)
        by (simpl; lia).
      split; [exact H1 | exact H2].
Qed.

Lemma split_as_loop (df : DataFrame) (ds : PsmDataset) (k : nat) (g : Rng) :
  built_by_init df ds ->
  2 <= k ->
  exists splits,
    array_split (data ds) k = inr splits /\
    length splits = k /\
    Forall (fun s => df_columns s = df_columns (data ds)) splits /\
    length (concat (map df_rows splits)) = nrows (data ds) /\
    split ds k g = split_loop splits 0 splits g.
Proof.
  intros Hb Hk.
  destruct (split_run df ds k g Hb Hk)
    as (init & lst & train & test & g' & Hsplit & Hmerge & _ & _ & Hidx &
        Hlen & Hcat & _ & _).
  exists (init ++ [lst]). split; [exact Hsplit|].
  split; [rewrite Hidx, length_map; exact Hlen|].
  split.
  { rewrite Hidx. apply Forall_forall. intros s Hs.
    apply in_map_iff in Hs. destruct Hs as (ix & <- & _). reflexivity. }
  split.
  { rewrite Hidx, map_map. cbn [df_rows].
    rewrite <- rows_at_concat, Hcat, rows_at_all. reflexivity. }
  destruct (built_label _ _ Hb) as (j & Hj).
  unfold split, bind, lift. rewrite Hj.
  destruct (k =? 0) eqn:E; [apply Nat.eqb_eq in E; lia|].
  rewrite Hsplit.
  replace (length (column_at j (data ds))) with (nrows (data ds))
    by (unfold column_at; now rewrite length_map).
  rewrite Hmerge. reflexivity.
Qed.

(** C10. The rows stored by the constructor are the input rows in the
    order drawn from the random generator: a permutation of the input
    (same multiset), fixed by the generator's state alone, which advances
    by one draw per row; every order of the rows is drawn for some state of
    the generator. [split] passes every chunk and every concatenation of the
    other chunks through the constructor, each at the position the
    generator has reached: with [n] rows, the train partition of fold [i]
    is the constructor's object for the other chunks drawn from position
    [i * n] on, the test partition is the constructor's object for chunk
    [i] drawn with the draws that follow, and the run uses [k * n] draws.
    So each train and test partition is shuffled again, with draws of its
    own. *)
Theorem init_shuffles_rows (df : DataFrame) (g : Rng) :
  (exists rows g',
      shuffle (nrows df) (df_rows df) g = (inr rows, g') /\
      Permutation rows (df_rows df) /\
      snd (PsmDataset_init df g) = g' /\
      draws g' = draws g /\ pos g' = pos g + nrows df /\
      (forall ds, fst (PsmDataset_init df g) = inr ds ->
                  df_rows (data ds) = rows)) /\
  (has_required df ->
   forall rows', Permutation rows' (df_rows df) ->
     exists g0 ds g1,
       PsmDataset_init df g0 = (inr ds, g1) /\ df_rows (data ds) = rows') /\
  (forall ds k, built_by_init df ds -> 2 <= k ->
     let n := nrows (data ds) in
     exists splits train test,
       array_split (data ds) k = inr splits /\
       split ds k g = (inr (train, test), mkRng (draws g) (pos g + k * n)) /\
       length test = k /\ length train = k /\
       forall i s tr te,
         nth_error splits i = Some s ->
         nth_error train i = Some tr ->
         nth_error test i = Some te ->
         PsmDataset_init (mkDF (df_columns (data ds)) (train_rows splits i))
                         (mkRng (draws g) (pos g + i * n)) =
           (inr tr, mkRng (draws g) (pos g + i * n + (n - nrows s))) /\
         PsmDataset_init s (mkRng (draws g) (pos g + i * n + (n - nrows s))) =
           (inr te, mkRng (draws g) (pos g + S i * n)) /\
         shuffle (n - nrows s) (train_rows splits i)
                 (mkRng (draws g) (pos g + i * n)) =
           (inr (df_rows (data tr)),
            mkRng (draws g) (pos g + i * n + (n - nrows s))) /\
         shuffle (nrows s) (df_rows s)
                 (mkRng (draws g) (pos g + i * n + (n - nrows s))) =
           (inr (df_rows (data te)), mkRng (draws g) (pos g + S i * n))).
Proof.
  split; [|split].
  - destruct (shuffle_perm (nrows df) (df_rows df) g eq_refl)
      as (rows & g' & Hs & Hp & Hd & Hpos).
    destruct (PsmDataset_init_rows df g g' rows Hs) as (Hg & Hrows).
    exists rows, g'. repeat split; auto.
  - intros Hreq rows' Hp.
    destruct (shuffle_reaches rows' (df_rows df) Hp) as (ds & Hlen & Hds).
    set (g0 := mkRng (fun n => nth n ds 0) 0).
    assert (Hs : shuffle (nrows df) (df_rows df) g0 =
                 (inr rows', mkRng (fun n => nth n ds 0) (nrows df))).
    { apply (Hds (fun n => nth n ds 0) 0). intros i _. reflexivity. }
    destruct (init_ok df g0 Hreq) as (p & g1 & Hi).
    exists g0, p, g1. split; [exact Hi|].
    destruct (PsmDataset_init_rows df g0 _ rows' Hs) as (_ & Hrows).
    apply Hrows. now rewrite Hi.
  - intros ds k Hb Hk n.
    destruct (split_as_loop df ds k g Hb Hk)
      as (splits & Hsplit & Hlen & Hcols & Hsum & Hloop).
    destruct (split_fold_count df ds k g Hb Hk)
      as (train & test & g' & Hrun & Hl1 & Hl2).
    rewrite Hloop in Hrun.
    destruct (split_loop_generator (df_columns (data ds)) splits Hcols
                splits 0 g train test g' eq_refl Hrun)
      as (Hg' & _ & _ & Hfold).
    rewrite Hsum, Hlen in Hg'. fold n in Hg'.
    exists splits, train, test.
    split; [exact Hsplit|].
    split; [rewrite Hloop, Hrun, Hg'; reflexivity|].
    split; [exact Hl2|]. split; [exact Hl1|].
    intros i s tr te Hs Htr Hte.
    destruct (Hfold i s tr te Hs Htr Hte) as (H1 & H2).
    rewrite Hsum in H1, H2. fold n in H1, H2. cbn [Nat.add] in H1.
    split; [exact H1|]. split; [exact H2|].
    assert (Hi : i < length splits) by (apply nth_error_Some; congruence).
    pose proof (train_rows_length splits i Hi) as Hn.
    rewrite (nth_error_nth _ _ _ Hs), Hsum in Hn. fold n in Hn.
    split.
    + destruct (shuffle_perm (n - nrows s) (train_rows splits i)
                  (mkRng (draws g) (pos g + i * n)) ltac:(lia))
        as (rows & g1 & Hsh & _ & Hd & Hp).
      destruct (PsmDataset_init_rows
                  (mkDF (df_columns (data ds)) (train_rows splits i))
                  (mkRng (draws g) (pos g + i * n)) g1 rows) as (_ & Hrows).
      { replace (nrows (mkDF (df_columns (data ds)) (train_rows splits i)))
          with (n - nrows s) by (unfold nrows at 2; simpl; lia).
        exact Hsh. }
      rewrite Hsh. rewrite (Hrows tr) by now rewrite H1.
      destruct g1 as [dr ps]. cbn [draws pos] in Hd, Hp. now subst.
    + destruct (shuffle_perm (nrows s) (df_rows s)
                  (mkRng (draws g) (pos g + i * n + (n - nrows s))) eq_refl)
        as (rows & g1 & Hsh & _ & Hd & Hp).
      destruct (PsmDataset_init_rows s
                  (mkRng (draws g) (pos g + i * n + (n - nrows s))) g1 rows
                  Hsh) as (_ & Hrows).
      rewrite Hsh. rewrite (Hrows te) by now rewrite H2.
      destruct g1 as [dr ps]. cbn [draws pos] in Hd, Hp. subst.
      do 2 f_equal. simpl. lia.
Qed.

(** The chunks of [wide_ds] are the rows a, b and the rows c, d; with the
    generator that always draws 1, every partition comes back in the other
    order, and the two folds use eight draws. *)
Example split_shuffles_partitions :
  exists train test g',
    split wide_ds 2 rng1 = (inr (train, test), g') /\
    pos g' = 8 /\
    map (fun t => column_at 0 (data t)) test =
      [[Str "b"; Str "a"]; [Str "d"; Str "c"]] /\
    map (fun t => column_at 0 (data t)) train =
      [[Str "d"; Str "c"]; [Str "b"; Str "a"]].
Proof.
  eexists _, _, _. split; [vm_compute; reflexivity|].
  repeat split; reflexivity.
Qed.


Example demo_split :
  fst (split demo_ds 2 rng0) =
  inr ([mkPsm (mkDF canonical_columns [demo_row "c" 1 8 3]);
        mkPsm (mkDF canonical_columns
                    [demo_row "a" 1 7 5; demo_row "b" (-1) 7 9])],
       [mkPsm (mkDF canonical_columns
                    [demo_row "a" 1 7 5; demo_row "b" (-1) 7 9]);
        mkPsm (mkDF canonical_columns [demo_row "c" 1 8 3])]).
Proof. vm_compute. reflexivity. Qed.

(** ** Rows of one spectrum *)

(** C3 fails on the code. The two rows of [pair_ds] carry the same spectrum
    id (scan 7); whatever the generator draws, [split] with two folds
    returns two test partitions of one row each, the first row in one and
    the second in the other. *)
Theorem split_separates_spectrum (g : Rng) :
  exists train t0 t1 g',
    split pair_ds 2 g = (inr (train, [t0; t1]), g') /\
    df_rows (data t0) = [demo_row "a" 1 7 5] /\
    df_rows (data t1) = [demo_row "b" (-1) 7 9] /\
    scannr_of (data pair_ds) (demo_row "a" 1 7 5) = Some (Num 7) /\
    scannr_of (data pair_ds) (demo_row "b" (-1) 7 9) = Some (Num 7).
Proof.
  destruct (split_run pair_table pair_ds 2 g pair_ds_built (le_n 2))
    as (init & lst & train & test & g' & _ & _ & _ & Hrun & Hidx & _ & _ &
        Hte & _).
  assert (Hsplits :
            init ++ [lst] =
            [mkDF canonical_columns [demo_row "a" 1 7 5];
             mkDF canonical_columns [demo_row "b" (-1) 7 9]])
    by (rewrite Hidx; reflexivity).
  rewrite Hsplits in Hte.
  inversion Hte as [|s0 t0 l0 test0 H0 Hte0]; subst.
  inversion Hte0 as [|s1 t1 l1 test1 H1 Hte1]; subst.
  inversion Hte1; subst.
  exists train, t0, t1, g'.
  split; [exact Hrun|].
  apply built_by_init_spec in H0. destruct H0 as (P0 & _).
  apply built_by_init_spec in H1. destruct H1 as (P1 & _).
  apply Permutation_sym, Permutation_length_1_inv in P0.
  apply Permutation_sym, Permutation_length_1_inv in P1.
  repeat split; assumption || reflexivity.
Qed.

(** ** brew: the iterator [models] *)

Lemma mapM_length {S A B} (f : A -> M S B) (l : list A) (s s' : S)
    (ys : list B) :
  mapM f l s = (inr ys, s') -> length ys = length l.
Proof.
  revert s ys; induction l as [|x l IH]; intros s ys H; cbn [mapM] in H.
  - apply ret_inr in H. destruct H as (<- & _). reflexivity.
  - inv_bind H. inv_bind H. apply ret_inr in H. destruct H as (<- & <-).
    simpl. f_equal. eapply IH. eassumption.
Qed.

Lemma zip_star_fuel_length {A} (fuel : nat) (ls : list (list A)) :
  length (zip_star_fuel fuel ls) <= fuel.
Proof.
  revert ls; induction fuel as [|f IH]; intros ls; simpl; [lia|].
  destruct (heads_tails ls) as [[hs ts]|]; simpl; [|lia].
  specialize (IH ts). lia.
Qed.

Lemma zip_star_length {A} (l : list A) (ls : list (list A)) :
  length (zip_star (l :: ls)) <= length l.
Proof. unfold zip_star. apply zip_star_fuel_length. Qed.

Section BrewProofs.

Context {ModelState Conf : Type}.
Variable default_model : ModelState.
Variable _split : DataFrame -> nat -> M Rng (list (list nat)).
Variable fit :
  ModelState -> option DataFrame -> Q -> nat -> option string ->
  result ModelState.
Variable predict : ModelState -> DataFrame -> result (list Q).
Variable _calibrate_scores : DataFrame -> list Q -> Q -> result (list Q).
Variable assign_confidence : DataFrame -> list Q -> result Conf.
Variable pool_view : nat -> list DataFrame -> option DataFrame.
Variables (train_fdr : Q) (max_iter : nat) (direction : option string).

Local Abbreviation W := (World ModelState).

Lemma gen_loop_yield (ts : loc) (psms : list loc) (all_idx : list (list nat))
    (pending : list (list (list nat))) (w w' : W) o g' :
  gen_loop ts psms all_idx pending w = (inr (o, g'), w') ->
  match o with
  | Some _ => length pending = S (gen_capacity g')
  | None => gen_capacity g' = 0
  end.
Proof.
  unfold gen_loop. destruct pending as [|idx rest]; intros H.
  - apply ret_inr in H. destruct H as (H & _). inversion H. reflexivity.
  - do 4 inv_bind H. apply ret_inr in H. destruct H as (H & _).
    inversion H. reflexivity.
Qed.

Lemma gen_next_yield (g : GenState) (w w' : W) o g' :
  gen_next g w = (inr (o, g'), w') ->
  match o with
  | Some _ => gen_capacity g = S (gen_capacity g')
  | None => gen_capacity g' = 0
  end.
Proof.
  destruct g as [psms test_idx|ts psms all_idx pending|];
    cbn [gen_next gen_capacity]; intros H.
  - destruct psms as [|p0 psms']; [discriminate|].
    do 2 inv_bind H. now apply gen_loop_yield in H.
  - now apply gen_loop_yield in H.
  - apply ret_inr in H. destruct H as (H & _). inversion H. reflexivity.
Qed.

Lemma next_model_capacity (it : ModelsIter ModelState) (w w' : W) o it' :
  next_model fit train_fdr max_iter direction it w = (inr (o, it'), w') ->
  match o with
  | Some _ => S (capacity it') <= capacity it
  | None => capacity it' = 0
  end.
Proof.
  destruct it as [gen copies fold | results]; cbn [next_model]; intros H.
  - inv_bind H. destruct a as [og gen']. apply gen_next_yield in H0.
    cbn [fst snd] in H. destruct og as [ts|].
    + destruct copies as [|m rest].
      * apply ret_inr in H. destruct H as (H & _). inversion H. simpl. lia.
      * inv_bind H. apply ret_inr in H. destruct H as (H & _).
        inversion H. simpl. lia.
    + apply ret_inr in H. destruct H as (H & _). inversion H. simpl. lia.
  - destruct results as [|[e|st] rest].
    + apply ret_inr in H. destruct H as (H & _). inversion H. reflexivity.
    + discriminate.
    + inv_bind H. apply ret_inr in H. destruct H as (H & _).
      inversion H. simpl. lia.
Qed.

Lemma predict_loop_capacity (dset test_set : loc)
    (test_idx : list (list nat)) (test_fdr : Q) :
  forall (it : ModelsIter ModelState) (w w' : W) scores it',
    predict_loop fit predict _calibrate_scores train_fdr max_iter direction
                 dset test_set test_idx it test_fdr w =
      (inr (scores, it'), w') ->
    length scores <= length test_idx /\
    capacity it' + length scores <= capacity it /\
    (length scores < length test_idx -> capacity it' = 0).
Proof.
  induction test_idx as [|fold rest IH]; intros it w w' scores it' H;
    cbn [predict_loop] in H.
  - apply ret_inr in H. destruct H as (H & _). inversion H. simpl. lia.
  - inv_bind H. destruct a as [o it1]. apply next_model_capacity in H0.
    cbn [fst snd] in H. destruct o as [m|].
    + do 7 inv_bind H. inv_bind H.
      apply ret_inr in H. destruct H as (H & _). inversion H; subst.
      destruct a6 as [ss it2]. apply IH in H8. simpl in *. lia.
    + apply ret_inr in H. destruct H as (H & _). inversion H; subst.
      simpl. lia.
Qed.

Lemma predict_capacity (dset : loc) (test_idx : list (list nat))
    (test_fdr : Q) (it : ModelsIter ModelState) (w w' : W) out it' :
  _predict fit predict _calibrate_scores train_fdr max_iter direction
           dset test_idx it test_fdr w = (inr (out, it'), w') ->
  capacity it <> 0 /\ (capacity it <= length test_idx -> capacity it' = 0).
Proof.
  unfold _predict. intros H.
  do 4 inv_bind H. apply ret_inr in H. destruct H as (H & _).
  inversion H; subst. destruct a0 as [scores it1].
  apply predict_loop_capacity in H1. cbn [fst snd] in *.
  apply lift_inr in H2. destruct H2 as (H2 & _).
  destruct scores as [|s scores]; [discriminate|]. simpl in H1. lia.
Qed.

Lemma predict_each_exhausted (p0 p1 : loc) (i0 i1 : list (list nat))
    (rest : list (loc * list (list nat))) (test_fdr : Q)
    (it : ModelsIter ModelState) (w : W) :
  capacity it <= length i0 ->
  is_ok (fst (predict_each fit predict _calibrate_scores train_fdr max_iter
                           direction ((p0, i0) :: (p1, i1) :: rest) it
                           test_fdr w)) = false.
Proof.
  intros Hcap.
  destruct (predict_each _ _ _ _ _ _ _ _ _ _) as [[e|r] w'] eqn:E;
    [reflexivity|exfalso].
  cbn [predict_each] in E. inv_bind E. destruct a as [s0 it1].
  apply predict_capacity in H. destruct H as (_ & H). specialize (H Hcap).
  cbn [fst snd] in E. inv_bind E. inv_bind H0. destruct a0 as [s1 it2].
  apply predict_capacity in H1. cbn [snd] in H1. destruct H1 as (H1 & _).
  contradiction.
Qed.

Lemma pool_collect_length (copies : list loc) :
  forall (gen : GenState) (w w' : W) jobs,
    pool_collect copies gen w = (inr jobs, w') ->
    length (fst jobs) <= gen_capacity gen.
Proof.
  induction copies as [|m rest IH]; intros gen w w' jobs H;
    cbn [pool_collect] in H.
  - inv_bind H. destruct a as [o gen']. cbn [fst snd] in H.
    destruct o; apply ret_inr in H; destruct H as (<- & _); simpl; lia.
  - inv_bind H. destruct a as [o gen']. apply gen_next_yield in H0.
    cbn [fst snd] in H. destruct o as [ts|].
    + do 2 inv_bind H. apply ret_inr in H. destruct H as (<- & _).
      apply IH in H2. simpl. lia.
    + apply ret_inr in H. destruct H as (<- & _). simpl. lia.
Qed.

Lemma pool_map_capacity (gen : GenState) (copies : list loc) (w w' : W) it :
  pool_map fit pool_view train_fdr max_iter direction gen copies w =
    (inr it, w') ->
  capacity it <= gen_capacity gen.
Proof.
  unfold pool_map. intros H. do 2 inv_bind H.
  apply ret_inr in H. destruct H as (<- & _).
  apply pool_collect_length in H0. apply mapM_length in H1.
  simpl. rewrite length_map, length_combine, length_seq. lia.
Qed.

(** With two or more collections, [brew] does not return: the one
    iterator [models] is used up by the call of [_predict] for the first
    collection, and the call for the second finds no model. *)
Lemma brew_many_not_ok (ps : list loc) (model : option loc) (test_fdr : Q)
    (folds max_workers : nat) (w : W) :
  2 <= length ps ->
  is_ok (fst (brew default_model _split fit predict _calibrate_scores
                   assign_confidence pool_view (Many ps) model train_fdr
                   test_fdr max_iter direction folds max_workers w)) = false.
Proof.
  intros Hlen.
  destruct (brew _ _ _ _ _ _ _ _ _ _ _ _ _ _ _ _) as [[e|r] w'] eqn:E;
    [reflexivity|exfalso].
  unfold brew in E. do 3 inv_bind E.
  destruct (max_workers =? 0); [discriminate|].
  do 2 inv_bind E.
  apply mapM_length in H0.
  destruct ps as [|p0 [|p1 rest]]; simpl in Hlen; try lia.
  destruct a0 as [|i0 [|i1 irest]]; simpl in H0; try lia.
  assert (Hcap : capacity a2 <= length i0).
  { destruct (max_workers =? 1).
    - apply ret_inr in H2. destruct H2 as (<- & _). simpl.
      pose proof (zip_star_length i0 (i1 :: irest)). simpl in H2. lia.
    - apply pool_map_capacity in H2. simpl in H2.
      pose proof (zip_star_length i0 (i1 :: irest)). simpl in H4. lia. }
  pose proof (predict_each_exhausted p0 p1 i0 i1 (combine rest irest)
                test_fdr a2 w3 Hcap) as Hno.
  cbn [combine] in H3. rewrite H3 in Hno. discriminate.
Qed.

End BrewProofs.

(** ** brew: what a run leaves untouched *)

Lemma firstn_set_nth {A} (l : list A) (n i : nat) (v : A) :
  n <= i -> firstn n (set_nth l i v) = firstn n l.
Proof.
  revert n i; induction l as [|x l IH]; intros [|n] [|i] H; simpl; auto;
    try lia.
  f_equal. apply IH. lia.
Qed.

Section Frames.

Context {ModelState : Type}.
Local Abbreviation W := (World ModelState).

Lemma keeps_refl (n0 : nat) (w : W) : keeps n0 w w.
Proof. split; [apply le_n | reflexivity]. Qed.

Lemma keeps_trans (n0 : nat) (w1 w2 w3 : W) :
  keeps n0 w1 w2 -> keeps n0 w2 w3 -> keeps n0 w1 w3.
Proof. intros (H1 & E1) (H2 & E2). split; [lia | congruence]. Qed.

Lemma frames_ret {A} (n0 : nat) (a : A) (Q : A -> Prop) :
  Q a -> frames (ModelState := ModelState) n0 (ret a) Q.
Proof.
  intros HQ w Hw. split; [apply keeps_refl|].
  simpl. intros b E. inversion E. now subst.
Qed.

Lemma frames_throw {A} (n0 : nat) (e : Exn) (Q : A -> Prop) :
  frames (ModelState := ModelState) n0 (throw e) Q.
Proof. intros w Hw. split; [apply keeps_refl | discriminate]. Qed.

Lemma frames_lift {A} (n0 : nat) (r : result A) (Q : A -> Prop) :
  (forall a, r = inr a -> Q a) ->
  frames (ModelState := ModelState) n0 (lift r) Q.
Proof. intros H w Hw. split; [apply keeps_refl | exact H]. Qed.

Lemma frames_bind {A B} (n0 : nat) (m : M W A) (k : A -> M W B)
    (P : A -> Prop) (Q : B -> Prop) :
  frames n0 m P -> (forall a, P a -> frames n0 (k a) Q) ->
  frames n0 (bind m k) Q.
Proof.
  intros Hm Hk w Hw. destruct (Hm w Hw) as (Hkeep & HP).
  unfold bind. destruct (m w) as [[e|a] w1]; simpl in *.
  - split; [exact Hkeep | discriminate].
  - destruct (Hk a (HP a eq_refl) w1) as (Hkeep' & HQ).
    { destruct Hkeep as (Hlen & _). lia. }
    split; [eapply keeps_trans; eassumption | exact HQ].
Qed.

Lemma frames_weaken {A} (n0 : nat) (m : M W A) (P Q : A -> Prop) :
  frames n0 m P -> (forall a, P a -> Q a) -> frames n0 m Q.
Proof.
  intros H HPQ w Hw. destruct (H w Hw) as (Hk & HP). split; auto.
Qed.

Lemma frames_alloc (n0 : nat) (o : Obj ModelState) :
  frames n0 (alloc o) (fun l => n0 <= l).
Proof.
  intros w Hw. unfold alloc, keeps. simpl. split; [split|].
  - rewrite length_app. lia.
  - rewrite firstn_app. replace (n0 - length (heap w)) with 0 by lia.
    simpl. apply app_nil_r.
  - intros a E. inversion E. now subst.
Qed.

Lemma frames_read (n0 : nat) (l : loc) :
  frames n0 (read (ModelState := ModelState) l) (fun _ => True).
Proof.
  intros w Hw. unfold read.
  destruct (nth_error (heap w) l); simpl; split; auto using keeps_refl.
Qed.

Lemma frames_write (n0 : nat) (l : loc) (o : Obj ModelState) :
  n0 <= l -> frames n0 (write l o) (fun _ => True).
Proof.
  intros Hl w Hw. unfold write, keeps. simpl. split; [split|]; auto.
  - rewrite set_nth_length. apply le_n.
  - now apply firstn_set_nth.
Qed.

Lemma frames_with_rng {A} (n0 : nat) (m : M Rng A) :
  frames (ModelState := ModelState) n0 (with_rng m) (fun _ => True).
Proof.
  intros w Hw. unfold with_rng. destruct (m (rng w)) as [r g]. simpl.
  split; [|auto]. split; [apply le_n | reflexivity].
Qed.

Lemma frames_mapM {A B} (n0 : nat) (f : A -> M W B) (l : list A)
    (P : B -> Prop) :
  (forall x, In x l -> frames n0 (f x) P) ->
  frames n0 (mapM f l) (Forall P).
Proof.
  induction l as [|x l IH]; intros H; cbn [mapM].
  - apply frames_ret. constructor.
  - eapply frames_bind; [apply H; now left|]. intros y Hy.
    eapply frames_bind; [apply IH; intros z Hz; apply H; now right|].
    intros ys Hys. apply frames_ret. now constructor.
Qed.

End Frames.

Section BrewFrames.

Context {ModelState Conf : Type}.
Variable default_model : ModelState.
Variable _split : DataFrame -> nat -> M Rng (list (list nat)).
Variable fit :
  ModelState -> option DataFrame -> Q -> nat -> option string ->
  result ModelState.
Variable predict : ModelState -> DataFrame -> result (list Q).
Variable _calibrate_scores : DataFrame -> list Q -> Q -> result (list Q).
Variable assign_confidence : DataFrame -> list Q -> result Conf.
Variable pool_view : nat -> list DataFrame -> option DataFrame.
Variables (train_fdr : Q) (max_iter : nat) (direction : option string).
Variable n0 : nat.

Local Abbreviation W := (World ModelState).

Lemma frames_copy_copy (l : loc) :
  frames (ModelState := ModelState) n0 (copy_copy l) (fun l' => n0 <= l').
Proof.
  unfold copy_copy. eapply frames_bind; [apply frames_read|].
  intros o _. apply frames_alloc.
Qed.

Lemma frames_deepcopy (l : loc) :
  frames (ModelState := ModelState) n0 (deepcopy l) (fun l' => n0 <= l').
Proof.
  unfold deepcopy. eapply frames_bind; [apply frames_read|].
  intros o _. apply frames_alloc.
Qed.

Lemma frames_read_data (l : loc) :
  frames (ModelState := ModelState) n0 (read_data l) (fun _ => True).
Proof.
  unfold read_data. eapply frames_bind; [apply frames_read|].
  intros [d|st] _; [now apply frames_ret | apply frames_throw].
Qed.

Lemma frames_get_data (l : loc) :
  frames (ModelState := ModelState) n0 (get_data l) (fun _ => True).
Proof.
  unfold get_data. eapply frames_bind; [apply frames_read_data|].
  intros [d|] _; [now apply frames_ret | apply frames_throw].
Qed.

Lemma frames_read_model (l : loc) :
  frames (ModelState := ModelState) n0 (read_model l) (fun _ => True).
Proof.
  unfold read_model. eapply frames_bind; [apply frames_read|].
  intros [d|st] _; [apply frames_throw | now apply frames_ret].
Qed.

Lemma frames_gen_loop (ts : loc) (psms : list loc)
    (all_idx : list (list nat)) (pending : list (list (list nat))) :
  n0 <= ts ->
  frames (ModelState := ModelState) n0 (gen_loop ts psms all_idx pending)
         (fun og => gen_ok n0 (snd og)).
Proof.
  intros Hts. unfold gen_loop. destruct pending as [|idx rest].
  - now apply frames_ret.
  - eapply frames_bind; [now apply frames_write|]. intros _ _.
    eapply frames_bind.
    { apply frames_mapM with (P := fun _ => True).
      intros [[i j] dset] _.
      eapply frames_bind; [apply frames_get_data|].
      intros d _. now apply frames_lift. }
    intros data _.
    eapply frames_bind; [now apply frames_lift with (Q := fun _ => True)|].
    intros tr _.
    eapply frames_bind; [now apply frames_write|]. intros _ _.
    apply frames_ret. exact Hts.
Qed.

Lemma frames_gen_next (g : GenState) :
  gen_ok n0 g ->
  frames (ModelState := ModelState) n0 (gen_next g)
         (fun og => gen_ok n0 (snd og)).
Proof.
  intros Hg. destruct g as [psms test_idx|ts psms all_idx pending|];
    cbn [gen_next].
  - destruct psms as [|p0 psms']; [apply frames_throw|].
    eapply frames_bind; [apply frames_copy_copy|]. intros ts Hts.
    eapply frames_bind.
    { apply frames_mapM with (P := fun _ => True). intros p _.
      eapply frames_bind; [apply frames_get_data|].
      intros d _. now apply frames_ret. }
    intros all_idx _. now apply frames_gen_loop.
  - now apply frames_gen_loop.
  - now apply frames_ret.
Qed.

Lemma frames_fit_model (ts m : loc) (fold : nat) :
  n0 <= m ->
  frames (ModelState := ModelState) n0
         (_fit_model fit ts m train_fdr max_iter direction fold)
         (fun m' => n0 <= m').
Proof.
  intros Hm. unfold _fit_model.
  eapply frames_bind; [apply frames_read_model|]. intros st _.
  eapply frames_bind; [apply frames_read_data|]. intros d _.
  eapply frames_bind; [now apply frames_lift with (Q := fun _ => True)|].
  intros st' _.
  eapply frames_bind; [now apply frames_write|]. intros _ _.
  now apply frames_ret.
Qed.

Lemma frames_next_model (it : ModelsIter ModelState) :
  iter_ok n0 it ->
  frames n0 (next_model fit train_fdr max_iter direction it)
         (fun oi => iter_ok n0 (snd oi)).
Proof.
  intros Hit. destruct it as [gen copies fold|results]; cbn [next_model].
  - destruct Hit as (Hgen & Hcopies).
    eapply frames_bind; [now apply frames_gen_next|].
    intros [o gen'] Hgen'. cbn [fst snd] in *.
    destruct o as [ts|].
    + destruct copies as [|m rest].
      * apply frames_ret. simpl. auto.
      * inversion Hcopies; subst.
        eapply frames_bind; [now apply frames_fit_model|].
        intros m' _. apply frames_ret. simpl. auto.
    + apply frames_ret. simpl. auto.
  - destruct results as [|[e|st] rest].
    + now apply frames_ret.
    + apply frames_throw.
    + eapply frames_bind; [apply frames_alloc|].
      intros m _. now apply frames_ret.
Qed.

Lemma frames_pool_collect (copies : list loc) :
  forall gen,
    gen_ok n0 gen ->
    frames (ModelState := ModelState) n0 (pool_collect copies gen)
           (fun _ => True).
Proof.
  induction copies as [|m rest IH]; intros gen Hgen; cbn [pool_collect].
  - eapply frames_bind; [now apply frames_gen_next|].
    intros [o gen'] _. cbn [fst snd]. destruct o; now apply frames_ret.
  - eapply frames_bind; [now apply frames_gen_next|].
    intros [o gen'] Hgen'. cbn [fst snd] in *.
    destruct o as [ts|]; [|now apply frames_ret].
    eapply frames_bind; [apply frames_get_data|]. intros d _.
    eapply frames_bind; [now apply IH|]. intros r _.
    now apply frames_ret.
Qed.

Lemma frames_pool_map (gen : GenState) (copies : list loc) :
  gen_ok n0 gen ->
  frames n0 (pool_map fit pool_view train_fdr max_iter direction gen copies)
         (fun it => iter_ok n0 it).
Proof.
  intros Hgen. unfold pool_map.
  eapply frames_bind; [now apply frames_pool_collect|]. intros jobs _.
  eapply frames_bind.
  { apply frames_mapM with (P := fun _ => True). intros m _.
    apply frames_read_model. }
  intros states _. now apply frames_ret.
Qed.

Lemma frames_predict_loop (dset test_set : loc) (test_fdr : Q)
    (test_idx : list (list nat)) :
  n0 <= test_set ->
  forall it,
    iter_ok n0 it ->
    frames n0
           (predict_loop fit predict _calibrate_scores train_fdr max_iter
                         direction dset test_set test_idx it test_fdr)
           (fun r => iter_ok n0 (snd r)).
Proof.
  intros Hts. induction test_idx as [|fold rest IH]; intros it Hit;
    cbn [predict_loop].
  - now apply frames_ret.
  - eapply frames_bind; [now apply frames_next_model|].
    intros [o it1] Hit1. cbn [fst snd] in *.
    destruct o as [m|]; [|now apply frames_ret].
    eapply frames_bind; [apply frames_get_data|]. intros d _.
    eapply frames_bind; [now apply frames_lift with (Q := fun _ => True)|].
    intros sub _.
    eapply frames_bind; [now apply frames_write|]. intros _ _.
    eapply frames_bind; [apply frames_read_model|]. intros st _.
    eapply frames_bind; [apply frames_get_data|]. intros t _.
    eapply frames_bind; [now apply frames_lift with (Q := fun _ => True)|].
    intros raw _.
    eapply frames_bind; [now apply frames_lift with (Q := fun _ => True)|].
    intros sc _.
    eapply frames_bind; [now apply IH|]. intros r Hr.
    now apply frames_ret.
Qed.

Lemma frames_predict (dset : loc) (test_idx : list (list nat))
    (test_fdr : Q) (it : ModelsIter ModelState) :
  iter_ok n0 it ->
  frames n0
         (_predict fit predict _calibrate_scores train_fdr max_iter
                   direction dset test_idx it test_fdr)
         (fun r => iter_ok n0 (snd r)).
Proof.
  intros Hit. unfold _predict.
  eapply frames_bind; [apply frames_copy_copy|]. intros ts Hts.
  eapply frames_bind; [now apply frames_predict_loop|]. intros sm Hsm.
  eapply frames_bind; [now apply frames_lift with (Q := fun _ => True)|].
  intros all _.
  eapply frames_bind; [now apply frames_lift with (Q := fun _ => True)|].
  intros out _. now apply frames_ret.
Qed.

Lemma frames_predict_each (test_fdr : Q)
    (pairs : list (loc * list (list nat))) :
  forall it,
    iter_ok n0 it ->
    frames n0
           (predict_each fit predict _calibrate_scores train_fdr max_iter
                         direction pairs it test_fdr)
           (fun _ => True).
Proof.
  induction pairs as [|pi rest IH]; intros it Hit; cbn [predict_each].
  - now apply frames_ret.
  - eapply frames_bind; [now apply frames_predict|]. intros sm Hsm.
    eapply frames_bind; [now apply IH|]. intros ss _.
    now apply frames_ret.
Qed.

Lemma frames_brew (psms : PsmsArg) (model : option loc) (test_fdr : Q)
    (folds max_workers : nat) :
  frames n0
         (brew default_model _split fit predict _calibrate_scores
               assign_confidence pool_view psms model train_fdr test_fdr
               max_iter direction folds max_workers)
         (fun _ => True).
Proof.
  unfold brew.
  eapply frames_bind with (P := fun _ => True).
  { destruct model as [m|]; [now apply frames_ret|].
    eapply frames_weaken; [apply frames_alloc | auto]. }
  intros m _.
  eapply frames_bind.
  { apply frames_mapM with (P := fun _ => True). intros p _.
    eapply frames_bind; [apply frames_get_data|]. intros d _.
    apply frames_with_rng. }
  intros test_idx _.
  eapply frames_bind.
  { apply frames_mapM with (P := fun c => n0 <= c). intros i _.
    apply frames_deepcopy. }
  intros copies Hcopies.
  destruct (max_workers =? 0); [apply frames_throw|].
  eapply frames_bind with (P := fun it => iter_ok n0 it).
  { destruct (max_workers =? 1).
    - apply frames_ret. simpl. auto.
    - now apply frames_pool_map. }
  intros models Hmodels.
  eapply frames_bind; [now apply frames_predict_each|]. intros scores _.
  eapply frames_bind.
  { apply frames_mapM with (P := fun _ => True). intros ps _.
    eapply frames_bind; [apply frames_get_data|]. intros d _.
    now apply frames_lift. }
  intros res _.
  destruct res as [|r [|r' res']]; now apply frames_ret.
Qed.

End BrewFrames.

(** ** Runs of [brew] *)

Example toy_brew_one :
  fst (toy_brew pool_view_own (One 0) (Some 2) 2 1 toy_world) =
  inr (Single [(6 # 1)%Q; (10 # 1)%Q; (5 # 1)%Q]).
Proof. vm_compute. reflexivity. Qed.

Example toy_brew_pool_depends_on_view :
  fst (toy_brew pool_view_own (One 0) None 2 2 toy_world) =
    inr (Single [(6 # 1)%Q; (10 # 1)%Q; (5 # 1)%Q]) /\
  fst (toy_brew pool_view_last (One 0) None 2 2 toy_world) =
    inr (Single [(7 # 1)%Q; (11 # 1)%Q; (5 # 1)%Q]).
Proof. split; vm_compute; reflexivity. Qed.

(** C7. [brew] with one worker and with as many workers as folds do not
    give the same models and scores. On the collection of three PSMs, with
    two folds and the classifier whose state is the number of rows it was
    fitted on: with one worker the model of the first fold is fitted on
    the one row outside the fold, the model of the second fold on the two
    rows outside it, whatever the pool would do. With two workers every
    job holds the one object that [_make_train_sets] yields and rebinds;
    when the jobs are serialised after the generator has run to its end,
    both models are fitted on the table bound last, the model of the
    first fold on its own test rows, and the scores differ. They agree
    with the run with one worker only when each job is serialised before
    the generator is resumed. *)
Theorem brew_pool_differs_from_sequential :
  (forall view,
      fst (toy_brew view (One 0) (Some 2) 2 1 toy_world) =
        inr (Single [(6 # 1)%Q; (10 # 1)%Q; (5 # 1)%Q]) /\
      model_states (snd (toy_brew view (One 0) (Some 2) 2 1 toy_world)) =
        [0; 1; 2]) /\
  fst (toy_brew pool_view_last (One 0) (Some 2) 2 2 toy_world) =
    inr (Single [(7 # 1)%Q; (11 # 1)%Q; (5 # 1)%Q]) /\
  model_states (snd (toy_brew pool_view_last (One 0) (Some 2) 2 2
                              toy_world)) = [0; 0; 0; 2; 2] /\
  fst (toy_brew pool_view_own (One 0) (Some 2) 2 2 toy_world) =
    inr (Single [(6 # 1)%Q; (10 # 1)%Q; (5 # 1)%Q]) /\
  model_states (snd (toy_brew pool_view_own (One 0) (Some 2) 2 2
                              toy_world)) = [0; 0; 0; 1; 2].
Proof.
  split; [|repeat split; vm_compute; reflexivity].
  intros view. split; vm_compute; reflexivity.
Qed.

Section BrewResults.

Context {ModelState Conf : Type}.
Variable default_model : ModelState.
Variable _split : DataFrame -> nat -> M Rng (list (list nat)).
Variable fit :
  ModelState -> option DataFrame -> Q -> nat -> option string ->
  result ModelState.
Variable predict : ModelState -> DataFrame -> result (list Q).
Variable _calibrate_scores : DataFrame -> list Q -> Q -> result (list Q).
Variable assign_confidence : DataFrame -> list Q -> result Conf.
Variable pool_view : nat -> list DataFrame -> option DataFrame.

Local Abbreviation W := (World ModelState).
Local Abbreviation run :=
  (brew default_model _split fit predict _calibrate_scores
        assign_confidence pool_view).

Lemma predict_each_length (train_fdr test_fdr : Q) (max_iter : nat)
    (direction : option string) (pairs : list (loc * list (list nat))) :
  forall (it : ModelsIter ModelState) (w w' : W) ss,
    predict_each fit predict _calibrate_scores train_fdr max_iter direction
                 pairs it test_fdr w = (inr ss, w') ->
    length ss = length pairs.
Proof.
  induction pairs as [|pi rest IH]; intros it w w' ss H;
    cbn [predict_each] in H.
  - apply ret_inr in H. destruct H as (<- & _). reflexivity.
  - do 2 inv_bind H. apply ret_inr in H. destruct H as (<- & _).
    simpl. f_equal. eapply IH. eassumption.
Qed.

(** C8 fails on the code for a sequence of two or more collections:
    [brew] then raises instead of returning the results in input order. A
    single collection, given bare or as a sequence of one, yields one bare
    result when the run returns. *)
Theorem brew_result_shape :
  (forall p0 p1 rest model train_fdr test_fdr max_iter direction folds
          max_workers (w : W),
      is_ok (fst (run (Many (p0 :: p1 :: rest)) model train_fdr test_fdr
                      max_iter direction folds max_workers w)) = false) /\
  (forall p model train_fdr test_fdr max_iter direction folds max_workers
          (w : W) r,
      fst (run (One p) model train_fdr test_fdr max_iter direction folds
               max_workers w) = inr r ->
      exists c, r = Single c) /\
  (forall p model train_fdr test_fdr max_iter direction folds max_workers
          (w : W),
      run (Many [p]) model train_fdr test_fdr max_iter direction folds
          max_workers w =
      run (One p) model train_fdr test_fdr max_iter direction folds
          max_workers w).
Proof.
  split; [|split].
  - intros. apply brew_many_not_ok. simpl. lia.
  - intros p model train_fdr test_fdr max_iter direction folds max_workers
           w r H.
    destruct (run _ _ _ _ _ _ _ _ _) as [[e|r'] w'] eqn:E;
      [discriminate|].
    simpl in H. inversion H; subst r'. clear H.
    unfold brew in E. do 3 inv_bind E.
    destruct (max_workers =? 0); [discriminate|].
    do 3 inv_bind E.
    apply mapM_length in H0. apply predict_each_length in H3.
    apply mapM_length in H4.
    destruct a0 as [|i0 [|i1 irest]]; simpl in H0; try lia.
    simpl in H3. destruct a3 as [|s0 [|s1 srest]]; simpl in H3; try lia.
    simpl in H4. destruct a4 as [|c [|c' cs]]; simpl in H4; try lia.
    apply ret_inr in E. destruct E as (<- & _). eauto.
  - reflexivity.
Qed.

Lemma brew_frame (psms : PsmsArg) (model : option loc)
    (train_fdr test_fdr : Q) (max_iter : nat) (direction : option string)
    (folds max_workers : nat) (w : W) :
  let w' := snd (run psms model train_fdr test_fdr max_iter direction folds
                     max_workers w) in
  firstn (length (heap w)) (heap w') = heap w /\
  (forall l o, nth_error (heap w) l = Some o ->
               nth_error (heap w') l = Some o).
Proof.
  intros w'.
  destruct (frames_brew default_model _split fit predict _calibrate_scores
              assign_confidence pool_view train_fdr max_iter direction
              (length (heap w)) psms model test_fdr folds max_workers w
              (le_n _)) as ((Hlen & Hkeep) & _).
  fold w' in Hlen, Hkeep. rewrite firstn_all in Hkeep.
  split; [exact Hkeep|].
  intros l o Hl.
  rewrite <- (firstn_skipn (length (heap w)) (heap w')), Hkeep.
  rewrite nth_error_app1; [exact Hl|].
  apply nth_error_Some. congruence.
Qed.

(** C9. A run of [brew], whether it returns or raises, leaves every
    object that was in the store before it as it was: the input
    collections with their tables and the caller's model. The objects it
    writes to ([train_set], [test_set], the per-fold copies of the model)
    are all made during the run. *)
Theorem brew_keeps_caller_objects (psms : PsmsArg) (model : option loc)
    (train_fdr test_fdr : Q) (max_iter : nat) (direction : option string)
    (folds max_workers : nat) (w : W) :
  let w' := snd (run psms model train_fdr test_fdr max_iter direction folds
                     max_workers w) in
  firstn (length (heap w)) (heap w') = heap w /\
  (forall l o, nth_error (heap w) l = Some o ->
               nth_error (heap w') l = Some o).
Proof. apply brew_frame. Qed.

End BrewResults.

(** C1 fails on the code for two collections. With [demo_ds] and
    [pair_ds] passed together, the call of [_predict] for the second
    collection finds the iterator [models] used up and raises, on the
    sequential path and on the pool path alike: no row of either collection
    gets a score. Each collection alone is scored, row by row in its stored
    order. *)
Theorem brew_two_collections_unscored :
  fst (toy_brew pool_view_own (Many [0; 1]) (Some 2) 2 1 toy_world) =
    inl (ValueError "need at least one array to concatenate") /\
  fst (toy_brew pool_view_own (Many [0; 1]) (Some 2) 2 2 toy_world) =
    inl (ValueError "need at least one array to concatenate") /\
  fst (toy_brew pool_view_own (One 0) (Some 2) 2 1 toy_world) =
    inr (Single [(6 # 1)%Q; (10 # 1)%Q; (5 # 1)%Q]) /\
  fst (toy_brew pool_view_own (One 1) (Some 2) 2 1 toy_world) =
    inr (Single [(6 # 1)%Q; (10 # 1)%Q]).
Proof. repeat split; vm_compute; reflexivity. Qed.

(** ** [_predict]: putting the scores back in row order *)

Lemma insert_pos_perm (l : list nat) (i : nat) (s : list nat) :
  Permutation (insert_pos l i s) (i :: s).
Proof.
  induction s as [|j t IH]; simpl; [apply Permutation_refl|].
  destruct (nth i l 0 <=? nth j l 0); [apply Permutation_refl|].
  eapply perm_trans; [apply perm_skip, IH | apply perm_swap].
Qed.

Lemma argsort_perm (l : list nat) :
  Permutation (argsort l) (seq 0 (length l)).
Proof.
  unfold argsort. induction (seq 0 (length l)) as [|i xs IH]; simpl.
  - apply Permutation_refl.
  - eapply perm_trans; [apply insert_pos_perm | now apply perm_skip].
Qed.

Lemma insert_pos_sorted (l : list nat) (i : nat) (s : list nat) :
  StronglySorted (fun a b => nth a l 0 <= nth b l 0) s ->
  StronglySorted (fun a b => nth a l 0 <= nth b l 0) (insert_pos l i s).
Proof.
  induction s as [|j t IH]; intros Hs; simpl.
  - constructor; constructor.
  - apply StronglySorted_inv in Hs. destruct Hs as (Ht & Hj).
    destruct (nth i l 0 <=? nth j l 0) eqn:E.
    + apply Nat.leb_le in E. constructor.
      * now constructor.
      * constructor; [exact E|].
        eapply Forall_impl; [|exact Hj]. simpl. intros a Ha. lia.
    + apply Nat.leb_gt in E. constructor; [now apply IH|].
      eapply Permutation_Forall;
        [apply Permutation_sym, insert_pos_perm|].
      constructor; [lia | exact Hj].
Qed.

Lemma argsort_sorted (l : list nat) :
  StronglySorted (fun a b => nth a l 0 <= nth b l 0) (argsort l).
Proof.
  unfold argsort. induction (seq 0 (length l)) as [|i xs IH]; simpl.
  - constructor.
  - now apply insert_pos_sorted.
Qed.

Lemma StronglySorted_map {A B} (R : B -> B -> Prop) (f : A -> B)
    (l : list A) :
  StronglySorted (fun a b => R (f a) (f b)) l -> StronglySorted R (map f l).
Proof.
  induction 1 as [|a l Hs IH Hf]; simpl; constructor; auto.
  apply Forall_map. exact Hf.
Qed.

Lemma sorted_le_NoDup_lt (a : list nat) :
  StronglySorted le a -> NoDup a -> StronglySorted lt a.
Proof.
  induction 1 as [|x t Hs IH Hf]; intros Hnd; constructor.
  - apply IH. now inversion Hnd.
  - inversion Hnd; subst. apply Forall_forall. intros y Hy.
    eapply Forall_forall in Hf; [|exact Hy].
    assert (x <> y) by (intros ->; contradiction). lia.
Qed.

Lemma sorted_lt_unique (a b : list nat) :
  StronglySorted lt a -> StronglySorted lt b -> Permutation a b -> a = b.
Proof.
  intros Ha; revert b; induction Ha as [|x a' Ha' IH Hx];
    intros b Hb Hp.
  - apply Permutation_nil in Hp. now subst.
  - destruct b as [|y b'].
    + apply Permutation_sym, Permutation_nil in Hp. discriminate.
    + apply StronglySorted_inv in Hb. destruct Hb as (Hb' & Hy).
      assert (x = y).
      { assert (Hxin : In x (y :: b'))
          by (eapply Permutation_in; [exact Hp | now left]).
        assert (Hyin : In y (x :: a'))
          by (eapply Permutation_in;
              [apply Permutation_sym; exact Hp | now left]).
        destruct Hxin as [->|Hxin]; [reflexivity|].
        destruct Hyin as [->|Hyin]; [reflexivity|].
        eapply Forall_forall in Hy; [|exact Hxin].
        eapply Forall_forall in Hx; [|exact Hyin]. lia. }
      subst y. f_equal. apply IH; [exact Hb'|].
      eapply Permutation_cons_inv. exact Hp.
Qed.

Lemma seq_sorted_lt (s n : nat) : StronglySorted lt (seq s n).
Proof.
  revert s; induction n as [|n IH]; intros s; simpl; constructor.
  - apply IH.
  - apply Forall_forall. intros y Hy. apply in_seq in Hy. lia.
Qed.

Lemma map_nth_seq (l : list nat) :
  map (fun i => nth i l 0) (seq 0 (length l)) = l.
Proof.
  induction l as [|x l IH]; simpl; [reflexivity|].
  f_equal. rewrite <- seq_shift, map_map. exact IH.
Qed.

(** On a permutation of the row positions, [argsort] is the inverse
    permutation. *)
Lemma argsort_inverse (c : list nat) :
  Permutation c (seq 0 (length c)) ->
  map (fun i => nth i c 0) (argsort c) = seq 0 (length c).
Proof.
  intros Hc.
  assert (Hp : Permutation (map (fun i => nth i c 0) (argsort c))
                           (seq 0 (length c))).
  { eapply perm_trans; [apply Permutation_map, argsort_perm|].
    now rewrite map_nth_seq. }
  apply sorted_lt_unique; [|apply seq_sorted_lt|exact Hp].
  apply sorted_le_NoDup_lt.
  - apply StronglySorted_map with (R := le). apply argsort_sorted.
  - eapply Permutation_NoDup; [apply Permutation_sym; exact Hp|].
    apply seq_NoDup.
Qed.

(** The last two lines of [_predict]. When the concatenated test indices
    [c] are a permutation of the row positions and there is one score per
    index, the result has one score per row, and the score computed for
    the index at position [p] of [c] is the score of row [c[p]]. *)
Lemma reassemble_in_row_order (c : list nat) (all : list Q) :
  Permutation c (seq 0 (length c)) ->
  length all = length c ->
  exists out,
    take all (argsort c) = inr out /\
    length out = length c /\
    forall p, p < length c ->
              nth_error out (nth p c 0) = nth_error all p.
Proof.
  intros Hc Hlen.
  set (out := map (fun i => nth i all 0%Q) (argsort c)).
  assert (Hargs : forall i, In i (argsort c) -> i < length c).
  { intros i Hi. eapply Permutation_in in Hi; [|apply argsort_perm].
    apply in_seq in Hi. lia. }
  assert (Htake : take all (argsort c) = inr out).
  { unfold take, out. revert Hargs.
    induction (argsort c) as [|i xs IH]; intros Hargs; simpl;
      [reflexivity|].
    assert (Hi : i < length all)
      by (rewrite Hlen; apply Hargs; now left).
    destruct (nth_error all i) as [v|] eqn:E;
      [|apply nth_error_None in E; lia].
    simpl. rewrite IH by (intros j Hj; apply Hargs; now right).
    simpl. unfold ok. do 2 f_equal.
    symmetry. now apply nth_error_nth. }
  assert (Hlo : length out = length c).
  { unfold out. rewrite length_map.
    rewrite (Permutation_length (argsort_perm c)). apply length_seq. }
  exists out. split; [exact Htake|]. split; [exact Hlo|].
  intros p Hp.
  assert (Hcp : nth p c 0 < length c).
  { assert (In (nth p c 0) c) by now apply nth_In.
    eapply Permutation_in in H; [|exact Hc]. apply in_seq in H. lia. }
  pose proof (argsort_inverse c Hc) as Hinv.
  destruct (nth_error (argsort c) (nth p c 0)) as [a|] eqn:Ea.
  2:{ apply nth_error_None in Ea.
      rewrite (Permutation_length (argsort_perm c)), length_seq in Ea.
      lia. }
  assert (Ha : nth a c 0 = nth p c 0).
  { pose proof (map_nth_error (fun i => nth i c 0) _ _ Ea) as Hm.
    rewrite Hinv in Hm. apply nth_error_seq_inv in Hm. simpl in Hm.
    exact Hm. }
  assert (Hq : a = p).
  { assert (Hnd : NoDup c)
      by (eapply Permutation_NoDup;
          [apply Permutation_sym; exact Hc | apply seq_NoDup]).
    apply (proj1 (NoDup_nth c 0) Hnd); [|exact Hp|exact Ha].
    apply Hargs. eapply nth_error_In. exact Ea. }
  subst a. unfold out.
  rewrite (map_nth_error (fun i => nth i all 0%Q) _ _ Ea).
  symmetry. apply nth_error_nth'. lia.
Qed.

Section StoreReads.

Context {ModelState : Type}.
Local Abbreviation W := (World ModelState).

Lemma read_inr (l : loc) (w w' : W) o :
  read l w = (inr o, w') -> w' = w /\ nth_error (heap w) l = Some o.
Proof.
  unfold read. destruct (nth_error (heap w) l); intros H; inversion H.
  auto.
Qed.

Lemma read_data_inr (l : loc) (w w' : W) d :
  read_data l w = (inr d, w') ->
  w' = w /\ nth_error (heap w) l = Some (PsmObj d).
Proof.
  unfold read_data. intros H. inv_bind H. apply read_inr in H0.
  destruct H0 as (-> & Hl). destruct a as [d'|st]; [|discriminate].
  apply ret_inr in H. destruct H as (<- & <-). auto.
Qed.

Lemma get_data_inr (l : loc) (w w' : W) d :
  get_data l w = (inr d, w') ->
  w' = w /\ nth_error (heap w) l = Some (PsmObj (Some d)).
Proof.
  unfold get_data. intros H. inv_bind H. apply read_data_inr in H0.
  destruct H0 as (-> & Hl). destruct a as [d'|]; [|discriminate].
  apply ret_inr in H. destruct H as (<- & <-). auto.
Qed.

Lemma read_model_inr (l : loc) (w w' : W) st :
  read_model l w = (inr st, w') -> w' = w.
Proof.
  unfold read_model. intros H. inv_bind H. apply read_inr in H0.
  destruct H0 as (-> & Hl). destruct a as [d'|st']; [discriminate|].
  apply ret_inr in H. destruct H as (_ & <-). reflexivity.
Qed.

Lemma write_inr (l : loc) (o : Obj ModelState) (w w' : W) u :
  write l o w = (inr u, w') -> w' = mkWorld (set_nth (heap w) l o) (rng w).
Proof. unfold write. intros H. inversion H. reflexivity. Qed.

End StoreReads.

Lemma rmap_length {A B} (f : A -> result B) (l : list A) (ys : list B) :
  rmap f l = inr ys -> length ys = length l.
Proof.
  intros H. apply rmap_inv in H. symmetry. eapply Forall2_length. exact H.
Qed.

Lemma iloc_rows_length (idx : list nat) (d sub : DataFrame) :
  iloc_rows idx d = inr sub -> nrows sub = length idx.
Proof.
  unfold iloc_rows, rbind. destruct (rmap _ idx) as [e|rows] eqn:E;
    [discriminate|].
  intros H. inversion H. unfold nrows. simpl. now apply rmap_length in E.
Qed.

(** ** Two modelling choices, checked *)

(** [required_cols] is a Python set, iterated in an order the language
    does not fix: the renaming loop gives the same names in any order. *)
Lemma rename_required_order (cols names names' acc : list string) :
  Permutation names names' ->
  (forall c, In c names -> lower c = c /\ In c cols) ->
  map lower acc = cols ->
  rename_required cols names acc = rename_required cols names' acc.
Proof.
  intros Hp Hn Hacc.
  assert (Hn' : forall c, In c names' -> lower c = c /\ In c cols).
  { intros c Hc. apply Hn. eapply Permutation_in;
      [apply Permutation_sym; exact Hp | exact Hc]. }
  destruct (rename_required_spec cols names Hn acc Hacc)
    as (out & Hr & _ & Hset & Hfix).
  destruct (rename_required_spec cols names' Hn' acc Hacc)
    as (out' & Hr' & _ & Hset' & Hfix').
  rewrite Hr, Hr'. f_equal. apply nth_error_ext. intros i.
  destruct (existsb (fun c => match list_index c cols with
                              | Some j => j =? i
                              | None => false
                              end) names) eqn:E.
  - apply existsb_exists in E. destruct E as (c & Hc & Hi).
    destruct (list_index c cols) as [j|] eqn:Ej; [|discriminate].
    apply Nat.eqb_eq in Hi. subst j.
    destruct (Hset c Hc) as (i1 & Hi1 & Ho).
    destruct (Hset' c (Permutation_in _ Hp Hc)) as (i2 & Hi2 & Ho').
    congruence.
  - assert (Hno : forall c, In c names -> list_index c cols <> Some i).
    { intros c Hc Hi.
      assert (existsb (fun c => match list_index c cols with
                                | Some j => j =? i
                                | None => false
                                end) names = true).
      { apply existsb_exists. exists c. split; [exact Hc|].
        rewrite Hi. apply Nat.eqb_refl. }
      congruence. }
    rewrite Hfix by exact Hno. rewrite Hfix'; [reflexivity|].
    intros c Hc. apply Hno.
    eapply Permutation_in; [apply Permutation_sym; exact Hp | exact Hc].
Qed.

(** The instance of [_split] yields a partition of the row positions. *)
Lemma merge_short_concat {A} (num : nat) (chunks : list (list A)) :
  concat (merge_short num chunks) = concat chunks.
Proof.
  unfold merge_short.
  destruct (rev chunks) as [|lst [|prev init]] eqn:E; try reflexivity.
  destruct (length lst <? num); [|reflexivity].
  rewrite <- (rev_involutive chunks), E. simpl.
  rewrite !concat_app. simpl. rewrite !app_nil_r.
  now rewrite <- app_assoc.
Qed.

Lemma split_spec_partition (d : DataFrame) (folds : nat) (g g' : Rng) idx :
  split_spec d folds g = (inr idx, g') ->
  Permutation (concat idx) (seq 0 (nrows d)).
Proof.
  unfold split_spec. destruct (folds =? 0) eqn:E; [discriminate|].
  apply Nat.eqb_neq in E. intros H. inv_bind_as H sh g1 Hs.
  apply ret_inr in H. destruct H as (<- & _).
  destruct (shuffle_perm (nrows d) (seq 0 (nrows d)) g)
    as (out & g2 & Hs' & Hp & _); [apply length_seq|].
  rewrite Hs' in Hs. inversion Hs; subst.
  rewrite merge_short_concat, chunks_by_concat; [exact Hp|].
  rewrite section_sizes_sum by exact E.
  rewrite (Permutation_length Hp). now rewrite length_seq.
Qed.

(** * Further properties of dataset.py *)

(** ** [split]: the number of folds, the sizes, train against test *)

Lemma array_split_one (df : DataFrame) :
  array_split df 1 = inr [mkDF (df_columns df) (df_rows df)].
Proof.
  unfold array_split, section_sizes. cbn [Nat.eqb].
  rewrite Nat.mod_1_r, Nat.div_1_r. cbn [repeat Nat.sub app chunks_by map].
  unfold nrows. now rewrite firstn_all.
Qed.

(** X1. [split] needs at least two folds: with none the division of line 90
    raises, with one there is nothing to concatenate for the only train
    set. The random generator is not used in either case. *)
Theorem split_needs_two_folds (df : DataFrame) (ds : PsmDataset) (g : Rng) :
  built_by_init df ds ->
  split ds 0 g = (inl ZeroDivisionError, g) /\
  split ds 1 g = (inl (ValueError "No objects to concatenate"), g).
Proof.
  intros Hb. destruct (built_label _ _ Hb) as (j & Hj).
  split.
  - unfold split, bind, lift. rewrite Hj. reflexivity.
  - unfold split, bind, lift. rewrite Hj. cbn [Nat.eqb].
    rewrite array_split_one, Nat.div_1_r.
    unfold merge_tail. cbn [rev app].
    replace (nrows (mkDF (df_columns (data ds)) (df_rows (data ds))) <?
             length (column_at j (data ds))) with false.
    + reflexivity.
    + symmetry. apply Nat.ltb_ge. unfold nrows, column_at. simpl.
      now rewrite length_map.
Qed.

Lemma split_needs_two_folds_witness :
  split demo_ds 0 rng0 = (inl ZeroDivisionError, rng0) /\
  split demo_ds 1 rng0 = (inl (ValueError "No objects to concatenate"), rng0).
Proof. apply (split_needs_two_folds demo_table demo_ds rng0 demo_ds_built). Defined.

Lemma Forall2_nth_seq {A} (P : nat -> A -> Prop) (s : nat) (l : list A) :
  Forall2 P (seq s (length l)) l ->
  forall i x, nth_error l i = Some x -> P (s + i) x.
Proof.
  revert s; induction l as [|a l IH]; intros s H [|i] x Hx; simpl in *;
    try discriminate.
  - inversion H; subst. inversion Hx; subst. now rewrite Nat.add_0_r.
  - inversion H; subst. replace (s + S i) with (S s + i) by lia.
    now apply IH.
Qed.

(** X2. The folds are as even as [np.array_split] makes them: the first
    [n mod k] test partitions have [n / k + 1] rows and the others [n / k];
    every train partition has the rows its test partition lacks. *)
Theorem split_partition_sizes (df : DataFrame) (ds : PsmDataset) (k : nat)
    (g : Rng) :
  built_by_init df ds ->
  2 <= k ->
  let n := nrows (data ds) in
  exists train test g',
    split ds k g = (inr (train, test), g') /\
    map (fun t => nrows (data t)) test =
      repeat (S (n / k)) (n mod k) ++ repeat (n / k) (k - n mod k) /\
    map (fun t => nrows (data t)) train =
      repeat (n - S (n / k)) (n mod k) ++ repeat (n - n / k) (k - n mod k).
Proof.
  intros Hb Hk n.
  destruct (split_run df ds k g Hb Hk)
    as (init & lst & train & test & g' & _ & _ & _ & Hrun & Hidx & Hlen &
        Hcat & Hte & Htr).
  fold n in Hidx, Hlen, Hcat.
  set (idx := chunks_by (section_sizes n k) (seq 0 n)) in *.
  set (splits := init ++ [lst]) in *.
  assert (Hsizes : map nrows splits = section_sizes n k).
  { rewrite Hidx, map_map.
    transitivity (map (@length nat) idx).
    - apply map_ext. intros ix. unfold nrows, rows_at. simpl.
      apply length_map.
    - unfold idx. apply chunks_by_sizes.
      rewrite length_seq. apply section_sizes_sum. lia. }
  assert (Htotal : length (concat (map df_rows splits)) = n).
  { rewrite Hidx, map_map. simpl.
    rewrite <- (map_map (rows_at (df_rows (data ds))) (@id (list Row))).
    rewrite map_id, <- rows_at_concat, Hcat.
    unfold rows_at. now rewrite length_map, length_seq. }
  assert (Hks : length splits = k).
  { rewrite Hidx, length_map. exact Hlen. }
  exists train, test, g'. split; [exact Hrun|]. split.
  - fold (section_sizes n k). rewrite <- Hsizes.
    clear -Hte. induction Hte as [|s t ss ts Hst _ IH]; simpl;
      [reflexivity|].
    f_equal; [|exact IH].
    apply built_by_init_spec in Hst. destruct Hst as (Hp & _).
    unfold nrows. now apply Permutation_length.
  - assert (Htrain : map (fun t => nrows (data t)) train =
                     map (fun s => n - s) (section_sizes n k)).
    { rewrite <- Hsizes.
      apply nth_error_ext. intros i.
      rewrite !nth_error_map.
      assert (Hlt : length train = k).
      { apply Forall2_length in Htr. now rewrite length_seq in Htr. }
      destruct (nth_error train i) as [tr|] eqn:Ei.
      - assert (Hi : i < k) by (rewrite <- Hlt; apply nth_error_Some;
                                congruence).
        rewrite <- Hlt in Htr.
        pose proof (Forall2_nth_seq _ 0 train Htr i tr Ei) as Hbi.
        simpl in Hbi. apply built_by_init_spec in Hbi.
        destruct Hbi as (Hp & _). simpl in Hp.
        apply Permutation_length in Hp.
        destruct (nth_error splits i) as [s|] eqn:Es;
          [|apply nth_error_None in Es; lia].
        simpl. f_equal.
        pose proof (train_rows_length splits i ltac:(lia)) as Hl.
        rewrite (nth_error_nth _ _ _ Es), Htotal in Hl.
        unfold nrows at 1. lia.
      - apply nth_error_None in Ei.
        destruct (nth_error splits i) eqn:Es; [|reflexivity].
        assert (i < length splits) by (apply nth_error_Some; congruence).
        lia. }
    rewrite Htrain. unfold section_sizes. now rewrite map_app, !map_repeat.
Qed.

Lemma split_partition_sizes_witness :
  let n := nrows (data demo_ds) in
  exists train test g',
    split demo_ds 2 rng1 = (inr (train, test), g') /\
    map (fun t => nrows (data t)) test =
      repeat (S (n / 2)) (n mod 2) ++ repeat (n / 2) (2 - n mod 2) /\
    map (fun t => nrows (data t)) train =
      repeat (n - S (n / 2)) (n mod 2) ++ repeat (n - n / 2) (2 - n mod 2).
Proof.
  apply (split_partition_sizes demo_table demo_ds 2 rng1 demo_ds_built).
  lia.
Defined.

Lemma map_firstn_skipn {A B} (f : A -> B) (i j : nat) (l : list A) :
  map f (firstn i l ++ skipn j l) =
  firstn i (map f l) ++ skipn j (map f l).
Proof. now rewrite map_app, firstn_map, skipn_map. Qed.

Lemma concat_without_middle {A} (ls : list (list A)) (i : nat) (x : list A) :
  nth_error ls i = Some x ->
  Permutation (concat (firstn i ls ++ skipn (S i) ls) ++ x) (concat ls).
Proof.
  intros E. rewrite <- (firstn_skipn_middle _ _ E) at 3.
  rewrite !concat_app. simpl.
  rewrite <- app_assoc. apply Permutation_app_head.
  apply Permutation_app_comm.
Qed.

(** X3. Within a fold, the train and the test partition split the rows of the
    collection: there are two lists of row positions, together every
    position once, such that the train partition holds the rows at the
    first and the test partition the rows at the second. *)
Theorem split_fold_complement (df : DataFrame) (ds : PsmDataset) (k : nat)
    (g : Rng) :
  built_by_init df ds ->
  2 <= k ->
  let rows := df_rows (data ds) in
  exists train test g',
    split ds k g = (inr (train, test), g') /\
    forall i tr te,
      nth_error train i = Some tr ->
      nth_error test i = Some te ->
      exists tr_pos te_pos,
        Permutation (tr_pos ++ te_pos) (seq 0 (length rows)) /\
        Permutation (df_rows (data tr)) (rows_at rows tr_pos) /\
        Permutation (df_rows (data te)) (rows_at rows te_pos) /\
        Permutation (df_rows (data tr) ++ df_rows (data te)) rows.
Proof.
  intros Hb Hk rows.
  destruct (split_run df ds k g Hb Hk)
    as (init & lst & train & test & g' & _ & _ & _ & Hrun & Hidx & Hlen &
        Hcat & Hte & Htr).
  set (n := nrows (data ds)) in *.
  set (idx := chunks_by (section_sizes n k) (seq 0 n)) in *.
  set (splits := init ++ [lst]) in *.
  assert (Hrows : map df_rows splits = map (rows_at rows) idx).
  { rewrite Hidx, map_map. reflexivity. }
  exists train, test, g'. split; [exact Hrun|].
  intros i tr te Htri Htei.
  assert (Hlt : length train = k).
  { apply Forall2_length in Htr. now rewrite length_seq in Htr. }
  assert (Hi : i < k)
    by (rewrite <- Hlt; apply nth_error_Some; congruence).
  destruct (nth_error idx i) as [ix|] eqn:Eix;
    [|apply nth_error_None in Eix; lia].
  exists (concat (firstn i idx ++ skipn (S i) idx)), ix.
  assert (Hpos : Permutation (concat (firstn i idx ++ skipn (S i) idx) ++ ix)
                             (seq 0 (length rows))).
  { eapply perm_trans; [apply concat_without_middle; exact Eix|].
    rewrite Hcat. apply Permutation_refl. }
  assert (Htrp : Permutation (df_rows (data tr))
                   (rows_at rows (concat (firstn i idx ++ skipn (S i) idx)))).
  { rewrite <- Hlt in Htr.
    pose proof (Forall2_nth_seq _ 0 train Htr i tr Htri) as Hbi.
    simpl in Hbi. apply built_by_init_spec in Hbi.
    destruct Hbi as (Hp & _). simpl in Hp.
    unfold train_rows in Hp. rewrite map_firstn_skipn, Hrows in Hp.
    rewrite <- map_firstn_skipn, <- rows_at_concat in Hp. exact Hp. }
  assert (Htep : Permutation (df_rows (data te)) (rows_at rows ix)).
  { destruct (Forall2_nth_error_r _ _ _ _ _ Hte Htei) as (s & Hs & Hbs).
    apply built_by_init_spec in Hbs. destruct Hbs as (Hp & _).
    assert (Hsx : df_rows s = rows_at rows ix).
    { pose proof (map_nth_error df_rows _ _ Hs) as H1.
      rewrite Hrows in H1.
      rewrite (map_nth_error (rows_at rows) _ _ Eix) in H1.
      now inversion H1. }
    now rewrite <- Hsx. }
  repeat split; auto.
  eapply perm_trans; [apply Permutation_app; eassumption|].
  unfold rows_at. rewrite <- map_app.
  eapply perm_trans; [apply Permutation_map; exact Hpos|].
  apply Permutation_refl'. apply rows_at_all.
Qed.

Lemma split_fold_complement_witness :
  let rows := df_rows (data demo_ds) in
  exists train test g',
    split demo_ds 3 rng1 = (inr (train, test), g') /\
    forall i tr te,
      nth_error train i = Some tr ->
      nth_error test i = Some te ->
      exists tr_pos te_pos,
        Permutation (tr_pos ++ te_pos) (seq 0 (length rows)) /\
        Permutation (df_rows (data tr)) (rows_at rows tr_pos) /\
        Permutation (df_rows (data te)) (rows_at rows te_pos) /\
        Permutation (df_rows (data tr) ++ df_rows (data te)) rows.
Proof.
  apply (split_fold_complement demo_table demo_ds 3 rng1 demo_ds_built).
  lia.
Defined.

(** ** The column names of a constructed collection *)

Lemma built_canonical (df : DataFrame) (ds : PsmDataset) :
  built_by_init df ds -> canonical_cols (df_columns (data ds)).
Proof.
  intros Hb. apply built_by_init_spec in Hb.
  destruct Hb as (_ & (_ & Hset & _) & Hlow & _).
  intros c Hc. destruct (Hset c Hc) as (i & Hi & Hn).
  exists i. now rewrite Hlow.
Qed.

Lemma init_keeps_canonical (d : DataFrame) (p : PsmDataset) :
  canonical_cols (df_columns d) ->
  built_by_init d p ->
  df_columns (data p) = df_columns d.
Proof.
  intros Hcan Hb. apply built_by_init_spec in Hb.
  destruct Hb as (_ & (Hlen & Hset & Hfix) & _ & _).
  apply nth_error_ext. intros i.
  destruct (existsb (fun c => match list_index c (map lower (df_columns d))
                              with
                              | Some j => j =? i
                              | None => false
                              end) required_cols) eqn:E.
  - apply existsb_exists in E. destruct E as (c & Hc & Hi).
    destruct (list_index c (map lower (df_columns d))) as [j|] eqn:Ej;
      [|discriminate].
    apply Nat.eqb_eq in Hi. subst j.
    destruct (Hset c Hc) as (i1 & Hi1 & Ho).
    destruct (Hcan c Hc) as (i2 & Hi2 & Ho').
    congruence.
  - apply Hfix. intros c Hc Hi.
    assert (existsb (fun c => match list_index c (map lower (df_columns d))
                              with
                              | Some j => j =? i
                              | None => false
                              end) required_cols = true).
    { apply existsb_exists. exists c. split; [exact Hc|].
      rewrite Hi. apply Nat.eqb_refl. }
    congruence.
Qed.

(** X4. The constructor changes no name of a table that a constructor
    returned, and so every train and test partition of [split] has the
    column names of the collection it comes from. *)
Theorem split_keeps_columns (df : DataFrame) (ds : PsmDataset) (k : nat)
    (g : Rng) :
  built_by_init df ds ->
  2 <= k ->
  (forall ds', built_by_init (data ds) ds' ->
               df_columns (data ds') = df_columns (data ds)) /\
  exists train test g',
    split ds k g = (inr (train, test), g') /\
    Forall (fun t => df_columns (data t) = df_columns (data ds))
           (train ++ test).
Proof.
  intros Hb Hk. pose proof (built_canonical _ _ Hb) as Hcan.
  split; [intros ds' Hb'; now apply init_keeps_canonical|].
  destruct (split_run df ds k g Hb Hk)
    as (init & lst & train & test & g' & _ & _ & _ & Hrun & Hidx & Hlen &
        Hcat & Hte & Htr).
  exists train, test, g'. split; [exact Hrun|].
  apply Forall_app. split.
  - apply Forall_forall. intros tr Hin.
    apply In_nth_error in Hin. destruct Hin as (i & Hi).
    destruct (Forall2_nth_error_r _ _ _ _ _ Htr Hi) as (j & _ & Hbj).
    now apply init_keeps_canonical in Hbj.
  - apply Forall_forall. intros te Hin.
    apply In_nth_error in Hin. destruct Hin as (i & Hi).
    destruct (Forall2_nth_error_r _ _ _ _ _ Hte Hi) as (s & Hs & Hbs).
    apply nth_error_In in Hs. rewrite Hidx in Hs.
    apply in_map_iff in Hs. destruct Hs as (ix & <- & _).
    now apply init_keeps_canonical in Hbs.
Qed.

Lemma split_keeps_columns_witness :
  (forall ds', built_by_init (data demo_ds) ds' ->
               df_columns (data ds') = df_columns (data demo_ds)) /\
  exists train test g',
    split demo_ds 2 rng1 = (inr (train, test), g') /\
    Forall (fun t => df_columns (data t) = df_columns (data demo_ds))
           (train ++ test).
Proof.
  apply (split_keeps_columns demo_table demo_ds 2 rng1 demo_ds_built).
  lia.
Defined.

(** ** [features], [label] and [dual] of a constructed collection *)

Lemma built_has_required (df : DataFrame) (ds : PsmDataset) :
  built_by_init df ds -> has_required (data ds).
Proof.
  intros Hb. destruct (built_by_init_spec _ _ Hb) as (_ & _ & Hl & Hr).
  eapply has_required_lower; [|exact Hr]. symmetry. exact Hl.
Qed.

Lemma required_index (d : DataFrame) (c : string) :
  has_required d -> In c required_cols ->
  exists i, list_index c (columns d) = Some i.
Proof.
  intros Hr Hc. apply list_index_Some. unfold columns.
  destruct (Hr c Hc) as (n & Hn & <-). now apply in_map.
Qed.

(** X5. On a constructed collection [features] never raises: it is the slice
    of the columns after [calcmass] when there is such a column, after
    [scannr] otherwise, and before [peptide], over all the rows. *)
Theorem features_of_constructed (df : DataFrame) (ds : PsmDataset) :
  built_by_init df ds ->
  exists i b,
    list_index (if mem_str "calcmass" (columns (data ds))
                then "calcmass" else "scannr")
               (columns (data ds)) = Some i /\
    list_index "peptide" (columns (data ds)) = Some b /\
    features ds = inr (iloc_cols (S i) b (data ds)) /\
    nrows (iloc_cols (S i) b (data ds)) = nrows df /\
    df_columns (iloc_cols (S i) b (data ds)) =
      slice (S i) b (df_columns (data ds)).
Proof.
  intros Hb. pose proof (built_has_required _ _ Hb) as Hr.
  destruct (required_index _ "peptide" Hr) as (b & Hbi);
    [simpl; auto|].
  destruct (required_index _ "scannr" Hr) as (s & Hs);
    [simpl; auto|].
  assert (Hn : nrows (data ds) = nrows df).
  { apply built_by_init_spec in Hb. destruct Hb as (Hp & _).
    unfold nrows. now apply Permutation_length. }
  destruct (mem_str "calcmass" (columns (data ds))) eqn:Ec.
  - apply mem_str_In in Ec. destruct (list_index_Some _ _ Ec) as (i & Hi).
    exists i, b. unfold features, index_or_raise, rbind.
    rewrite Hbi. apply mem_str_In in Ec. rewrite Ec, Hi.
    repeat split; auto.
    unfold nrows, iloc_cols. simpl. rewrite length_map. exact Hn.
  - exists s, b. unfold features, index_or_raise, rbind.
    rewrite Hbi, Ec, Hs. repeat split; auto.
    unfold nrows, iloc_cols. simpl. rewrite length_map. exact Hn.
Qed.

Lemma features_of_constructed_witness :
  exists i b,
    list_index (if mem_str "calcmass" (columns (data demo_ds))
                then "calcmass" else "scannr")
               (columns (data demo_ds)) = Some i /\
    list_index "peptide" (columns (data demo_ds)) = Some b /\
    features demo_ds = inr (iloc_cols (S i) b (data demo_ds)) /\
    nrows (iloc_cols (S i) b (data demo_ds)) = nrows demo_table /\
    df_columns (iloc_cols (S i) b (data demo_ds)) =
      slice (S i) b (df_columns (data demo_ds)).
Proof.
  apply (features_of_constructed demo_table demo_ds demo_ds_built).
Defined.

Lemma list_index_lower_exact (c : string) (l : list string) (i : nat) :
  lower c = c ->
  list_index c (map lower l) = Some i ->
  nth_error l i = Some c ->
  list_index c l = Some i.
Proof.
  intros Hc. revert i; induction l as [|y t IH]; intros i Hi Hn;
    simpl in *; [discriminate|].
  destruct (String.eqb c (lower y)) eqn:E.
  - inversion Hi; subst. simpl in Hn. inversion Hn; subst.
    now rewrite String.eqb_refl.
  - destruct (list_index c (map lower t)) as [j|] eqn:Ej; [|discriminate].
    inversion Hi; subst. simpl in Hn.
    destruct (String.eqb c y) eqn:E'.
    + apply String.eqb_eq in E'. subst y.
      rewrite Hc, String.eqb_refl in E. discriminate.
    + now rewrite (IH j eq_refl Hn).
Qed.

(** X6. The label vector of a constructed collection is the column of the
    input table that matches [label] up to case, in the stored order of the
    rows: one label per row, the same labels as in the input. (With two
    columns named [label] pandas returns a two-dimensional array; the
    property is for tables whose column names differ up to case.) *)
Theorem label_of_constructed (df : DataFrame) (ds : PsmDataset) :
  built_by_init df ds ->
  NoDup (map lower (df_columns df)) ->
  exists j,
    list_index "label" (map lower (df_columns df)) = Some j /\
    label ds = inr (column_at j (data ds)) /\
    Permutation (column_at j (data ds)) (column_at j df) /\
    length (column_at j (data ds)) = nrows df.
Proof.
  intros Hb _. destruct (built_by_init_spec _ _ Hb)
    as (Hp & (_ & Hset & _) & Hlow & _).
  destruct (Hset "label") as (j & Hj & Hn); [simpl; auto|].
  exists j. split; [exact Hj|].
  assert (Hl : list_index "label" (df_columns (data ds)) = Some j).
  { apply list_index_lower_exact; [reflexivity| |exact Hn].
    now rewrite Hlow. }
  split; [unfold label; now rewrite Hl|]. split.
  - unfold column_at. now apply Permutation_map.
  - unfold column_at. rewrite length_map.
    unfold nrows. now apply Permutation_length.
Qed.

Lemma label_of_constructed_witness :
  exists j,
    list_index "label" (map lower (df_columns demo_table)) = Some j /\
    label demo_ds = inr (column_at j (data demo_ds)) /\
    Permutation (column_at j (data demo_ds)) (column_at j demo_table) /\
    length (column_at j (data demo_ds)) = nrows demo_table.
Proof.
  apply (label_of_constructed demo_table demo_ds demo_ds_built).
  repeat constructor; simpl; intuition discriminate.
Defined.

(** X7. The constructor keeps the shape of the table, so [dual] of a
    constructed collection tells whether the input table had no more rows
    than columns. *)
Theorem dual_of_constructed (df : DataFrame) (ds : PsmDataset) :
  built_by_init df ds ->
  dual ds = (nrows df <=? length (df_columns df)).
Proof.
  intros Hb. destruct (built_by_init_spec _ _ Hb)
    as (Hp & (Hlen & _) & _ & _).
  unfold dual, nrows. now rewrite (Permutation_length Hp), Hlen.
Qed.

Lemma dual_of_constructed_witness :
  dual demo_ds = (nrows demo_table <=? length (df_columns demo_table)).
Proof. apply (dual_of_constructed demo_table demo_ds demo_ds_built). Defined.

(** ** [find_best_feature]: the count, ties, and errors *)

Lemma demoted_targets_left (lab : list Cell) (q : list Q) (fdr : Q) :
  length (filter is_target (demoted lab q fdr)) = passing_targets lab q fdr.
Proof.
  unfold demoted, passing_targets.
  revert q; induction lab as [|l lab IH]; intros [|v q]; simpl; auto.
  destruct (is_target l) eqn:El; simpl.
  - destruct (Qle_bool v fdr); simpl.
    + rewrite El. simpl. now rewrite IH.
    + apply IH.
  - rewrite El. apply IH.
Qed.

Lemma passing_le_targets (lab : list Cell) (q : list Q) (fdr : Q) :
  passing_targets lab q fdr <= length (filter is_target lab).
Proof.
  unfold passing_targets.
  revert q; induction lab as [|l lab IH]; intros [|v q]; simpl; try lia.
  specialize (IH q).
  destruct (is_target l); simpl; [destruct (Qle_bool v fdr); simpl|]; lia.
Qed.

(** X8. The count [find_best_feature] returns is the number of labels still 1
    in the label vector it returns, and it is at most the number of
    targets of the collection. *)
Theorem find_best_feature_count_is_targets_left
    (tdc : list Cell -> list Q -> result (list Q))
    (tdc_length : forall s t q, tdc s t = inr q -> length q = length s)
    (ds : PsmDataset) (fdr : Q)
    (feats : DataFrame) (lab : list Cell) (target01 : list Q) :
  features ds = inr feats ->
  label ds = inr lab ->
  to_target lab = inr target01 ->
  NoDup (df_columns feats) ->
  df_columns feats <> [] ->
  (forall j, j < length (df_columns feats) ->
             exists q, tdc (column_at j feats) target01 = inr q) ->
  exists best cnt target,
    find_best_feature tdc ds fdr = inr (best, cnt, target) /\
    length (filter is_target target) = cnt /\
    cnt <= length (filter is_target lab).
Proof.
  intros Hfeat Hlab Htarget Hnd Hne Hall.
  destruct (find_best_feature_run tdc tdc_length ds fdr feats lab target01
              Hfeat Hlab Htarget Hnd Hne Hall)
    as (qvals & pre & best & qbest & post & _ & _ & _ & _ & _ & _ & Hrun).
  exists best, (passing_targets lab qbest fdr), (demoted lab qbest fdr).
  split; [exact Hrun|]. split.
  - apply demoted_targets_left.
  - apply passing_le_targets.
Qed.

Lemma find_best_feature_count_is_targets_left_witness :
  exists best cnt target,
    find_best_feature tdc_spec wide_ds (1 # 2)%Q = inr (best, cnt, target) /\
    length (filter is_target target) = cnt /\
    cnt <= length (filter is_target wide_lab).
Proof.
  apply (find_best_feature_count_is_targets_left tdc_spec tdc_spec_length
           wide_ds (1 # 2)%Q wide_feats wide_lab wide_target01).
  - reflexivity.
  - reflexivity.
  - reflexivity.
  - repeat constructor; simpl; intuition discriminate.
  - discriminate.
  - intros [|[|j]] Hj.
    + eexists. vm_compute. reflexivity.
    + eexists. vm_compute. reflexivity.
    + simpl in Hj. lia.
Defined.

(** X9. Among feature columns with the same largest count, the first in
    column order is chosen: every column before the chosen one has a
    strictly smaller count. *)
Theorem find_best_feature_first_of_ties
    (tdc : list Cell -> list Q -> result (list Q))
    (tdc_length : forall s t q, tdc s t = inr q -> length q = length s)
    (ds : PsmDataset) (fdr : Q)
    (feats : DataFrame) (lab : list Cell) (target01 : list Q) :
  features ds = inr feats ->
  label ds = inr lab ->
  to_target lab = inr target01 ->
  NoDup (df_columns feats) ->
  df_columns feats <> [] ->
  (forall j, j < length (df_columns feats) ->
             exists q, tdc (column_at j feats) target01 = inr q) ->
  exists jbest best qbest target,
    find_best_feature tdc ds fdr =
      inr (best, passing_targets lab qbest fdr, target) /\
    nth_error (df_columns feats) jbest = Some best /\
    tdc (column_at jbest feats) target01 = inr qbest /\
    forall j q, j < jbest ->
                tdc (column_at j feats) target01 = inr q ->
                passing_targets lab q fdr < passing_targets lab qbest fdr.
Proof.
  intros Hfeat Hlab Htarget Hnd Hne Hall.
  destruct (find_best_feature_run tdc tdc_length ds fdr feats lab target01
              Hfeat Hlab Htarget Hnd Hne Hall)
    as (qvals & pre & best & qbest & post & Hq & Hnames & _ & Hqv &
        Hpre & _ & Hrun).
  destruct (apply_tdc_columns tdc feats target01 qvals Hq) as (Hcol & _).
  assert (Hat : nth_error qvals (length pre) = Some (best, qbest)).
  { rewrite Hqv, nth_error_app2, Nat.sub_diag by lia. reflexivity. }
  assert (Hname : nth_error (df_columns feats) (length pre) = Some best).
  { rewrite <- Hnames. now rewrite (map_nth_error fst _ _ Hat). }
  exists (length pre), best, qbest, (demoted lab qbest fdr).
  split; [exact Hrun|]. split; [exact Hname|]. split.
  - destruct (Hcol _ _ Hname) as (q' & Hq' & Hn').
    rewrite Hat in Hn'. now inversion Hn'; subst.
  - intros j q Hj Hjq.
    destruct (nth_error (df_columns feats) j) as [name|] eqn:En.
    + destruct (Hcol j name En) as (q' & Hq' & Hnth).
      assert (q' = q) by congruence. subst q'.
      rewrite Hqv, nth_error_app1 in Hnth by exact Hj.
      apply nth_error_In in Hnth. now apply Hpre in Hnth.
    + apply nth_error_None in En.
      assert (length pre < length (df_columns feats))
        by (apply nth_error_Some; congruence).
      lia.
Qed.

Example tie_best_feature :
  find_best_feature tdc_spec tie_ds (1 # 2)%Q =
  inr ("f1", 2, [Num 1; Num (-1 # 1); Num 1; Num 0]).
Proof. vm_compute. reflexivity. Qed.

Lemma find_best_feature_first_of_ties_witness :
  exists jbest best qbest target,
    find_best_feature tdc_spec tie_ds (1 # 2)%Q =
      inr (best, passing_targets tie_lab qbest (1 # 2)%Q, target) /\
    nth_error (df_columns tie_feats) jbest = Some best /\
    tdc_spec (column_at jbest tie_feats) tie_target01 = inr qbest /\
    forall j q, j < jbest ->
                tdc_spec (column_at j tie_feats) tie_target01 = inr q ->
                passing_targets tie_lab q (1 # 2)%Q <
                passing_targets tie_lab qbest (1 # 2)%Q.
Proof.
  apply (find_best_feature_first_of_ties tdc_spec tdc_spec_length tie_ds
           (1 # 2)%Q tie_feats tie_lab tie_target01).
  - reflexivity.
  - reflexivity.
  - reflexivity.
  - repeat constructor; simpl; intuition discriminate.
  - discriminate.
  - intros [|[|j]] Hj.
    + eexists. vm_compute. reflexivity.
    + eexists. vm_compute. reflexivity.
    + simpl in Hj. lia.
Defined.

(** X10. Without a feature column (no column between [scannr] and [peptide])
    [find_best_feature] raises, whatever [tdc] is. *)
Theorem find_best_feature_without_features
    (tdc : list Cell -> list Q -> result (list Q))
    (ds : PsmDataset) (fdr : Q) (feats : DataFrame) :
  features ds = inr feats ->
  df_columns feats = [] ->
  is_ok (find_best_feature tdc ds fdr) = false.
Proof.
  intros Hfeat Hcols. unfold find_best_feature.
  rewrite Hfeat. cbn [rbind].
  destruct (label ds) as [e|lab]; [reflexivity|]. cbn [rbind].
  destruct (to_target lab) as [e|t]; [reflexivity|]. cbn [rbind].
  unfold apply_tdc. rewrite Hcols. reflexivity.
Qed.

Lemma find_best_feature_without_features_witness :
  is_ok (find_best_feature tdc_spec bare_ds fdr_1pct) = false.
Proof.
  apply (find_best_feature_without_features tdc_spec bare_ds fdr_1pct
           (mkDF [] [[]; []])).
  - reflexivity.
  - reflexivity.
Defined.




(** * Further properties of brew.py *)

Lemma bind_ok {S A B} (m : M S A) (k : A -> M S B) (s s1 : S) (a : A) :
  m s = (inr a, s1) -> bind m k s = k a s1.
Proof. unfold bind. now intros ->. Qed.

Lemma bind_err {S A B} (m : M S A) (k : A -> M S B) (s s1 : S) (e : Exn) :
  m s = (inl e, s1) -> bind m k s = (inl e, s1).
Proof. unfold bind. now intros ->. Qed.

Section BrewEdges.

Context {ModelState Conf : Type}.
Variable default_model : ModelState.
Variable _split : DataFrame -> nat -> M Rng (list (list nat)).
Variable fit :
  ModelState -> option DataFrame -> Q -> nat -> option string ->
  result ModelState.
Variable predict : ModelState -> DataFrame -> result (list Q).
Variable _calibrate_scores : DataFrame -> list Q -> Q -> result (list Q).
Variable assign_confidence : DataFrame -> list Q -> result Conf.
Variable pool_view : nat -> list DataFrame -> option DataFrame.

Local Abbreviation W := (World ModelState).

Lemma deepcopy_ok (m : loc) (w : W) :
  m < length (heap w) ->
  exists c w', deepcopy m w = (inr c, w') /\
               length (heap w) <= length (heap w').
Proof.
  intros Hm. unfold deepcopy, read, alloc, bind.
  destruct (nth_error (heap w) m) as [o|] eqn:E;
    [|apply nth_error_None in E; lia].
  eexists _, _. split; [reflexivity|]. simpl. rewrite length_app. lia.
Qed.

Lemma copies_ok (m : loc) (l : list nat) :
  forall w : W,
    m < length (heap w) ->
    exists cs w', mapM (fun _ : nat => deepcopy m) l w = (inr cs, w').
Proof.
  induction l as [|x l IH]; intros w Hm; cbn [mapM].
  - eexists _, _. reflexivity.
  - destruct (deepcopy_ok m w Hm) as (c & w1 & Hc & Hle).
    destruct (IH w1 ltac:(lia)) as (cs & w2 & Hcs).
    exists (c :: cs), w2.
    rewrite (bind_ok _ _ _ _ _ Hc), (bind_ok _ _ _ _ _ Hcs). reflexivity.
Qed.

(** X12. [ProcessPoolExecutor(max_workers=0)] raises: with [max_workers = 0]
    [brew] returns no result, whatever the collections and the model. *)
Theorem brew_zero_workers (psms : PsmsArg) (model : option loc)
    (train_fdr test_fdr : Q) (max_iter : nat) (direction : option string)
    (folds : nat) (w : W) :
  is_ok (fst (brew default_model _split fit predict _calibrate_scores
                   assign_confidence pool_view psms model train_fdr
                   test_fdr max_iter direction folds 0 w)) = false.
Proof.
  destruct (brew _ _ _ _ _ _ _ _ _ _ _ _ _ _ _ _) as [[e|r] w'] eqn:E;
    [reflexivity|exfalso].
  unfold brew in E. do 3 inv_bind E. cbn [Nat.eqb] in E. discriminate.
Qed.

(** X13. [brew] on an empty list of collections: with one worker the lazy
    [map] is never asked for a model and the result is the empty list;
    with more workers [prc.map] runs the generator [_make_train_sets],
    whose first statement [psms[0]] raises [IndexError]. *)
Theorem brew_no_collections (model : option loc) (train_fdr test_fdr : Q)
    (max_iter : nat) (direction : option string)
    (folds max_workers : nat) (w : W) :
  (forall m, model = Some m -> m < length (heap w)) ->
  fst (brew default_model _split fit predict _calibrate_scores
            assign_confidence pool_view (Many []) model train_fdr test_fdr
            max_iter direction folds 1 w) = inr (Results []) /\
  (2 <= max_workers ->
   fst (brew default_model _split fit predict _calibrate_scores
             assign_confidence pool_view (Many []) model train_fdr test_fdr
             max_iter direction folds max_workers w) =
   inl (IndexError "list index out of range")).
Proof.
  intros Hmodel.
  assert (Hstart : exists m (w1 : W),
             match model with
             | None => alloc (ModelObj default_model)
             | Some m => ret m
             end w = (inr m, w1) /\ m < length (heap w1)).
  { destruct model as [m|].
    - exists m, w. split; [reflexivity|]. now apply Hmodel.
    - eexists _, _. split; [reflexivity|]. simpl. rewrite length_app.
      simpl. lia. }
  destruct Hstart as (m & w1 & Hm & Hlt).
  destruct (copies_ok m (seq 0 folds) w1 Hlt) as (cs & w2 & Hcs).
  split.
  - unfold brew. rewrite (bind_ok _ _ _ _ _ Hm). cbn [mapM].
    rewrite (bind_ok (ret []) _ w1 w1 [] eq_refl).
    rewrite (bind_ok _ _ _ _ _ Hcs). reflexivity.
  - intros Hmw. unfold brew. rewrite (bind_ok _ _ _ _ _ Hm). cbn [mapM].
    rewrite (bind_ok (ret []) _ w1 w1 [] eq_refl).
    rewrite (bind_ok _ _ _ _ _ Hcs).
    destruct max_workers as [|[|k]]; [lia|lia|]. cbn [Nat.eqb].
    erewrite bind_err; [reflexivity|].
    unfold pool_map. erewrite bind_err; [reflexivity|].
    destruct cs as [|c cs']; cbn [pool_collect];
      (erewrite bind_err; [reflexivity|]); reflexivity.
Qed.

End BrewEdges.

Lemma brew_no_collections_witness :
  fst (toy_brew pool_view_own (Many []) (Some 2) 2 1 toy_world) =
    inr (Results []) /\
  (2 <= 3 ->
   fst (toy_brew pool_view_own (Many []) (Some 2) 2 3 toy_world) =
   inl (IndexError "list index out of range")).
Proof.
  apply (brew_no_collections 0 split_spec toy_fit toy_predict toy_calibrate
           toy_confidence pool_view_own (Some 2) fdr_1pct fdr_1pct 10 None
           2 3 toy_world).
  intros m Hm. inversion Hm. simpl. lia.
Defined.

(** ** [_make_train_sets]: the table of a fold *)

Lemma set_diff_In (j i : list nat) (r : nat) :
  In r (set_diff j i) <-> In r j /\ ~ In r i.
Proof.
  unfold set_diff. rewrite filter_In. split; intros (Hj & Hi); split; auto.
  - intros Hin. apply negb_true_iff in Hi.
    assert (existsb (Nat.eqb r) i = true)
      by (apply existsb_exists; exists r; split;
          [exact Hin | apply Nat.eqb_refl]).
    congruence.
  - apply negb_true_iff. destruct (existsb (Nat.eqb r) i) eqn:E;
      [|reflexivity].
    apply existsb_exists in E. destruct E as (x & Hx & Ex).
    apply Nat.eqb_eq in Ex. subst x. contradiction.
Qed.

Lemma set_nth_twice {A} (l : list A) (i : nat) (a b : A) :
  set_nth (set_nth l i a) i b = set_nth l i b.
Proof.
  revert i; induction l as [|x l IH]; intros [|i]; simpl; auto.
  now rewrite IH.
Qed.

Lemma iloc_rows_in_range (ix : list nat) (d : DataFrame) :
  (forall r, In r ix -> r < nrows d) ->
  iloc_rows ix d = inr (mkDF (df_columns d) (rows_at (df_rows d) ix)).
Proof.
  intros Hin. unfold iloc_rows.
  assert (E : rmap (fun i => match nth_error (df_rows d) i with
                             | Some r => ok r
                             | None =>
                                 raise (IndexError
                                   "positional indexers are out-of-bounds")
                             end) ix = inr (rows_at (df_rows d) ix)).
  { induction ix as [|i ix IH]; simpl; [reflexivity|].
    assert (Hi : i < nrows d) by (apply Hin; now left).
    destruct (nth_error (df_rows d) i) as [r|] eqn:Er;
      [|apply nth_error_None in Er; unfold nrows in Hi; lia].
    simpl. rewrite IH by (intros r' Hr'; apply Hin; now right). simpl.
    unfold ok. do 2 f_equal. symmetry. now apply nth_error_nth. }
  rewrite E. reflexivity.
Qed.

Section TrainSets.

Context {ModelState : Type}.
Local Abbreviation W := (World ModelState).

Lemma get_data_ok (p : loc) (d : DataFrame) (w : W) :
  nth_error (heap w) p = Some (PsmObj (Some d)) ->
  get_data p w = (inr d, w).
Proof.
  intros H. unfold get_data, read_data, read, bind. rewrite H. reflexivity.
Qed.

Lemma holds_tables_set_nth (w : W) (psms : list loc) (ds : list DataFrame)
    (ts : loc) (o : Obj ModelState) :
  holds_tables w psms ds -> ~ In ts psms ->
  holds_tables (mkWorld (set_nth (heap w) ts o) (rng w)) psms ds.
Proof.
  unfold holds_tables. induction 1 as [|p d psms ds Hp Hf IH]; intros Hts;
    constructor.
  - simpl. rewrite set_nth_other; [exact Hp|]. intros ->. apply Hts.
    now left.
  - apply IH. intros Hin. apply Hts. now right.
Qed.

Lemma all_idx_ok (psms : list loc) (ds : list DataFrame) (w : W) :
  holds_tables w psms ds ->
  mapM (fun p => d <- get_data p ;; ret (seq 0 (nrows d))) psms w =
  (inr (map (fun d => seq 0 (nrows d)) ds), w).
Proof.
  unfold holds_tables. induction 1 as [|p d psms ds Hp Hf IH];
    cbn [mapM map]; [reflexivity|].
  erewrite bind_ok.
  2:{ erewrite bind_ok by (apply get_data_ok; exact Hp). reflexivity. }
  erewrite bind_ok by exact IH. reflexivity.
Qed.

Lemma train_tables_ok (w : W) :
  forall (idx : list (list nat)) (psms : list loc) (ds : list DataFrame),
    holds_tables w psms ds ->
    mapM (fun ijd : list nat * list nat * loc =>
            let '(i, j, dset) := ijd in
            d <- get_data dset ;;
            lift (iloc_rows (set_diff j i) d))
         (combine (combine idx (map (fun d => seq 0 (nrows d)) ds)) psms) w =
    (inr (map (fun id : list nat * DataFrame =>
                 mkDF (df_columns (snd id))
                      (rows_at (df_rows (snd id))
                               (set_diff (seq 0 (nrows (snd id))) (fst id))))
              (combine idx ds)), w).
Proof.
  unfold holds_tables.
  induction idx as [|i idx IH]; intros psms ds Hf; [reflexivity|].
  destruct Hf as [|p d psms ds Hp Hf]; [reflexivity|].
  cbn [map combine mapM fst snd].
  erewrite bind_ok.
  2:{ erewrite bind_ok by (apply get_data_ok; exact Hp).
      unfold lift. rewrite iloc_rows_in_range; [reflexivity|].
      intros r Hr. apply set_diff_In in Hr. destruct Hr as (Hr & _).
      apply in_seq in Hr. lia. }
  erewrite bind_ok by (apply IH; exact Hf). reflexivity.
Qed.

Lemma gen_loop_table (ts : loc) (psms : list loc) (ds : list DataFrame)
    (idx : list (list nat)) (rest : list (list (list nat)))
    (w w' : W) (o : option loc) (g' : GenState) :
  holds_tables w psms ds -> ~ In ts psms -> ts < length (heap w) ->
  gen_loop ts psms (map (fun d => seq 0 (nrows d)) ds) (idx :: rest) w =
    (inr (o, g'), w') ->
  exists d0 tr,
    hd_error ds = Some d0 /\
    o = Some ts /\
    g' = GenLoop ts psms (map (fun d => seq 0 (nrows d)) ds) rest /\
    w' = mkWorld (set_nth (heap w) ts (PsmObj (Some tr))) (rng w) /\
    df_columns tr = df_columns d0 /\
    df_rows tr = rows_outside idx ds.
Proof.
  intros Hh Hts Hlt H. unfold gen_loop in H.
  inv_bind_as H u w1 Hw1. apply write_inr in Hw1. subst w1.
  inv_bind_as H tables w2 Htables.
  rewrite (train_tables_ok _ idx psms ds
             (holds_tables_set_nth w psms ds ts (PsmObj None) Hh Hts))
    in Htables.
  inversion Htables; subst tables w2. clear Htables.
  inv_bind_as H tr w3 Htr. apply lift_inr in Htr. destruct Htr as (Htr & <-).
  inv_bind_as H u' w4 Hw4. apply write_inr in Hw4. subst w4.
  apply ret_inr in H. destruct H as (H & <-). inversion H; subst o g'.
  destruct (combine idx ds) as [|[i0 d0] ids] eqn:Ec; [discriminate|].
  assert (Hd0 : hd_error ds = Some d0).
  { destruct idx; [discriminate|]. destruct ds; [discriminate|].
    simpl in Ec. inversion Ec. reflexivity. }
  cbn [map pd_concat] in Htr. inversion Htr as [Etr]. clear Htr.
  exists d0, tr. repeat split; try reflexivity; try exact Hd0.
  - simpl. now rewrite set_nth_twice, Etr.
  - now rewrite <- Etr.
  - rewrite <- Etr. unfold rows_outside. rewrite Ec.
    cbn [map concat df_rows fst snd]. f_equal. now rewrite map_map.
Qed.

End TrainSets.

Section TrainSetOfFold.

Context {ModelState : Type}.
Local Abbreviation W := (World ModelState).

Lemma holds_tables_lt (w : W) (psms : list loc) (ds : list DataFrame) :
  holds_tables w psms ds -> forall p, In p psms -> p < length (heap w).
Proof.
  unfold holds_tables. induction 1 as [|p d psms ds Hp Hf IH]; intros q Hq.
  - destruct Hq.
  - destruct Hq as [<-|Hq]; [|now apply IH].
    apply nth_error_Some. congruence.
Qed.

Lemma holds_tables_app (w : W) (psms : list loc) (ds : list DataFrame)
    (o : Obj ModelState) :
  holds_tables w psms ds ->
  holds_tables (mkWorld (heap w ++ [o]) (rng w)) psms ds.
Proof.
  unfold holds_tables. induction 1 as [|p d psms ds Hp Hf IH]; constructor;
    [|exact IH].
  simpl. rewrite nth_error_app1; [exact Hp|].
  apply nth_error_Some. congruence.
Qed.

Lemma gen_next_table (g g' : GenState) (ds : list DataFrame) (w w' : W)
    (t : loc) :
  gen_over w ds g ->
  gen_next g w = (inr (Some t, g'), w') ->
  exists idx rest d0 tr,
    gen_pending g = idx :: rest /\
    gen_pending g' = rest /\
    hd_error ds = Some d0 /\
    nth_error (heap w') t = Some (PsmObj (Some tr)) /\
    df_columns tr = df_columns d0 /\
    df_rows tr = rows_outside idx ds /\
    gen_over w' ds g' /\
    (forall l, l < length (heap w) -> l <> t ->
               nth_error (heap w') l = nth_error (heap w) l) /\
    gen_psms g' = gen_psms g /\
    gen_train_set g' = Some t /\
    (gen_train_set g = Some t \/ t = length (heap w)) /\
    length (heap w) <= length (heap w').
Proof.
  intros Hover H.
  assert (Hloop : forall ts psms pending (w0 : W),
             holds_tables w0 psms ds -> ~ In ts psms ->
             ts < length (heap w0) ->
             gen_loop ts psms (map (fun d => seq 0 (nrows d)) ds) pending w0 =
               (inr (Some t, g'), w') ->
             exists idx rest d0 tr,
               pending = idx :: rest /\
               gen_pending g' = rest /\
               hd_error ds = Some d0 /\
               nth_error (heap w') t = Some (PsmObj (Some tr)) /\
               df_columns tr = df_columns d0 /\
               df_rows tr = rows_outside idx ds /\
               gen_over w' ds g' /\
               t = ts /\
               heap w' = set_nth (heap w0) ts (PsmObj (Some tr)) /\
               gen_psms g' = psms /\
               gen_train_set g' = Some ts).
  { intros ts psms pending w0 Hh Hts Hlt Hrun.
    destruct pending as [|idx rest].
    { apply ret_inr in Hrun. destruct Hrun as (Hrun & _). discriminate. }
    destruct (gen_loop_table ts psms ds idx rest w0 w' (Some t) g' Hh Hts
                Hlt Hrun)
      as (d0 & tr & Hd0 & Ht & Hg' & Hw' & Hc & Hr).
    inversion Ht; subst t. subst g' w'.
    exists idx, rest, d0, tr. split; [reflexivity|]. split; [reflexivity|].
    split; [exact Hd0|].
    split; [simpl; now apply set_nth_same|].
    split; [exact Hc|]. split; [exact Hr|].
    split; [|repeat split; reflexivity].
    simpl. split; [now apply holds_tables_set_nth|].
    split; [exact Hts|]. split; [now rewrite set_nth_length | reflexivity]. }
  destruct g as [psms test_idx|ts psms all_idx pending|];
    cbn [gen_next gen_over gen_pending gen_psms gen_train_set] in *.
  - destruct psms as [|p0 psms']; [discriminate|].
    inv_bind_as H ts w1 Hcopy.
    inv_bind_as H all_idx w2 Hall.
    unfold copy_copy in Hcopy. inv_bind_as Hcopy o w0 Hread.
    apply read_inr in Hread. destruct Hread as (-> & Ho).
    unfold alloc in Hcopy. inversion Hcopy; subst ts w1. clear Hcopy.
    pose proof (holds_tables_app w _ _ o Hover) as Hover1.
    rewrite (all_idx_ok _ _ _ Hover1) in Hall.
    inversion Hall; subst all_idx w2. clear Hall.
    destruct (Hloop (length (heap w)) (p0 :: psms') (zip_star test_idx)
                (mkWorld (heap w ++ [o]) (rng w)) Hover1)
      as (idx & rest & d0 & tr & H1 & H2 & H3 & H4 & H5 & H6 & H7 & H8 & H9 &
          H10 & H11);
      [| |exact H|].
    + intros Hin. apply (holds_tables_lt _ _ _ Hover) in Hin. lia.
    + simpl. rewrite length_app. simpl. lia.
    + exists idx, rest, d0, tr. repeat (split; [assumption|]).
      split.
      { intros l Hl Hne. rewrite H9. simpl.
        rewrite set_nth_other by congruence. now apply nth_error_app1. }
      split; [exact H10|]. split; [now rewrite H8|].
      split; [now right|].
      rewrite H9, set_nth_length. simpl. rewrite length_app. lia.
  - destruct Hover as (Hh & Hts & Hlt & ->).
    destruct (Hloop ts psms pending w Hh Hts Hlt H)
      as (idx & rest & d0 & tr & H1 & H2 & H3 & H4 & H5 & H6 & H7 & H8 & H9 &
          H10 & H11).
    exists idx, rest, d0, tr. repeat (split; [assumption|]).
    split.
    { intros l Hl Hne. rewrite H9. apply set_nth_other. congruence. }
    split; [exact H10|]. split; [now rewrite H8|].
    split; [left; now rewrite H8|].
    rewrite H9, set_nth_length. apply le_n.
  - apply ret_inr in H. destruct H as (H & _). discriminate.
Qed.

Lemma first_has_columns (cols : list string) (ds : list DataFrame) d0 :
  Forall (fun d => df_columns d = cols) ds ->
  hd_error ds = Some d0 -> df_columns d0 = cols.
Proof.
  intros Hcols Hd0. destruct ds as [|d ds']; [discriminate|].
  inversion Hd0; subst d0. now inversion Hcols.
Qed.

Lemma outside_positions (ds : list DataFrame) (idx : list (list nat)) :
  forall i d r, In (i, d) (combine idx ds) ->
                (In r (set_diff (seq 0 (nrows d)) i) <->
                 r < nrows d /\ ~ In r i).
Proof.
  intros i d r _. rewrite set_diff_In, in_seq.
  split; intros (Hr & Hi); split; auto; lia.
Qed.

(** X16. One step of the generator [_make_train_sets], run over collections
    of one schema [cols]: the object it yields holds, at that moment, a
    table with the columns [cols] and, for each collection, the rows at
    the positions that are not among the test indices of the fold (each
    such row once, no row of the fold's test rows); the collections still
    hold their tables, and the generator goes on with the next fold. *)
Theorem make_train_sets_leaves_out_fold (g g' : GenState)
    (cols : list string) (ds : list DataFrame) (w w' : W) (t : loc) :
  gen_over w ds g ->
  Forall (fun d => df_columns d = cols) ds ->
  gen_next g w = (inr (Some t, g'), w') ->
  exists idx rest tr,
    gen_pending g = idx :: rest /\
    gen_pending g' = rest /\
    nth_error (heap w') t = Some (PsmObj (Some tr)) /\
    df_columns tr = cols /\
    Permutation (df_rows tr) (rows_outside idx ds) /\
    (forall i d r, In (i, d) (combine idx ds) ->
                   (In r (set_diff (seq 0 (nrows d)) i) <->
                    r < nrows d /\ ~ In r i)) /\
    gen_over w' ds g'.
Proof.
  intros Hover Hcols H.
  destruct (gen_next_table g g' ds w w' t Hover H)
    as (idx & rest & d0 & tr & H1 & H2 & H3 & H4 & H5 & H6 & H7 & _).
  exists idx, rest, tr. repeat (split; [assumption|]).
  split; [rewrite H5; now apply (first_has_columns cols ds)|].
  split; [rewrite H6; apply Permutation_refl|].
  split; [apply outside_positions | exact H7].
Qed.

End TrainSetOfFold.

Lemma make_train_sets_leaves_out_fold_witness :
  exists idx rest tr,
    gen_pending (GenStart [0; 1] [[[0; 2]; [1]]; [[1]; [0]]]) =
      idx :: rest /\
    gen_pending (GenLoop 3 [0; 1] [[0; 1; 2]; [0; 1]] [[[1]; [0]]]) = rest /\
    nth_error
      (heap (snd (gen_next (GenStart [0; 1] [[[0; 2]; [1]]; [[1]; [0]]])
                           toy_world))) 3 = Some (PsmObj (Some tr)) /\
    df_columns tr = canonical_columns /\
    Permutation (df_rows tr)
                (rows_outside idx [data demo_ds; data pair_ds]) /\
    (forall i d r, In (i, d) (combine idx [data demo_ds; data pair_ds]) ->
                   (In r (set_diff (seq 0 (nrows d)) i) <->
                    r < nrows d /\ ~ In r i)) /\
    gen_over
      (snd (gen_next (GenStart [0; 1] [[[0; 2]; [1]]; [[1]; [0]]])
                     toy_world))
      [data demo_ds; data pair_ds]
      (GenLoop 3 [0; 1] [[0; 1; 2]; [0; 1]] [[[1]; [0]]]).
Proof.
  apply (make_train_sets_leaves_out_fold
           (GenStart [0; 1] [[[0; 2]; [1]]; [[1]; [0]]])
           (GenLoop 3 [0; 1] [[0; 1; 2]; [0; 1]] [[[1]; [0]]])
           canonical_columns [data demo_ds; data pair_ds] toy_world).
  - repeat constructor.
  - repeat constructor.
  - vm_compute. reflexivity.
Defined.

(** ** The lazy [map] of [_fit_model] over the training sets *)

Section FitOnTrainSet.

Context {ModelState : Type}.
Variable fit :
  ModelState -> option DataFrame -> Q -> nat -> option string ->
  result ModelState.
Variables (train_fdr : Q) (max_iter : nat) (direction : option string).

Local Abbreviation W := (World ModelState).

Lemma read_model_val (l : loc) (w w' : W) st :
  read_model l w = (inr st, w') -> nth_error (heap w) l = Some (ModelObj st).
Proof.
  unfold read_model. intros H. inv_bind H. apply read_inr in H0.
  destruct H0 as (-> & Hl). destruct a as [d'|st']; [discriminate|].
  apply ret_inr in H. destruct H as (<- & _). exact Hl.
Qed.

Lemma holds_tables_not_model (w : W) (psms : list loc)
    (ds : list DataFrame) (m : loc) (st : ModelState) :
  holds_tables w psms ds -> nth_error (heap w) m = Some (ModelObj st) ->
  ~ In m psms.
Proof.
  unfold holds_tables. induction 1 as [|p d psms ds Hp Hf IH];
    intros Hm Hin; [destruct Hin|].
  destruct Hin as [->|Hin]; [congruence | now apply IH].
Qed.

Lemma gen_over_write_model (w : W) (ds : list DataFrame) (g : GenState)
    (m : loc) (st st' : ModelState) :
  gen_over w ds g -> nth_error (heap w) m = Some (ModelObj st) ->
  gen_over (mkWorld (set_nth (heap w) m (ModelObj st')) (rng w)) ds g.
Proof.
  intros Hover Hm. destruct g as [psms test_idx|ts psms all_idx pending|];
    cbn [gen_over] in *; auto.
  - apply holds_tables_set_nth; [exact Hover|].
    eapply holds_tables_not_model; eassumption.
  - destruct Hover as (Hh & Hts & Hlt & Hall).
    split; [|split; [exact Hts|split; [|exact Hall]]].
    + apply holds_tables_set_nth; [exact Hh|].
      eapply holds_tables_not_model; eassumption.
    + simpl. now rewrite set_nth_length.
Qed.

(** One step of the lazy [map]: the generator binds the table of the next
    fold to its training set [ts], [fit] is called on the next copy with
    that table, and nothing else in the store changes. *)
Lemma next_model_lazy_step (g : GenState) (m : loc) (copies : list loc)
    (fold : nat) (ds : list DataFrame) (st : ModelState) (w w' : W)
    (m' : loc) (it' : ModelsIter ModelState) :
  gen_over w ds g ->
  nth_error (heap w) m = Some (ModelObj st) ->
  next_model fit train_fdr max_iter direction (LazyMap g (m :: copies) fold)
             w = (inr (Some m', it'), w') ->
  exists idx pending d0 tr st' g' ts,
    gen_pending g = idx :: pending /\
    it' = LazyMap g' copies (S fold) /\
    gen_pending g' = pending /\
    gen_over w' ds g' /\
    m' = m /\
    hd_error ds = Some d0 /\
    df_columns tr = df_columns d0 /\
    df_rows tr = rows_outside idx ds /\
    fit st (Some tr) train_fdr max_iter direction = inr st' /\
    nth_error (heap w') m = Some (ModelObj st') /\
    gen_psms g' = gen_psms g /\
    gen_train_set g' = Some ts /\
    (gen_train_set g = Some ts \/ ts = length (heap w)) /\
    length (heap w) <= length (heap w') /\
    (forall l, l < length (heap w) -> l <> ts -> l <> m ->
               nth_error (heap w') l = nth_error (heap w) l).
Proof.
  intros Hover Hm H. cbn [next_model] in H.
  inv_bind_as H ng w1 Hgen. destruct ng as [[ts|] g1]; cbn [fst snd] in H.
  2:{ apply ret_inr in H. destruct H as (H & _). discriminate. }
  destruct (gen_next_table g g1 ds w w1 ts Hover Hgen)
    as (idx & rest & d0 & tr & H1 & H2 & H3 & H4 & H5 & H6 & H7 & H8 & H9 &
        H10 & H11 & H12).
  inv_bind_as H mfit w2 Hfit.
  apply ret_inr in H. destruct H as (H & <-). inversion H; subst m' it'.
  clear H. unfold _fit_model in Hfit.
  inv_bind_as Hfit st0 w3 Hst. pose proof (read_model_val _ _ _ _ Hst) as Hv.
  apply read_model_inr in Hst. subst w3.
  inv_bind_as Hfit d w4 Hd. apply read_data_inr in Hd.
  destruct Hd as (-> & Hd). rewrite H4 in Hd. inversion Hd; subst d. clear Hd.
  inv_bind_as Hfit st' w5 Hst'. apply lift_inr in Hst'.
  destruct Hst' as (Hst' & <-).
  inv_bind_as Hfit u w6 Hw. apply write_inr in Hw. subst w6.
  apply ret_inr in Hfit. destruct Hfit as (<- & <-).
  assert (Hmlt : m < length (heap w))
    by (apply nth_error_Some; congruence).
  assert (Hne : m <> ts) by (intros ->; congruence).
  assert (Hm1 : nth_error (heap w1) m = Some (ModelObj st))
    by (rewrite H8; assumption).
  assert (st0 = st) by congruence. subst st0.
  exists idx, rest, d0, tr, st', g1, ts.
  split; [exact H1|]. split; [reflexivity|]. split; [exact H2|].
  split; [eapply gen_over_write_model; eassumption|].
  split; [reflexivity|]. split; [exact H3|]. split; [exact H5|].
  split; [exact H6|]. split; [exact Hst'|].
  split; [simpl; apply set_nth_same; apply nth_error_Some; congruence|].
  split; [exact H9|]. split; [exact H10|]. split; [exact H11|].
  split; [simpl; now rewrite set_nth_length|].
  intros l Hl Hlts Hlm. simpl. rewrite set_nth_other by congruence.
  now apply H8.
Qed.

(** X17. With one worker the models come from the lazy [map]: asked for the
    next model, it advances the generator by one fold and calls [fit] on
    the next model copy with the table the generator has just bound, that
    is (for collections of one schema) the rows of every collection
    outside the test indices of that fold. The fitted copy is the model
    handed out. *)
Theorem lazy_map_fits_on_train_set (g : GenState) (m : loc)
    (copies : list loc) (fold : nat) (cols : list string)
    (ds : list DataFrame) (st : ModelState) (w w' : W) (m' : loc)
    (it' : ModelsIter ModelState) :
  gen_over w ds g ->
  Forall (fun d => df_columns d = cols) ds ->
  nth_error (heap w) m = Some (ModelObj st) ->
  next_model fit train_fdr max_iter direction (LazyMap g (m :: copies) fold)
             w = (inr (Some m', it'), w') ->
  exists idx pending tr st' g',
    gen_pending g = idx :: pending /\
    it' = LazyMap g' copies (S fold) /\
    gen_pending g' = pending /\
    gen_over w' ds g' /\
    m' = m /\
    df_columns tr = cols /\
    Permutation (df_rows tr) (rows_outside idx ds) /\
    fit st (Some tr) train_fdr max_iter direction = inr st' /\
    nth_error (heap w') m = Some (ModelObj st').
Proof.
  intros Hover Hcols Hm H.
  destruct (next_model_lazy_step g m copies fold ds st w w' m' it' Hover Hm H)
    as (idx & rest & d0 & tr & st' & g1 & ts & H1 & H2 & H3 & H4 & H5 & H6 &
        H7 & H8 & H9 & H10 & _).
  exists idx, rest, tr, st', g1.
  repeat (split; [assumption|]).
  split; [rewrite H7; now apply (first_has_columns cols ds)|].
  split; [rewrite H8; apply Permutation_refl|].
  split; assumption.
Qed.

End FitOnTrainSet.

Lemma lazy_map_fits_on_train_set_witness :
  exists idx pending tr st' g',
    gen_pending (GenStart [0; 1] [[[0; 2]; [1]]; [[1]; [0]]]) =
      idx :: pending /\
    @LazyMap nat (GenLoop 3 [0; 1] [[0; 1; 2]; [0; 1]] [[[1]; [0]]]) [] 1 =
      LazyMap g' [] 1 /\
    gen_pending g' = pending /\
    gen_over
      (snd (next_model toy_fit fdr_1pct 10 None
              (LazyMap (GenStart [0; 1] [[[0; 2]; [1]]; [[1]; [0]]]) [2] 0)
              toy_world))
      [data demo_ds; data pair_ds] g' /\
    2 = 2 /\
    df_columns tr = canonical_columns /\
    Permutation (df_rows tr)
                (rows_outside idx [data demo_ds; data pair_ds]) /\
    toy_fit 0 (Some tr) fdr_1pct 10 None = inr st' /\
    nth_error
      (heap (snd (next_model toy_fit fdr_1pct 10 None
                    (LazyMap (GenStart [0; 1] [[[0; 2]; [1]]; [[1]; [0]]])
                             [2] 0)
                    toy_world))) 2 = Some (ModelObj st').
Proof.
  apply (lazy_map_fits_on_train_set toy_fit fdr_1pct 10 None
           (GenStart [0; 1] [[[0; 2]; [1]]; [[1]; [0]]]) 2 [] 0
           canonical_columns [data demo_ds; data pair_ds] 0 toy_world).
  - repeat constructor.
  - repeat constructor.
  - reflexivity.
  - vm_compute. reflexivity.
Defined.

(** ** [_predict] and [brew] over one collection *)

Section PredictRows.

Context {ModelState : Type}.
Variable fit :
  ModelState -> option DataFrame -> Q -> nat -> option string ->
  result ModelState.
Variable predict : ModelState -> DataFrame -> result (list Q).
Variable _calibrate_scores : DataFrame -> list Q -> Q -> result (list Q).
Variables (train_fdr : Q) (max_iter : nat) (direction : option string).

Hypothesis predict_length :
  forall st t raw, predict st t = inr raw -> length raw = nrows t.
Hypothesis calibrate_length :
  forall t raw fdr s,
    _calibrate_scores t raw fdr = inr s -> length s = length raw.

Local Abbreviation W := (World ModelState).

Lemma keeps_nth (n0 : nat) (w w' : W) (l : loc) :
  keeps n0 w w' -> l < n0 -> nth_error (heap w') l = nth_error (heap w) l.
Proof.
  intros (_ & Hk) Hl.
  assert (E : forall h : list (Obj ModelState),
             nth_error (firstn n0 h) l = nth_error h l).
  { intros h. rewrite nth_error_firstn.
    destruct (Nat.ltb_spec l n0); [reflexivity | lia]. }
  rewrite <- (E (heap w')), <- (E (heap w)). now rewrite Hk.
Qed.

Lemma fold_scores_length (d : DataFrame) (test_fdr : Q) (fold : list nat)
    (st : ModelState) (s : list Q) :
  fold_scores predict _calibrate_scores d test_fdr fold st s ->
  length s = length fold.
Proof.
  intros (sub & raw & Hsub & Hraw & Hs).
  rewrite (calibrate_length _ _ _ _ Hs), (predict_length _ _ _ Hraw).
  now apply iloc_rows_length in Hsub.
Qed.

(** The loop of [_predict]: every score vector it collects is what the
    model handed out for the fold predicts, calibrated, for the rows of
    the fold in the table of the collection. *)
Lemma predict_loop_values (dset test_set : loc) (d : DataFrame)
    (test_fdr : Q) (test_idx : list (list nat)) :
  forall (it : ModelsIter ModelState) (w w' : W) scores it',
    nth_error (heap w) dset = Some (PsmObj (Some d)) ->
    dset < test_set -> test_set < length (heap w) ->
    iter_ok (S dset) it ->
    predict_loop fit predict _calibrate_scores train_fdr max_iter direction
                 dset test_set test_idx it test_fdr w =
      (inr (scores, it'), w') ->
    exists sts,
      Forall2 (fun fs s =>
                 fold_scores predict _calibrate_scores d test_fdr
                             (fst fs) (snd fs) s)
              (combine test_idx sts) scores /\
      length sts = length scores /\
      (forall rs, it = PoolResults rs ->
                  map inr sts = firstn (length sts) rs).
Proof.
  induction test_idx as [|fold rest IH];
    intros it w w' scores it' Hd Hlt Hts Hit H; cbn [predict_loop] in H.
  - apply ret_inr in H. destruct H as (H & _). inversion H; subst.
    exists []. split; [constructor|]. split; [reflexivity|].
    intros rs _. reflexivity.
  - inv_bind_as H nm w0 Hnext. destruct nm as [o it1]. cbn [fst snd] in H.
    destruct (frames_next_model fit train_fdr max_iter direction (S dset)
                it Hit w ltac:(lia)) as (Hkeep & Hit1).
    rewrite Hnext in Hkeep, Hit1. cbn [fst snd] in Hkeep, Hit1.
    specialize (Hit1 _ eq_refl). cbn [snd] in Hit1.
    destruct o as [m|].
    2:{ apply ret_inr in H. destruct H as (H & _). inversion H; subst.
        exists []. split; [destruct fold; constructor|].
        split; [reflexivity|]. intros rs _. reflexivity. }
    inv_bind_as H d' w1 Hd'.
    apply get_data_inr in Hd'. destruct Hd' as (-> & Hd').
    rewrite (keeps_nth _ _ _ dset Hkeep ltac:(lia)), Hd in Hd'.
    inversion Hd'; subst d'. clear Hd'.
    inv_bind_as H sub w2 Hsub.
    apply lift_inr in Hsub. destruct Hsub as (Hsub & <-).
    inv_bind_as H u w3 Hw. apply write_inr in Hw. subst w3.
    inv_bind_as H st w4 Hst.
    pose proof (read_model_val _ _ _ _ Hst) as Hm.
    apply read_model_inr in Hst. subst w4.
    inv_bind_as H t w5 Ht.
    apply get_data_inr in Ht. destruct Ht as (-> & Ht).
    assert (Hlen0 : test_set < length (heap w0))
      by (destruct Hkeep as (Hl & _); lia).
    cbn [heap] in Ht. rewrite set_nth_same in Ht by exact Hlen0.
    inversion Ht; subst t. clear Ht.
    inv_bind_as H raw w6 Hraw.
    apply lift_inr in Hraw. destruct Hraw as (Hraw & <-).
    inv_bind_as H s w7 Hs.
    apply lift_inr in Hs. destruct Hs as (Hs & <-).
    inv_bind_as H r w8 Hloop.
    apply ret_inr in H. destruct H as (H & <-).
    inversion H; subst scores it'. clear H.
    destruct r as [ss it2]. cbn [fst snd] in *.
    assert (Hd3 : nth_error
                    (heap (mkWorld (set_nth (heap w0) test_set
                                            (PsmObj (Some sub))) (rng w0)))
                    dset = Some (PsmObj (Some d))).
    { cbn [heap]. rewrite set_nth_other by lia.
      rewrite (keeps_nth _ _ _ dset Hkeep ltac:(lia)). exact Hd. }
    assert (Hts3 : test_set <
                   length (heap (mkWorld (set_nth (heap w0) test_set
                                                  (PsmObj (Some sub)))
                                         (rng w0))))
      by (cbn [heap]; now rewrite set_nth_length).
    destruct (IH it1 _ _ ss it2 Hd3 Hlt Hts3 Hit1 Hloop)
      as (sts & Hf & Hl & Hpool).
    exists (st :: sts). split; [|split].
    + cbn [combine]. constructor; [|exact Hf].
      exists sub, raw. cbn [fst snd]. auto.
    + simpl. now rewrite Hl.
    + intros rs ->. cbn [next_model] in Hnext.
      destruct rs as [|[e|st'] rs']; try discriminate.
      inv_bind_as Hnext m0 w9 Halloc.
      apply ret_inr in Hnext. destruct Hnext as (Hnext & <-).
      inversion Hnext; subst m0 it1. clear Hnext.
      unfold alloc in Halloc. inversion Halloc; subst m w9. clear Halloc.
      cbn [heap] in Hm. rewrite set_nth_other in Hm by lia.
      rewrite nth_error_app2 in Hm by lia.
      rewrite Nat.sub_diag in Hm. cbn [nth_error] in Hm.
      inversion Hm; subst st'.
      cbn [length map firstn]. f_equal. now apply Hpool.
Qed.

Lemma gen_over_tables (w : W) (ds : list DataFrame) (g : GenState)
    (ts : loc) :
  gen_over w ds g -> gen_train_set g = Some ts ->
  holds_tables w (gen_psms g) ds /\ ~ In ts (gen_psms g) /\
  ts < length (heap w).
Proof.
  destruct g as [psms test_idx|ts' psms all_idx pending|]; simpl;
    try discriminate.
  intros (H1 & H2 & H3 & _) E. inversion E; subst. auto.
Qed.

Lemma gen_over_write_other (w : W) (ds : list DataFrame) (g : GenState)
    (l : loc) (o : Obj ModelState) :
  gen_over w ds g -> ~ In l (gen_psms g) ->
  gen_over (mkWorld (set_nth (heap w) l o) (rng w)) ds g.
Proof.
  destruct g as [psms test_idx|ts psms all_idx pending|]; simpl; auto.
  - intros H Hl. now apply holds_tables_set_nth.
  - intros (H1 & H2 & H3 & H4) Hl.
    split; [now apply holds_tables_set_nth|]. split; [exact H2|].
    split; [now rewrite set_nth_length | exact H4].
Qed.

(** The loop of [_predict] fed by the lazy [map], for one collection: the
    generator and the loop go through the folds together, and the model
    that scores a fold was fitted, from the state of the template, on the
    rows outside that fold. *)
Lemma predict_loop_lazy (dset test_set : loc) (d : DataFrame)
    (st0 : ModelState) (test_fdr : Q) :
  forall (test_idx : list (list nat)) (g : GenState) (copies : list loc)
         (fold : nat) (w w' : W) scores it',
    gen_over w [d] g ->
    gen_psms g = [dset] ->
    gen_pending g = map (fun f => [f]) test_idx ->
    Forall (fun m => nth_error (heap w) m = Some (ModelObj st0)) copies ->
    NoDup copies ->
    ~ In test_set copies ->
    test_set < length (heap w) ->
    test_set <> dset ->
    (forall ts, gen_train_set g = Some ts -> ~ In ts copies) ->
    predict_loop fit predict _calibrate_scores train_fdr max_iter direction
                 dset test_set test_idx (LazyMap g copies fold) test_fdr w =
      (inr (scores, it'), w') ->
    exists sts,
      Forall2 (fun fs s =>
                 fold_scores predict _calibrate_scores d test_fdr
                             (fst fs) (snd fs) s)
              (combine test_idx sts) scores /\
      length sts = length scores /\
      Forall2 (fitted_outside fit train_fdr max_iter direction d st0)
              (firstn (length sts) test_idx) sts.
Proof.
  induction test_idx as [|f rest IH];
    intros g copies fold w w' scores it' Hover Hpsms Hpend Hcopies Hnd Hnin
           Hts Hne Htrain H; cbn [predict_loop] in H.
  - apply ret_inr in H. destruct H as (H & _). inversion H; subst.
    exists []. repeat split; constructor.
  - inv_bind_as H nm w0 Hnext. destruct nm as [o it1]. cbn [fst snd] in H.
    destruct o as [m'|].
    2:{ apply ret_inr in H. destruct H as (H & _). inversion H; subst.
        exists []. repeat split; constructor. }
    destruct copies as [|m cs].
    { exfalso. cbn [next_model] in Hnext. inv_bind_as Hnext ng w9 Hg.
      destruct (fst ng); apply ret_inr in Hnext;
        destruct Hnext as (Hnext & _); discriminate. }
    inversion Hcopies as [|? ? Hm Hcs]; subst.
    inversion Hnd as [|? ? Hmcs Hndcs]; subst.
    destruct (next_model_lazy_step fit train_fdr max_iter direction g m cs
                fold [d] st0 w w0 m' it1 Hover Hm Hnext)
      as (idx0 & pending & d0 & tr & st' & g1 & ts & H1 & H2 & H3 & H4 & H5 &
          H6 & H7 & H8 & H9 & H10 & H11 & H12 & H13 & H14 & H15).
    subst m' it1. cbn [hd_error] in H6. inversion H6; subst d0. clear H6.
    rewrite Hpend in H1. cbn [map] in H1. injection H1 as E1 E2.
    subst idx0 pending.
    rewrite Hpsms in H11.
    destruct (gen_over_tables _ _ _ _ H4 H12) as (Hh1 & Hts1 & Hlt1).
    rewrite H11 in Hh1, Hts1.
    assert (Hd0 : nth_error (heap w0) dset = Some (PsmObj (Some d))).
    { unfold holds_tables in Hh1. now inversion Hh1. }
    assert (Htscs : ~ In ts cs).
    { destruct H13 as [E| ->].
      - intros Hin. apply (Htrain ts E). now right.
      - intros Hin. eapply Forall_forall in Hcs; [|exact Hin].
        assert (length (heap w) < length (heap w))
          by (apply nth_error_Some; congruence).
        lia. }
    assert (Hmts : m <> test_set) by (intros ->; apply Hnin; now left).
    (* the body of the loop *)
    inv_bind_as H d' w1 Hd'.
    apply get_data_inr in Hd'. destruct Hd' as (-> & Hd').
    rewrite Hd0 in Hd'. inversion Hd'; subst d'. clear Hd'.
    inv_bind_as H sub w2 Hsub.
    apply lift_inr in Hsub. destruct Hsub as (Hsub & <-).
    inv_bind_as H u w3 Hw. apply write_inr in Hw. subst w3.
    inv_bind_as H st w4 Hst.
    pose proof (read_model_val _ _ _ _ Hst) as Hmv.
    apply read_model_inr in Hst. subst w4.
    cbn [heap] in Hmv. rewrite set_nth_other in Hmv by congruence.
    rewrite H10 in Hmv. inversion Hmv; subst st. clear Hmv.
    inv_bind_as H t w5 Ht.
    apply get_data_inr in Ht. destruct Ht as (-> & Ht).
    cbn [heap] in Ht. rewrite set_nth_same in Ht by lia.
    inversion Ht; subst t. clear Ht.
    inv_bind_as H raw w6 Hraw.
    apply lift_inr in Hraw. destruct Hraw as (Hraw & <-).
    inv_bind_as H s w7 Hs.
    apply lift_inr in Hs. destruct Hs as (Hs & <-).
    inv_bind_as H r w8 Hloop.
    apply ret_inr in H. destruct H as (H & <-).
    inversion H; subst scores it'. clear H.
    destruct r as [ss it2]. cbn [fst snd] in *.
    set (w3 := mkWorld (set_nth (heap w0) test_set (PsmObj (Some sub)))
                       (rng w0)) in *.
    assert (Hover3 : gen_over w3 [d] g1).
    { apply gen_over_write_other; [exact H4|]. rewrite H11.
      intros [E|[]]. congruence. }
    assert (Hcs3 : Forall (fun c => nth_error (heap w3) c =
                                    Some (ModelObj st0)) cs).
    { apply Forall_forall. intros c Hc.
      pose proof Hc as Hc0. eapply Forall_forall in Hc0; [|exact Hcs].
      cbn beta in Hc0.
      assert (c < length (heap w)) by (apply nth_error_Some; congruence).
      unfold w3. cbn [heap]. rewrite set_nth_other.
      - rewrite H15; [exact Hc0 | lia | |].
        + intros ->. contradiction.
        + intros ->. contradiction.
      - intros ->. apply Hnin. now right. }
    destruct (IH g1 cs (S fold) w3 w8 ss it2 Hover3 H11 H3 Hcs3 Hndcs)
      as (sts & Hf & Hl & Hfit).
    { intros Hin. apply Hnin. now right. }
    { unfold w3. cbn [heap]. rewrite set_nth_length. lia. }
    { exact Hne. }
    { intros ts' E. rewrite H12 in E. inversion E; subst ts'. exact Htscs. }
    { exact Hloop. }
    exists (st' :: sts). split; [|split].
    + cbn [combine]. constructor; [|exact Hf].
      exists sub, raw. cbn [fst snd]. auto.
    + simpl. now rewrite Hl.
    + cbn [length firstn]. constructor; [|exact Hfit].
      exists tr. split; [exact H7|]. split; [|exact H9].
      rewrite H8. apply Permutation_refl.
Qed.

Lemma fold_scores_total (d : DataFrame) (test_fdr : Q) :
  forall (test_idx : list (list nat)) (sts : list ModelState)
         (scores : list (list Q)),
    Forall2 (fun fs s =>
               fold_scores predict _calibrate_scores d test_fdr
                           (fst fs) (snd fs) s)
            (combine test_idx sts) scores ->
    length (concat scores) <= length (concat test_idx).
Proof.
  induction test_idx as [|fold rest IH]; intros sts scores Hf.
  - inversion Hf. simpl. lia.
  - destruct sts as [|st sts]; [inversion Hf; simpl; lia|].
    cbn [combine] in Hf. inversion Hf as [|x s l ss Hs Hrest]; subst.
    apply fold_scores_length in Hs. cbn [fst] in Hs.
    specialize (IH _ _ Hrest). simpl. rewrite !length_app. lia.
Qed.

(** The last two lines of [_predict], for scores that are one per index
    of the folds scored. *)
Lemma predict_finish (d : DataFrame) (test_fdr : Q)
    (test_idx : list (list nat)) (sts : list ModelState)
    (scores : list (list Q)) (joined out : list Q) :
  Forall2 (fun fs s =>
             fold_scores predict _calibrate_scores d test_fdr
                         (fst fs) (snd fs) s)
          (combine test_idx sts) scores ->
  Permutation (concat test_idx) (seq 0 (length (concat test_idx))) ->
  np_concatenate scores = inr joined ->
  take joined (argsort (concat test_idx)) = inr out ->
  length out = length (concat test_idx) /\
  forall p, p < length (concat test_idx) ->
            nth_error out (nth p (concat test_idx) 0) =
            nth_error (concat scores) p.
Proof.
  intros Hf Hc Hall Htake.
  set (c := concat test_idx) in *.
  assert (Hsc : joined = concat scores).
  { unfold np_concatenate in Hall. destruct scores; [discriminate|].
    now inversion Hall. }
  subst joined.
  assert (Hle : length (concat scores) <= length c)
    by (eapply fold_scores_total; exact Hf).
  assert (Hge : length c <= length (concat scores)).
  { destruct (length c) as [|n] eqn:En; [lia|].
    assert (Hin : In n (argsort c)).
    { eapply Permutation_in; [apply Permutation_sym, argsort_perm|].
      apply in_seq. lia. }
    unfold take in Htake. apply rmap_inv in Htake.
    apply In_nth_error in Hin. destruct Hin as (k & Hk).
    destruct (Forall2_nth_error_l _ _ _ _ _ Htake Hk) as (v & _ & Hv).
    simpl in Hv. destruct (nth_error (concat scores) n) eqn:E;
      [|discriminate].
    assert (n < length (concat scores))
      by (apply nth_error_Some; congruence).
    lia. }
  destruct (reassemble_in_row_order c (concat scores) Hc ltac:(lia))
    as (out' & Ht & Hlen & Hrow).
  rewrite Ht in Htake. inversion Htake; subst out'.
  split; assumption.
Qed.



End PredictRows.


Lemma zip_star_fuel_single {A} (l : list A) :
  zip_star_fuel (length l) [l] = map (fun x => [x]) l.
Proof.
  induction l as [|x l IH]; simpl; [reflexivity|]. now rewrite IH.
Qed.

Lemma results_by_index {S R} (F : nat -> S -> R) (st0 : S) :
  forall (states : list S) (k : nat),
    Forall (fun st => st = st0) states ->
    Forall2 (fun i r => r = F i st0) (seq k (length states))
            (map (fun ist : nat * S => F (fst ist) (snd ist))
                 (combine (seq k (length states)) states)).
Proof.
  induction states as [|st states IH]; intros k Hst; simpl; constructor.
  - inversion Hst; subst. reflexivity.
  - apply IH. now inversion Hst.
Qed.

Lemma results_taken {S} (F : nat -> result S) :
  forall (sts : list S) (rs : list (result S)) (k : nat),
    Forall2 (fun i r => r = F i) (seq k (length rs)) rs ->
    map inr sts = firstn (length sts) rs ->
    Forall2 (fun i st => F i = inr st) (seq k (length sts)) sts.
Proof.
  induction sts as [|st sts IH]; intros rs k Hrs Hmap; simpl;
    [constructor|].
  destruct rs as [|r rs]; [discriminate|].
  simpl in Hmap, Hrs. inversion Hmap; subst.
  inversion Hrs; subst. constructor; [congruence|].
  now apply (IH rs).
Qed.

Section BrewOneRows.

Context {ModelState Conf : Type}.
Variable default_model : ModelState.
Variable _split : DataFrame -> nat -> M Rng (list (list nat)).
Variable fit :
  ModelState -> option DataFrame -> Q -> nat -> option string ->
  result ModelState.
Variable predict : ModelState -> DataFrame -> result (list Q).
Variable _calibrate_scores : DataFrame -> list Q -> Q -> result (list Q).
Variable assign_confidence : DataFrame -> list Q -> result Conf.
Variable pool_view : nat -> list DataFrame -> option DataFrame.
Variables (train_fdr : Q) (max_iter : nat) (direction : option string).

Hypothesis split_partition :
  forall d folds g idx g',
    _split d folds g = (inr idx, g') ->
    Permutation (concat idx) (seq 0 (nrows d)).
Hypothesis predict_length :
  forall st t raw, predict st t = inr raw -> length raw = nrows t.
Hypothesis calibrate_length :
  forall t raw fdr s,
    _calibrate_scores t raw fdr = inr s -> length s = length raw.

Local Abbreviation W := (World ModelState).

(** The copies of the model are new objects, one after the other, each
    like the model. *)
Lemma deepcopies_fresh (m : loc) (o : Obj ModelState) (l : list nat) :
  forall (w w' : W) cs,
    nth_error (heap w) m = Some o ->
    mapM (fun _ : nat => deepcopy m) l w = (inr cs, w') ->
    cs = seq (length (heap w)) (length l) /\
    heap w' = heap w ++ repeat o (length l) /\
    rng w' = rng w.
Proof.
  induction l as [|x l IH]; intros w w' cs Hm H; cbn [mapM] in H.
  - apply ret_inr in H. destruct H as (<- & <-). simpl.
    now rewrite app_nil_r.
  - inv_bind_as H c w1 Hc. inv_bind_as H cs' w2 Hcs.
    apply ret_inr in H. destruct H as (<- & <-).
    unfold deepcopy in Hc. inv_bind_as Hc o' w0 Hread.
    apply read_inr in Hread. destruct Hread as (-> & Ho).
    assert (o' = o) by congruence. subst o'.
    unfold alloc in Hc. inversion Hc; subst c w1. clear Hc.
    assert (Hm' : nth_error (heap (mkWorld (heap w ++ [o]) (rng w))) m =
                  Some o).
    { cbn [heap]. rewrite nth_error_app1; [exact Hm|].
      apply nth_error_Some. congruence. }
    destruct (IH _ _ _ Hm' Hcs) as (-> & Hh & Hr).
    cbn [heap rng] in *. rewrite length_app in *. simpl.
    replace (length (heap w) + 1) with (S (length (heap w))) by lia.
    split; [reflexivity|]. split; [|exact Hr].
    rewrite Hh. now rewrite <- app_assoc.
Qed.

Lemma read_models (st0 : ModelState) (l : list loc) :
  forall (w w' : W) states,
    Forall (fun m => nth_error (heap w) m = Some (ModelObj st0)) l ->
    mapM read_model l w = (inr states, w') ->
    Forall (fun st => st = st0) states /\ length states = length l.
Proof.
  induction l as [|m l IH]; intros w w' states Hl H; cbn [mapM] in H.
  - apply ret_inr in H. destruct H as (<- & _). split; constructor.
  - inv_bind_as H st w1 Hst. inv_bind_as H sts w2 Hsts.
    apply ret_inr in H. destruct H as (<- & _).
    pose proof (read_model_val _ _ _ _ Hst) as Hv.
    apply read_model_inr in Hst. subst w1.
    inversion Hl as [|? ? Hm Hl']; subst.
    destruct (IH _ _ _ Hl' Hsts) as (Hf & Hlen).
    split; [constructor; [congruence | exact Hf]|]. simpl. now rewrite Hlen.
Qed.

(** The generator stops only when no tuple of test indices is left. *)
Lemma gen_next_stops (g g' : GenState) (w w' : W) :
  gen_next g w = (inr (None, g'), w') -> gen_pending g = [].
Proof.
  assert (Hloop : forall ts psms all_idx pending (w0 : W),
             gen_loop ts psms all_idx pending w0 = (inr (None, g'), w') ->
             pending = []).
  { intros ts psms all_idx [|idx rest] w0 H; [reflexivity|].
    cbn [gen_loop] in H.
    inv_bind_as H u1 w1 H1. inv_bind_as H dat w2 H2.
    inv_bind_as H tr w3 H3. inv_bind_as H u2 w4 H4.
    apply ret_inr in H. destruct H as (H & _). discriminate. }
  intros H. destruct g as [psms test_idx|ts psms all_idx pending|];
    cbn [gen_next gen_pending] in *.
  - destruct psms as [|p0 psms']; [discriminate|].
    inv_bind_as H ts w1 Hcopy. inv_bind_as H all_idx w2 Hall.
    eapply Hloop; exact H.
  - eapply Hloop; exact H.
  - reflexivity.
Qed.

(** [prc.map] collects the jobs: one per fold and model copy, each with
    the table that the generator had bound when the job was made. *)
Lemma pool_collect_tables (dset : loc) (d : DataFrame) :
  forall (copies : list loc) (test_idx : list (list nat)) (g : GenState)
         (w w' : W) jobs,
    gen_over w [d] g ->
    gen_psms g = [dset] ->
    gen_pending g = map (fun f => [f]) test_idx ->
    pool_collect copies g w = (inr jobs, w') ->
    fst jobs = firstn (length (snd jobs)) copies /\
    length (snd jobs) = Nat.min (length copies) (length test_idx) /\
    Forall2 (fun f tr => df_columns tr = df_columns d /\
                         df_rows tr = rows_outside [f] [d])
            (firstn (length (snd jobs)) test_idx) (snd jobs).
Proof.
  induction copies as [|m rest IH];
    intros test_idx g w w' jobs Hover Hpsms Hpend H; cbn [pool_collect] in H.
  - inv_bind_as H ng w1 Hg. destruct (fst ng);
      apply ret_inr in H; destruct H as (<- & _); simpl;
      (split; [reflexivity | split; [reflexivity | constructor]]).
  - inv_bind_as H ng w1 Hg. destruct ng as [[ts|] g1]; cbn [fst snd] in H.
    2:{ apply ret_inr in H. destruct H as (<- & _).
        apply gen_next_stops in Hg. rewrite Hpend in Hg.
        destruct test_idx; [|discriminate]. simpl.
        split; [reflexivity | split; [reflexivity | constructor]]. }
    destruct (gen_next_table g g1 [d] w w1 ts Hover Hg)
      as (idx0 & pending & d0 & tr & H1 & H2 & H3 & H4 & H5 & H6 & H7 & _ &
          H9 & _).
    cbn [hd_error] in H3. inversion H3; subst d0. clear H3.
    rewrite Hpend in H1.
    destruct test_idx as [|f tl]; [discriminate|].
    cbn [map] in H1. injection H1 as E1 E2. subst idx0 pending.
    inv_bind_as H d' w2 Hd'.
    apply get_data_inr in Hd'. destruct Hd' as (-> & Hd').
    rewrite H4 in Hd'. inversion Hd'; subst d'. clear Hd'.
    inv_bind_as H r w3 Hr.
    apply ret_inr in H. destruct H as (<- & _).
    rewrite Hpsms in H9.
    destruct (IH tl g1 w1 w3 r H7 H9 H2 Hr) as (Hj & Hn & Hf).
    cbn [fst snd length firstn]. split; [now rewrite Hj|].
    split; [simpl; now rewrite Hn|].
    constructor; [split; assumption | exact Hf].
Qed.

Lemma pool_map_results (dset : loc) (d : DataFrame) (st0 : ModelState)
    (copies : list loc) (test_idx : list (list nat)) (g : GenState)
    (n0 : nat) (w w' : W) it :
  gen_over w [d] g ->
  gen_psms g = [dset] ->
  gen_pending g = map (fun f => [f]) test_idx ->
  gen_ok n0 g ->
  n0 <= length (heap w) ->
  Forall (fun m => m < n0 /\ nth_error (heap w) m = Some (ModelObj st0))
         copies ->
  pool_map fit pool_view train_fdr max_iter direction g copies w =
    (inr it, w') ->
  exists tables rs,
    it = PoolResults rs /\
    length tables = Nat.min (length copies) (length test_idx) /\
    Forall2 (fun f tr => df_columns tr = df_columns d /\
                         df_rows tr = rows_outside [f] [d])
            (firstn (length tables) test_idx) tables /\
    Forall2 (fun i r =>
               r = fit st0 (pool_view i tables) train_fdr max_iter direction)
            (seq 0 (length rs)) rs.
Proof.
  intros Hover Hpsms Hpend Hgen Hle Hcopies H. unfold pool_map in H.
  inv_bind_as H jobs w1 Hjobs. inv_bind_as H states w2 Hstates.
  apply ret_inr in H. destruct H as (<- & _).
  destruct (frames_pool_collect n0 copies g Hgen w Hle) as (Hkeep & _).
  rewrite Hjobs in Hkeep. cbn [snd] in Hkeep.
  destruct (pool_collect_tables dset d copies test_idx g w w1 jobs Hover
              Hpsms Hpend Hjobs) as (Hj & Hn & Hf).
  assert (Hheld : Forall (fun m => nth_error (heap w1) m =
                                   Some (ModelObj st0)) (fst jobs)).
  { rewrite Hj. apply Forall_forall. intros m Hm.
    assert (Hin : In m copies).
    { rewrite <- (firstn_skipn (length (snd jobs)) copies).
      apply in_or_app. now left. }
    eapply Forall_forall in Hcopies; [|exact Hin].
    destruct Hcopies as (Hlt & Hst).
    now rewrite (keeps_nth _ _ _ m Hkeep Hlt). }
  destruct (read_models st0 _ _ _ _ Hheld Hstates) as (Hst & Hlen).
  eexists (snd jobs), _. split; [reflexivity|]. split; [exact Hn|].
  split; [exact Hf|].
  rewrite length_map, length_combine, length_seq, Nat.min_id.
  apply (results_by_index
           (fun i st => fit st (pool_view i (snd jobs)) train_fdr max_iter
                            direction) st0 states 0 Hst).
Qed.

(** X15. [brew] over one collection, when [_split] returns folds that
    are together every row position once and [predict] and
    [_calibrate_scores] give one score per row. A run that returns: the
    folds are those that [_split] returned for the table of the collection
    and the generator of the store; for every fold that was scored there
    is a model state, and the scores of the fold are what that model
    predicts, calibrated, for the rows of the fold. With one worker that
    model is what [fit] makes of the template on the rows outside the
    fold; with more workers it is what [fit] makes of the template on the
    table that the worker of the fold received, one of the tables of rows
    outside a fold. [assign_confidence] is called on the table of the
    collection, which the run leaves as it was, and on one score per row,
    the score computed for the index at position [k] of the concatenated
    folds at the position of that index. *)
Theorem brew_one_collection_scores_every_row (p : loc) (model : option loc)
    (test_fdr : Q) (folds max_workers : nat) (w w' : W) (conf : Conf) :
  brew default_model _split fit predict _calibrate_scores assign_confidence
       pool_view (One p) model train_fdr test_fdr max_iter direction folds
       max_workers w = (inr (Single conf), w') ->
  exists d idx g' sts scores out,
    nth_error (heap w) p = Some (PsmObj (Some d)) /\
    nth_error (heap w') p = Some (PsmObj (Some d)) /\
    _split d folds (rng w) = (inr idx, g') /\
    Forall2 (fun fs s =>
               fold_scores predict _calibrate_scores d test_fdr
                           (fst fs) (snd fs) s)
            (combine idx sts) scores /\
    (forall st0, template_state default_model w model st0 ->
       (max_workers = 1 ->
        Forall2 (fitted_outside fit train_fdr max_iter direction d st0)
                (firstn (length sts) idx) sts) /\
       (max_workers <> 1 ->
        exists tables,
          length tables = Nat.min folds (length idx) /\
          Forall2 (fun f tr =>
                     df_columns tr = df_columns d /\
                     Permutation (df_rows tr) (rows_outside [f] [d]))
                  (firstn (length tables) idx) tables /\
          Forall2 (fun i st =>
                     fit st0 (pool_view i tables) train_fdr max_iter
                         direction = inr st)
                  (seq 0 (length sts)) sts)) /\
    assign_confidence d out = inr conf /\
    length out = nrows d /\
    forall k, k < nrows d ->
              nth_error out (nth k (concat idx) 0) =
              nth_error (concat scores) k.
Proof.
  intros E.
  pose proof (brew_frame default_model _split fit predict
                _calibrate_scores assign_confidence pool_view (One p) model
                train_fdr test_fdr max_iter direction folds max_workers w)
    as Hkeep.
  rewrite E in Hkeep. cbn [snd] in Hkeep. destruct Hkeep as (_ & Hkeep).
  unfold brew in E.
  inv_bind_as E m w1 Hm.
  inv_bind_as E test_idx w2 Hsplit.
  inv_bind_as E copies w3 Hcopies.
  destruct (max_workers =? 0) eqn:Emw0; [discriminate|].
  inv_bind_as E models w4 Hmodels.
  inv_bind_as E scores w5 Hscores.
  inv_bind_as E res w6 Hres.
  (* the folds of the one collection *)
  cbn [mapM] in Hsplit.
  inv_bind_as Hsplit idx w1a Hidx.
  inv_bind_as Hsplit nil_ w1b Hnil.
  apply ret_inr in Hnil. destruct Hnil as (<- & <-).
  apply ret_inr in Hsplit. destruct Hsplit as (<- & <-).
  inv_bind_as Hidx d w1c Hd.
  apply get_data_inr in Hd. destruct Hd as (-> & Hpd).
  (* the collection and the model before the run *)
  assert (Hw1 : rng w1 = rng w /\
                nth_error (heap w) p = Some (PsmObj (Some d)) /\
                length (heap w) <= length (heap w1) /\
                forall st0, template_state default_model w model st0 ->
                            nth_error (heap w1) m = Some (ModelObj st0)).
  { destruct model as [m0|].
    - apply ret_inr in Hm. destruct Hm as (<- & <-). auto.
    - unfold alloc in Hm. inversion Hm; subst. cbn [heap rng].
      split; [reflexivity|]. split.
      + simpl in Hpd.
        destruct (Nat.lt_ge_cases p (length (heap w))) as [Hlt|Hge].
        * now rewrite nth_error_app1 in Hpd.
        * rewrite nth_error_app2 in Hpd by exact Hge.
          destruct (p - length (heap w)) as [|[|k]]; simpl in Hpd;
            discriminate.
      + split; [rewrite length_app; lia|].
        intros st0 ->. rewrite nth_error_app2 by lia.
        now rewrite Nat.sub_diag. }
  destruct Hw1 as (Hrng & Hp0 & Hlen01 & Htemplate).
  unfold with_rng in Hidx.
  destruct (_split d folds (rng w1)) as [r g'] eqn:Es.
  inversion Hidx; subst r w1a. clear Hidx.
  assert (Hperm : Permutation (concat idx) (seq 0 (nrows d)))
    by (eapply split_partition; exact Es).
  assert (Hlen : length (concat idx) = nrows d).
  { rewrite (Permutation_length Hperm). apply length_seq. }
  assert (Hplt : S p <= length (heap w1))
    by (apply nth_error_Some; congruence).
  set (w2 := mkWorld (heap w1) g') in *.
  (* the copies of the model *)
  destruct (frames_mapM (S p) (fun _ : nat => deepcopy m) (seq 0 folds)
              (fun c => S p <= c)
              ltac:(intros; apply frames_deepcopy) w2 Hplt) as (Hk3 & Hc3).
  rewrite Hcopies in Hk3, Hc3. cbn [fst snd] in Hk3, Hc3.
  specialize (Hc3 _ eq_refl).
  assert (Hp3 : nth_error (heap w3) p = Some (PsmObj (Some d))).
  { rewrite (keeps_nth _ _ _ p Hk3 ltac:(lia)). exact Hpd. }
  (* the call of _predict *)
  cbn [combine predict_each] in Hscores.
  inv_bind_as Hscores sm w4a Hpred.
  inv_bind_as Hscores nil_ w4b Hnil.
  apply ret_inr in Hnil. destruct Hnil as (<- & <-).
  apply ret_inr in Hscores. destruct Hscores as (<- & <-).
  destruct sm as [out it']. cbn [fst snd] in *.
  unfold _predict in Hpred.
  inv_bind_as Hpred test_set w4c Hcopy.
  inv_bind_as Hpred lr w4d Hloop. destruct lr as [sc it1].
  inv_bind_as Hpred joined w4e Hall. apply lift_inr in Hall.
  destruct Hall as (Hall & <-).
  inv_bind_as Hpred out' w4f Htake. apply lift_inr in Htake.
  destruct Htake as (Htake & <-).
  apply ret_inr in Hpred. destruct Hpred as (Hpred & <-).
  inversion Hpred; subst out' it'. clear Hpred. cbn [fst snd] in *.
  (* the scores, and the models that gave them *)
  assert (Hmain :
            exists sts,
              Forall2 (fun fs s =>
                         fold_scores predict _calibrate_scores d test_fdr
                                     (fst fs) (snd fs) s)
                      (combine idx sts) sc /\
              (forall st0, template_state default_model w model st0 ->
                 (max_workers = 1 ->
                  Forall2 (fitted_outside fit train_fdr max_iter direction
                                          d st0)
                          (firstn (length sts) idx) sts) /\
                 (max_workers <> 1 ->
                  exists tables,
                    length tables = Nat.min folds (length idx) /\
                    Forall2 (fun f tr =>
                               df_columns tr = df_columns d /\
                               Permutation (df_rows tr)
                                           (rows_outside [f] [d]))
                            (firstn (length tables) idx) tables /\
                    Forall2 (fun i st =>
                               fit st0 (pool_view i tables) train_fdr
                                   max_iter direction = inr st)
                            (seq 0 (length sts)) sts))).
  { destruct (max_workers =? 1) eqn:Emw1.
    - (* one worker: the lazy map *)
      apply Nat.eqb_eq in Emw1.
      apply ret_inr in Hmodels. destruct Hmodels as (<- & <-).
      unfold copy_copy in Hcopy. inv_bind_as Hcopy o w9 Hread.
      apply read_inr in Hread. destruct Hread as (-> & Ho).
      rewrite Hp3 in Ho. inversion Ho; subst o. clear Ho.
      unfold alloc in Hcopy. inversion Hcopy; subst test_set w4c.
      clear Hcopy.
      assert (Hplt3 : p < length (heap w3))
        by (apply nth_error_Some; congruence).
      destruct (nth_error (heap w1) m) as [[dm|st0]|] eqn:Em.
      + (* the model argument is no model: nothing to say of fit *)
        assert (Hit : iter_ok (S p)
                          (@LazyMap ModelState (GenStart [p] [idx]) copies 0))
          by (simpl; auto).
        destruct (predict_loop_values fit predict _calibrate_scores
                    train_fdr max_iter direction p (length (heap w3)) d
                    test_fdr idx
                    (@LazyMap ModelState (GenStart [p] [idx]) copies 0)
                    (mkWorld (heap w3 ++ [PsmObj (Some d)]) (rng w3))
                    w4d sc it1)
          as (sts & Hf & _ & _);
          [ cbn [heap]; now rewrite nth_error_app1 by lia
          | lia
          | cbn [heap]; rewrite length_app; simpl; lia
          | exact Hit
          | exact Hloop
          | ].
        exists sts. split; [exact Hf|].
        intros st0 Hst0. apply Htemplate in Hst0. congruence.
      + destruct (deepcopies_fresh m (ModelObj st0) (seq 0 folds) w2 w3
                    copies Em Hcopies) as (Hcs & Hh3 & _).
        rewrite length_seq in Hcs, Hh3. cbn [heap] in Hcs, Hh3.
        destruct (predict_loop_lazy fit predict _calibrate_scores train_fdr
                    max_iter direction p (length (heap w3)) d st0 test_fdr
                    idx (GenStart [p] [idx]) copies 0
                    (mkWorld (heap w3 ++ [PsmObj (Some d)]) (rng w3))
                    w4d sc it1)
          as (sts & Hf & _ & Hfit).
        * cbn [gen_over]. constructor; [|constructor].
          cbn [heap]. now rewrite nth_error_app1 by lia.
        * reflexivity.
        * cbn [gen_pending zip_star]. apply zip_star_fuel_single.
        * apply Forall_forall. intros c Hc. cbn [heap].
          rewrite Hcs in Hc. apply in_seq in Hc.
          rewrite nth_error_app1 by (rewrite Hh3, length_app, repeat_length; lia).
          rewrite Hh3. rewrite nth_error_app2 by lia.
          apply nth_error_repeat. lia.
        * rewrite Hcs. apply seq_NoDup.
        * rewrite Hcs. intros Hin. apply in_seq in Hin.
          rewrite Hh3, length_app, repeat_length in Hin. lia.
        * cbn [heap]. rewrite length_app. simpl. lia.
        * lia.
        * intros ts Ets. discriminate.
        * exact Hloop.
        * exists sts. split; [exact Hf|].
          intros st1 Hst1. apply Htemplate in Hst1.
          assert (st1 = st0) by congruence. subst st1.
          split; [intros _; exact Hfit | intros Hne; contradiction].
      + (* the model argument is no object *)
        assert (Hit : iter_ok (S p)
                          (@LazyMap ModelState (GenStart [p] [idx]) copies 0))
          by (simpl; auto).
        destruct (predict_loop_values fit predict _calibrate_scores
                    train_fdr max_iter direction p (length (heap w3)) d
                    test_fdr idx
                    (@LazyMap ModelState (GenStart [p] [idx]) copies 0)
                    (mkWorld (heap w3 ++ [PsmObj (Some d)]) (rng w3))
                    w4d sc it1)
          as (sts & Hf & _ & _);
          [ cbn [heap]; now rewrite nth_error_app1 by lia
          | lia
          | cbn [heap]; rewrite length_app; simpl; lia
          | exact Hit
          | exact Hloop
          | ].
        exists sts. split; [exact Hf|].
        intros st0 Hst0. apply Htemplate in Hst0. congruence.
    - (* more workers: the pool *)
      apply Nat.eqb_neq in Emw1.
      destruct (frames_pool_map fit pool_view train_fdr max_iter direction
                  (S p) (GenStart [p] [idx]) copies I w3) as (Hk4 & Hi4).
      { destruct Hk3 as (Hl & _). unfold w2 in Hl. cbn [heap] in Hl. lia. }
      rewrite Hmodels in Hk4, Hi4. cbn [fst snd] in Hk4, Hi4.
      specialize (Hi4 _ eq_refl).
      assert (Hp4 : nth_error (heap w4) p = Some (PsmObj (Some d))).
      { rewrite (keeps_nth _ _ _ p Hk4 ltac:(lia)). exact Hp3. }
      unfold copy_copy in Hcopy. inv_bind_as Hcopy o w9 Hread.
      apply read_inr in Hread. destruct Hread as (-> & Ho).
      unfold alloc in Hcopy. inversion Hcopy; subst test_set w4c.
      clear Hcopy.
      rewrite Hp4 in Ho. inversion Ho; subst o. clear Ho.
      assert (Hplt4 : p < length (heap w4))
        by (apply nth_error_Some; congruence).
      destruct (predict_loop_values fit predict _calibrate_scores
                  train_fdr max_iter direction p (length (heap w4)) d
                  test_fdr idx models
                  (mkWorld (heap w4 ++ [PsmObj (Some d)]) (rng w4))
                  w4d sc it1)
        as (sts & Hf & _ & Hpool);
        [ cbn [heap]; now rewrite nth_error_app1 by exact Hplt4
        | exact Hplt4
        | cbn [heap]; rewrite length_app; simpl; lia
        | exact Hi4
        | exact Hloop
        | ].
      + exists sts. split; [exact Hf|].
        intros st0 Hst0. apply Htemplate in Hst0.
        split; [intros Hone; contradiction|]. intros _.
        destruct (deepcopies_fresh m (ModelObj st0) (seq 0 folds) w2 w3
                    copies Hst0 Hcopies) as (Hcs & Hh3 & _).
        rewrite length_seq in Hcs, Hh3. cbn [heap] in Hcs, Hh3.
        destruct (pool_map_results p d st0 copies idx (GenStart [p] [idx])
                    (length (heap w3)) w3 w4 models)
          as (tables & rs & Hrs & Hnt & Htab & Hres_);
          [| reflexivity | | exact I | apply le_n | | exact Hmodels |].
        * cbn [gen_over]. constructor; [exact Hp3 | constructor].
        * cbn [gen_pending zip_star]. apply zip_star_fuel_single.
        * apply Forall_forall. intros c Hc.
          rewrite Hcs in Hc. apply in_seq in Hc.
          rewrite Hh3, length_app, repeat_length. split; [lia|].
          rewrite nth_error_app2 by lia. apply nth_error_repeat. lia.
        * exists tables. split.
          { rewrite Hnt, Hcs. now rewrite length_seq. }
          split.
          -- eapply Forall2_impl; [|exact Htab].
             intros f tr (Hc & Hr). split; [exact Hc|].
             rewrite Hr. apply Permutation_refl.
          -- apply (results_taken
                      (fun i => fit st0 (pool_view i tables) train_fdr
                                    max_iter direction) sts rs 0 Hres_).
             now apply Hpool. }
  destruct Hmain as (sts & Hf & Hmodel).
  destruct (predict_finish predict _calibrate_scores predict_length
              calibrate_length d test_fdr idx sts sc joined out Hf
              ltac:(now rewrite Hlen) Hall Htake) as (Hout & Hrow).
  (* the result *)
  cbn [combine mapM] in Hres.
  inv_bind_as Hres c w5a Hc.
  inv_bind_as Hres nil_ w5b Hnil.
  apply ret_inr in Hnil. destruct Hnil as (<- & <-).
  apply ret_inr in Hres. destruct Hres as (<- & <-).
  inv_bind_as Hc d' w5c Hd'. cbn [fst snd] in *.
  apply lift_inr in Hc. destruct Hc as (Hconf & <-).
  apply get_data_inr in Hd'. destruct Hd' as (-> & Hpd').
  apply ret_inr in E. destruct E as (E & <-). inversion E; subst c.
  pose proof (Hkeep p _ Hp0) as Hp1.
  assert (d' = d) by congruence. subst d'.
  exists d, idx, g', sts, sc, out.
  rewrite <- Hrng, <- Hlen. repeat split; auto; apply Hmodel; assumption.
Qed.

End BrewOneRows.

Lemma brew_one_collection_scores_every_row_witness :
  exists d idx g' sts scores out,
    nth_error (heap toy_world) 0 = Some (PsmObj (Some d)) /\
    nth_error
      (heap (snd (toy_brew pool_view_own (One 0) (Some 2) 3 1 toy_world)))
      0 = Some (PsmObj (Some d)) /\
    split_spec d 3 (rng toy_world) = (inr idx, g') /\
    Forall2 (fun fs s =>
               fold_scores toy_predict toy_calibrate d fdr_1pct
                           (fst fs) (snd fs) s)
            (combine idx sts) scores /\
    (forall st0, template_state 0 toy_world (Some 2) st0 ->
       (1 = 1 ->
        Forall2 (fitted_outside toy_fit fdr_1pct 10 None d st0)
                (firstn (length sts) idx) sts) /\
       (1 <> 1 ->
        exists tables,
          length tables = Nat.min 3 (length idx) /\
          Forall2 (fun f tr =>
                     df_columns tr = df_columns d /\
                     Permutation (df_rows tr) (rows_outside [f] [d]))
                  (firstn (length tables) idx) tables /\
          Forall2 (fun i st =>
                     toy_fit st0 (pool_view_own i tables) fdr_1pct 10
                             None = inr st)
                  (seq 0 (length sts)) sts)) /\
    toy_confidence d out =
      inr [(7 # 1)%Q; (11 # 1)%Q; (5 # 1)%Q] /\
    length out = nrows d /\
    forall k, k < nrows d ->
              nth_error out (nth k (concat idx) 0) =
              nth_error (concat scores) k.
Proof.
  apply (brew_one_collection_scores_every_row 0 split_spec toy_fit
           toy_predict toy_calibrate toy_confidence pool_view_own)
    with (model := Some 2) (train_fdr := fdr_1pct) (max_iter := 10)
         (direction := None) (max_workers := 1).
  - intros d folds g idx g'. apply split_spec_partition.
  - intros st t raw H. inversion H. unfold nrows. apply length_map.
  - intros t raw fdr s H. now inversion H.
  - vm_compute. reflexivity.
Defined.

(** * Further properties: reading a pin file *)

Lemma split_tab_cons (m : option nat) (s : string) :
  exists f fs, split_tab m s = f :: fs.
Proof.
  destruct s as [|c t]; cbn [split_tab]; [eauto|].
  destruct (_ && _); [eauto|].
  destruct (split_tab m t); eauto.
Qed.

Lemma join_tab_cons_char (c : ascii) (f : string) (fs : list string) :
  join_tab (String c f :: fs) = String c (join_tab (f :: fs)).
Proof. destruct fs; reflexivity. Qed.

(** Joining the fields with tabs gives the string back. *)
Lemma split_tab_join (s : string) :
  forall m, join_tab (split_tab m s) = s.
Proof.
  induction s as [|c t IH]; intros m; cbn [split_tab]; [reflexivity|].
  destruct (Ascii.eqb c "009" && _) eqn:E.
  - apply andb_true_iff in E. destruct E as (Ec & _).
    apply Ascii.eqb_eq in Ec. subst c.
    destruct (split_tab_cons (option_map pred m) t) as (f & fs & Ef).
    specialize (IH (option_map pred m)). rewrite Ef in *.
    change (join_tab (EmptyString :: f :: fs))
      with (String "009" (join_tab (f :: fs))).
    now rewrite IH.
  - destruct (split_tab_cons m t) as (f & fs & Ef).
    specialize (IH m). rewrite Ef in *.
    rewrite join_tab_cons_char. now rewrite IH.
Qed.

Lemma split_tab_length (s : string) :
  forall m, length (split_tab (Some m) s) <= S m.
Proof.
  induction s as [|c t IH]; intros m; cbn [split_tab]; [simpl; lia|].
  destruct (Ascii.eqb c "009" && _) eqn:E.
  - destruct m as [|m'].
    + simpl in E. rewrite andb_false_r in E. discriminate.
    + specialize (IH m'). simpl. lia.
  - destruct (split_tab_cons (Some m) t) as (f & fs & Ef).
    specialize (IH m). rewrite Ef in *. simpl in *. lia.
Qed.

Lemma split_tab_limit_no_tab (s : string) :
  forall m, Forall (fun f => has_char "009" f = false)
                   (firstn m (split_tab (Some m) s)).
Proof.
  induction s as [|c t IH]; intros m; cbn [split_tab].
  - destruct m; simpl; [constructor|].
    rewrite firstn_nil. repeat constructor.
  - destruct (Ascii.eqb c "009" && _) eqn:E.
    + destruct m as [|m'].
      * simpl in E. rewrite andb_false_r in E. discriminate.
      * cbn [option_map pred firstn]. constructor; [reflexivity | apply IH].
    + destruct (split_tab_cons (Some m) t) as (f & fs & Ef).
      specialize (IH m). rewrite Ef in *.
      destruct m as [|m']; [constructor|].
      cbn [firstn] in *. inversion IH; subst. constructor; [|assumption].
      cbn [has_char]. rewrite andb_true_r in E. now rewrite E.
Qed.

Lemma split_tab_all_no_tab (s : string) :
  Forall (fun f => has_char "009" f = false) (split_tab None s).
Proof.
  induction s as [|c t IH]; cbn [split_tab].
  - repeat constructor.
  - destruct (Ascii.eqb c "009" && _) eqn:E.
    + constructor; [reflexivity | exact IH].
    + destruct (split_tab_cons None t) as (f & fs & Ef).
      rewrite Ef in *. inversion IH; subst. constructor; [|assumption].
      cbn [has_char]. rewrite andb_true_r in E. now rewrite E.
Qed.

Lemma rmap_total {A B} (f : A -> result B) (g : A -> B) (l : list A) :
  (forall x, f x = inr (g x)) -> rmap f l = inr (map g l).
Proof.
  intros H. induction l as [|x l IH]; simpl; [reflexivity|].
  now rewrite H, IH.
Qed.

Section ReadPinProofs.

Variable open_lines : string -> result (list string).
Variable gzip_lines : string -> result (list string).

(** What [_read_pin_rows] returns is computed from the lines of the file
    opened in text mode. *)
Lemma read_pin_rows_inv (pin_file : string) (header : list string)
    (rows : list (list string)) :
  _read_pin_rows open_lines gzip_lines pin_file = inr (header, rows) ->
  exists lines,
    endswith pin_file ".gz" = false /\
    open_lines pin_file = inr lines /\
    header = split_tab None (remove_newlines (hd "" lines)) /\
    rows = map (fun l => split_tab (Some (length header - 1))
                                   (remove_newlines l)) (tl lines).
Proof.
  unfold _read_pin_rows, fopen. intros H.
  destruct (endswith pin_file ".gz").
  - exfalso. destruct (gzip_lines pin_file) as [e|ls]; [discriminate|].
    cbn [rbind ok] in H. unfold readline, line_of in H. cbn [binary] in H.
    destruct ls; cbn [file_lines] in H; discriminate.
  - destruct (open_lines pin_file) as [e|ls]; [discriminate|].
    exists ls. split; [reflexivity|]. split; [reflexivity|].
    cbn [rbind ok] in H. unfold readline, line_of in H.
    cbn [binary file_lines] in H.
    assert (E : forall (first : string) (rest : list string),
               rbind (replace_newline (TextLine first)) (fun header0 =>
               rbind (rmap (fun l =>
                              rbind (replace_newline
                                       (if binary (mkFile false rest)
                                        then BytesLine l else TextLine l))
                                    (fun l' =>
                                       ok (split_tab
                                             (Some (length
                                                (split_tab None header0) - 1))
                                             l')))
                           (file_lines (mkFile false rest)))
                     (fun rows0 => ok (split_tab None header0, rows0))) =
               inr (header, rows) ->
               header = split_tab None (remove_newlines first) /\
               rows = map (fun l => split_tab (Some (length header - 1))
                                              (remove_newlines l)) rest).
    { intros first rest. cbn [replace_newline rbind ok binary file_lines].
      rewrite (rmap_total _
                 (fun l => split_tab
                             (Some (length (split_tab None
                                              (remove_newlines first)) - 1))
                             (remove_newlines l))) by reflexivity.
      intros H'. inversion H'; subst. split; reflexivity. }
    destruct ls as [|l ls]; cbn [hd tl]; apply E; exact H.
Qed.

(** X18. A file whose name ends in [.gz] is opened with [gzip.open] in mode
    ["r"], which is binary: the first [replace] on the header line raises
    [TypeError]. No header and rows are obtained from such a file,
    whatever it holds. *)
Theorem read_pin_gz_never_parsed (pin_file : string) :
  endswith pin_file ".gz" = true ->
  is_ok (_read_pin_rows open_lines gzip_lines pin_file) = false /\
  forall lines,
    gzip_lines pin_file = inr lines ->
    _read_pin_rows open_lines gzip_lines pin_file =
    inl (TypeError "a bytes-like object is required, not 'str'").
Proof.
  intros Hgz. unfold _read_pin_rows, fopen. rewrite Hgz.
  destruct (gzip_lines pin_file) as [e|ls]; cbn [rbind ok].
  - split; [reflexivity | discriminate].
  - unfold readline, line_of. cbn [binary file_lines].
    split; [destruct ls; reflexivity|].
    intros lines _. destruct ls; reflexivity.
Qed.

(** X19. The shape of what is parsed: the header has at least one name and no
    name holds a tab; every row has at least one field and at most as
    many as the header; only the last field of a full row can hold a tab
    (the protein list of a PSM stays in one field). *)
Theorem read_pin_rows_shape (pin_file : string) (header : list string)
    (rows : list (list string)) :
  _read_pin_rows open_lines gzip_lines pin_file = inr (header, rows) ->
  1 <= length header /\
  Forall (fun name => has_char "009" name = false) header /\
  Forall (fun row =>
            1 <= length row <= length header /\
            Forall (fun field => has_char "009" field = false)
                   (firstn (length header - 1) row)) rows.
Proof.
  intros H. apply read_pin_rows_inv in H.
  destruct H as (lines & _ & _ & Hh & Hr).
  assert (Hlen : 1 <= length header).
  { rewrite Hh. destruct (split_tab_cons None (remove_newlines (hd "" lines)))
      as (f & fs & ->). simpl. lia. }
  split; [exact Hlen|].
  split; [rewrite Hh; apply split_tab_all_no_tab|].
  rewrite Hr. apply Forall_map, Forall_forall. intros l _.
  split; [split|].
  - destruct (split_tab_cons (Some (length header - 1)) (remove_newlines l))
      as (f & fs & ->). simpl. lia.
  - pose proof (split_tab_length (remove_newlines l) (length header - 1)). lia.
  - apply split_tab_limit_no_tab.
Qed.

(** X20. Nothing of a line is lost: the header joined with tabs is the first
    line without its newline, and there is one row for every further
    line, blank lines included, whose fields joined with tabs are that
    line without its newline. *)
Theorem read_pin_rows_round_trip (pin_file : string) (header : list string)
    (rows : list (list string)) :
  _read_pin_rows open_lines gzip_lines pin_file = inr (header, rows) ->
  exists lines,
    open_lines pin_file = inr lines /\
    join_tab header = remove_newlines (hd "" lines) /\
    map join_tab rows = map remove_newlines (tl lines).
Proof.
  intros H. apply read_pin_rows_inv in H.
  destruct H as (lines & _ & Ho & Hh & Hr).
  exists lines. split; [exact Ho|].
  split; [rewrite Hh; apply split_tab_join|].
  rewrite Hr, map_map. apply map_ext. intros l. apply split_tab_join.
Qed.

End ReadPinProofs.

Lemma read_pin_gz_never_parsed_witness :
  is_ok (_read_pin_rows pin_files pin_files "toy.pin.gz") = false /\
  forall lines,
    pin_files "toy.pin.gz" = inr lines ->
    _read_pin_rows pin_files pin_files "toy.pin.gz" =
    inl (TypeError "a bytes-like object is required, not 'str'").
Proof.
  apply (read_pin_gz_never_parsed pin_files pin_files "toy.pin.gz").
  reflexivity.
Defined.

Lemma read_pin_rows_shape_witness :
  1 <= length ["SpecId"; "Label"; "Proteins"] /\
  Forall (fun name => has_char "009" name = false)
         ["SpecId"; "Label"; "Proteins"] /\
  Forall (fun row =>
            1 <= length row <= length ["SpecId"; "Label"; "Proteins"] /\
            Forall (fun field => has_char "009" field = false)
                   (firstn (length ["SpecId"; "Label"; "Proteins"] - 1) row))
         [["a"; "1"; ("P1" ++ tab ++ "P2")%string]; ["b"; "-1"]].
Proof.
  apply (read_pin_rows_shape pin_files pin_files "toy.pin").
  vm_compute. reflexivity.
Defined.

Lemma read_pin_rows_round_trip_witness :
  exists lines,
    pin_files "toy.pin" = inr lines /\
    join_tab ["SpecId"; "Label"; "Proteins"] =
      remove_newlines (hd "" lines) /\
    map join_tab [["a"; "1"; ("P1" ++ tab ++ "P2")%string]; ["b"; "-1"]] =
      map remove_newlines (tl lines).
Proof.
  apply (read_pin_rows_round_trip pin_files pin_files "toy.pin").
  vm_compute. reflexivity.
Defined.
